(** * detect-minecraft-versions: the reconciliation core of [src/index.ts]

    A shallow embedding of the script that polls the Bedrock download API,
    compares the fetched stable and preview versions with the stored
    [versions.json] and rewrites it.  TypeScript interfaces become records,
    the regular expression of [extractVersion] is run by a backtracking
    matcher written after the pattern semantics of ECMA-262, the body of
    [main] is a pure function on its local variables, and the file access of
    [loadExistingData] runs in a small exception monad. *)

From Stdlib Require Import List String Ascii ZArith Bool Lia Arith.
From Stdlib Require Import Sorting.Sorted Sorting.Permutation.
Import ListNotations.

Local Open Scope string_scope.
Local Open Scope list_scope.

(** ** Data model (the interfaces of [index.ts]) *)

(** [type: 'stable' | 'preview'] *)
Inductive Channel : Type := stable | preview.

Definition Channel_eqb (a b : Channel) : bool :=
  match a, b with
  | stable, stable | preview, preview => true
  | _, _ => false
  end.

(** [interface DownloadLink] *)
Record DownloadLink : Type := mkDownloadLink {
  downloadType : string;
  downloadUrl : string
}.

(** [interface VersionInfo] *)
Record VersionInfo : Type := mkVersionInfo {
  version : string;
  windows : string;
  linux : string;
  releasedAt : string
}.

(** [interface HistoryEntry] *)
Record HistoryEntry : Type := mkHistoryEntry {
  type : Channel;
  h_version : string;
  h_windows : string;
  h_linux : string;
  h_releasedAt : string
}.

(** The object under [latest] of [interface VersionData], which is also the
    value [fetchLatestVersions] resolves to. *)
Record Latest : Type := mkLatest {
  l_stable : VersionInfo;
  l_preview : VersionInfo
}.

(** [interface VersionData] *)
Record VersionData : Type := mkVersionData {
  latest : Latest;
  history : list HistoryEntry
}.

(** Field access by channel: [data.latest[channel]]. *)
Definition channel_info (c : Channel) (l : Latest) : VersionInfo :=
  match c with
  | stable => l_stable l
  | preview => l_preview l
  end.

(** ** Regular expressions, after ECMA-262 (22.2.2 Pattern Semantics)

    Only the constructs that the pattern of [extractVersion] uses.  A
    matcher takes a match state and a continuation and returns a state or
    failure; quantifiers are greedy and backtrack.  The input is the list of
    the string's bytes: the pattern is ASCII only, and an ASCII byte never
    occurs inside a multi-byte UTF-8 sequence, so matching bytes agrees with
    matching UTF-16 code units. *)

Inductive regex : Type :=
| Empty                                             (* the empty alternative *)
| Chr (a : ascii)                                   (* a pattern character *)
| Digit                                             (* \d *)
| Seq (r1 r2 : regex)                               (* r1 r2 *)
| Group (r : regex)                                 (* ( r ), capture 1 *)
| Quant (r : regex) (min : nat) (max : option nat). (* r{min,max}; None is infinity *)

Record MatchState : Type := mkMatchState {
  rest : list ascii;            (* the input from endIndex on *)
  cap1 : option (list ascii)    (* captures[1]; None is undefined *)
}.

Definition MatchResult : Type := option MatchState.
Definition Continuation : Type := MatchState -> MatchResult.
Definition Matcher : Type := MatchState -> Continuation -> MatchResult.

Definition is_digit (a : ascii) : bool :=
  let n := nat_of_ascii a in (48 <=? n)%nat && (n <=? 57)%nat.

(** CharacterSetMatcher: consume one character of the set, or fail. *)
Definition CharacterSetMatcher (p : ascii -> bool) : Matcher :=
  fun x c =>
    match rest x with
    | [] => None
    | a :: t => if p a then c {| rest := t; cap1 := cap1 x |} else None
    end.

Fixpoint has_group (r : regex) : bool :=
  match r with
  | Empty | Chr _ | Digit => false
  | Seq r1 r2 => has_group r1 || has_group r2
  | Group _ => true
  | Quant r1 _ _ => has_group r1
  end.

(** RepeatMatcher(m, min, max, greedy = true, x, c, ...).  [fuel] bounds the
    number of iterations; [clear] says that the atom holds the capturing
    group, whose capture is reset at every iteration. *)
Fixpoint RepeatMatcher (m : Matcher) (clear : bool) (fuel min : nat)
    (max : option nat) (x : MatchState) (c : Continuation) : MatchResult :=
  match max with
  | Some O => c x
  | _ =>
    match fuel with
    | O => None
    | S fuel' =>
      let d : Continuation := fun y =>
        if (min =? 0)%nat && (List.length (rest y) =? List.length (rest x))%nat then None
        else RepeatMatcher m clear fuel' (pred min) (option_map pred max) y c in
      let xr := if clear then {| rest := rest x; cap1 := None |} else x in
      if (min =? 0)%nat then
        match m xr d with
        | Some z => Some z
        | None => c x
        end
      else m xr d
    end
  end.

(** CompileSubpattern / CompileAtom. *)
Fixpoint compile (r : regex) : Matcher :=
  match r with
  | Empty => fun x c => c x
  | Chr a => CharacterSetMatcher (Ascii.eqb a)
  | Digit => CharacterSetMatcher is_digit
  | Seq r1 r2 => fun x c => compile r1 x (fun y => compile r2 y c)
  | Group r1 => fun x c =>
      compile r1 x (fun y =>
        c {| rest := rest y;
             cap1 := Some (firstn (List.length (rest x) - List.length (rest y)) (rest x)) |})
  | Quant r1 min max => fun x c =>
      RepeatMatcher (compile r1) (has_group r1) (S (min + List.length (rest x))) min max x c
  end.

(** RegExpBuiltinExec without the [g] and [y] flags: try the pattern at
    index 0, 1, ... until it matches or the input is exhausted. *)
Fixpoint RegExpBuiltinExec (r : regex) (s : list ascii) : MatchResult :=
  match compile r {| rest := s; cap1 := None |} (fun y => Some y) with
  | Some y => Some y
  | None =>
    match s with
    | [] => None
    | _ :: t => RegExpBuiltinExec r t
    end
  end.

(** A run of pattern characters. *)
Fixpoint lit (s : string) : regex :=
  match s with
  | EmptyString => Empty
  | String a s' => Seq (Chr a) (lit s')
  end.

Definition dot : ascii := "."%char.

(** [\d+] *)
Definition digits1 : regex := Quant Digit 1 None.

(** [/bedrock-server-(\d+\.\d+(?:\.\d+){1,2})\.zip/] *)
Definition version_pattern : regex :=
  Seq (lit "bedrock-server-")
    (Seq (Group (Seq digits1
                  (Seq (Chr dot)
                    (Seq digits1
                      (Quant (Seq (Chr dot) digits1) 1 (Some 2))))))
         (lit ".zip")).

(** ** [extractVersion] and [fetchLatestVersions] *)

(** [const match = url.match(/.../); return match ? match[1] : null;] *)
Definition extractVersion (url : string) : option string :=
  match RegExpBuiltinExec version_pattern (list_ascii_of_string url) with
  | Some y => option_map string_of_list_ascii (cap1 y)
  | None => None
  end.

(** [a || b] on values of type [string | null]: [null] and the empty string
    are falsy. *)
Definition js_or (a b : option string) : option string :=
  match a with
  | Some EmptyString | None => b
  | Some _ => a
  end.

(** [a || 'literal'] *)
Definition js_or_default (a : option string) (b : string) : string :=
  match a with
  | Some EmptyString | None => b
  | Some s => s
  end.

(** [extractVersion(windows) || extractVersion(linux) || 'unknown'] *)
Definition resolveVersion (windowsUrl linuxUrl : string) : string :=
  js_or_default (js_or (extractVersion windowsUrl) (extractVersion linuxUrl)) "unknown".

(** [links.find(link => link.downloadType === t)?.downloadUrl || ''] *)
Definition find_link (t : string) (links : list DownloadLink) : string :=
  match find (fun link => String.eqb (downloadType link) t) links with
  | Some link => js_or_default (Some (downloadUrl link)) ""
  | None => ""
  end.

(** What [fetch] answered: the status flag and the links of the body. *)
Record Response : Type := mkResponse {
  ok : bool;
  statusText : string;
  links : list DownloadLink
}.

(** Computations that return or throw. *)
Inductive outcome (A : Type) : Type :=
| Returned (a : A)
| Thrown (message : string).
Arguments Returned {A} a.
Arguments Thrown {A} message.

Definition bind {A B : Type} (m : outcome A) (f : A -> outcome B) : outcome B :=
  match m with
  | Returned a => f a
  | Thrown e => Thrown e
  end.

(** [try { body } catch (error) { handler }] *)
Definition try_catch {A : Type} (body : outcome A) (handler : string -> outcome A)
  : outcome A :=
  match body with
  | Returned a => Returned a
  | Thrown e => handler e
  end.

(** The object that [fetchLatestVersions] returns, from the links of the
    response and [now = new Date().toISOString()]. *)
Definition fetched_versions (links : list DownloadLink) (now : string) : Latest :=
  let stableWindows := find_link "serverBedrockWindows" links in
  let stableLinux := find_link "serverBedrockLinux" links in
  let previewWindows := find_link "serverBedrockPreviewWindows" links in
  let previewLinux := find_link "serverBedrockPreviewLinux" links in
  let stableVersion := resolveVersion stableWindows stableLinux in
  let previewVersion := resolveVersion previewWindows previewLinux in
  {| l_stable := {| version := stableVersion; windows := stableWindows;
                    linux := stableLinux; releasedAt := now |};
     l_preview := {| version := previewVersion; windows := previewWindows;
                     linux := previewLinux; releasedAt := now |} |}.

(** [fetchLatestVersions], given the response and the clock. *)
Definition fetchLatestVersions (response : Response) (now : string) : outcome Latest :=
  if negb (ok response) then
    Thrown ("Failed to fetch versions: " ++ statusText response)%string
  else Returned (fetched_versions (links response) now).

(** ** Array methods used by [main] *)

(** [self.findIndex(p)]: the index of the first element satisfying [p], or
    -1; [i] is the index of the head of [l]. *)
Fixpoint findIndex_from {A : Type} (p : A -> bool) (i : Z) (l : list A) : Z :=
  match l with
  | [] => -1
  | x :: t => if p x then i else findIndex_from p (i + 1) t
  end.

Definition findIndex {A : Type} (p : A -> bool) (self : list A) : Z :=
  findIndex_from p 0 self.

(** [self.filter((entry, index, self) => p(entry, index, self))]: a new array
    with the elements for which the callback answers true. *)
Fixpoint filter_from {A : Type} (p : A -> Z -> list A -> bool) (self : list A)
    (i : Z) (l : list A) : list A :=
  match l with
  | [] => []
  | x :: t =>
    if p x i self then x :: filter_from p self (i + 1) t
    else filter_from p self (i + 1) t
  end.

Definition Array_filter {A : Type} (p : A -> Z -> list A -> bool) (self : list A)
  : list A :=
  filter_from p self 0 self.

(** [Array.prototype.sort(comparefn)].  The comparator answers a number or
    NaN ([None]); SortCompare reads NaN as +0.  The sort is stable
    (ECMA-262 since 2019): [x] stays before [y] unless the comparator says
    that [x] comes after it.  For a comparator that is a consistent
    ordering every conforming sort gives the same array; this model is the
    insertion sort.  A timestamp that is no date makes the comparator of
    [main] answer NaN and so no consistent ordering: the order is then
    implementation-defined, and the insertion sort gives one of the arrays
    that are allowed, not necessarily the one of the runtime.  What is
    stated about the order of the history is stated for timestamps that are
    dates. *)
Definition SortCompare {A : Type} (comparefn : A -> A -> option Z) (x y : A) : Z :=
  match comparefn x y with
  | Some v => v
  | None => 0
  end.

Fixpoint sort_insert {A : Type} (comparefn : A -> A -> option Z) (x : A) (l : list A)
  : list A :=
  match l with
  | [] => [x]
  | y :: t =>
    if (SortCompare comparefn x y <=? 0)%Z then x :: y :: t
    else y :: sort_insert comparefn x t
  end.

Fixpoint Array_sort {A : Type} (comparefn : A -> A -> option Z) (l : list A) : list A :=
  match l with
  | [] => []
  | x :: t => sort_insert comparefn x (Array_sort comparefn t)
  end.

(** ** The body of [main], lines 118 to 176 *)

(** [e.type === entry.type && e.version === entry.version] *)
Definition same_key (entry e : HistoryEntry) : bool :=
  Channel_eqb (type e) (type entry) && String.eqb (h_version e) (h_version entry).

(** The (channel, identifier) key of a history entry. *)
Definition key (e : HistoryEntry) : Channel * string := (type e, h_version e).

(** [newHistory.filter((entry, index, self) =>
      index === self.findIndex((e) => e.type === entry.type && e.version === entry.version))] *)
Definition uniqueHistory_of (newHistory : list HistoryEntry) : list HistoryEntry :=
  Array_filter (fun entry index self => (index =? findIndex (same_key entry) self)%Z)
    newHistory.

(** The object pushed onto [newHistory] when channel [c] changed. *)
Definition old_entry (c : Channel) (old : VersionInfo) : HistoryEntry :=
  {| type := c; h_version := version old; h_windows := windows old;
     h_linux := linux old; h_releasedAt := releasedAt old |}.

(** [info.releasedAt = t] *)
Definition set_releasedAt (info : VersionInfo) (t : string) : VersionInfo :=
  {| version := version info; windows := windows info; linux := linux info;
     releasedAt := t |}.

(** The variables of [main] that the comparison assigns. *)
Record Locals : Type := mkLocals {
  latestVersions : Latest;
  newHistory : list HistoryEntry;
  hasChanges : bool
}.

(** [existingData.latest.stable.version !== latestVersions.stable.version] *)
Definition channelChanged (c : Channel) (existingData : VersionData) (fetched : Latest)
  : bool :=
  negb (String.eqb (version (channel_info c (latest existingData)))
                   (version (channel_info c fetched))).

(** [if (stableChanged) { newHistory.push(...); hasChanges = true; }
     else { latestVersions.stable.releasedAt = existingData.latest.stable.releasedAt; }] *)
Definition stable_step (existingData : VersionData) (stableChanged : bool) (s : Locals)
  : Locals :=
  if stableChanged then
    {| latestVersions := latestVersions s;
       newHistory := newHistory s ++ [old_entry stable (l_stable (latest existingData))];
       hasChanges := true |}
  else
    {| latestVersions :=
         {| l_stable := set_releasedAt (l_stable (latestVersions s))
                          (releasedAt (l_stable (latest existingData)));
            l_preview := l_preview (latestVersions s) |};
       newHistory := newHistory s;
       hasChanges := hasChanges s |}.

(** The same for the preview channel. *)
Definition preview_step (existingData : VersionData) (previewChanged : bool) (s : Locals)
  : Locals :=
  if previewChanged then
    {| latestVersions := latestVersions s;
       newHistory := newHistory s ++ [old_entry preview (l_preview (latest existingData))];
       hasChanges := true |}
  else
    {| latestVersions :=
         {| l_stable := l_stable (latestVersions s);
            l_preview := set_releasedAt (l_preview (latestVersions s))
                           (releasedAt (l_preview (latest existingData))) |};
       newHistory := newHistory s;
       hasChanges := hasChanges s |}.

(** Lines 118 to 163: [hasChanges], [newHistory] and the timestamps of
    [latestVersions] after the comparison with [existingData].  In the
    script [newHistory] is the array [existingData.history] itself, so that
    [push] extends both; [existingData.history] is not read again, and the
    model passes the one list along. *)
Definition compare_step (fetched : Latest) (existingData : option VersionData) : Locals :=
  let s0 := {| latestVersions := fetched;
               newHistory := match existingData with
                             | Some d => history d
                             | None => []
                             end;
               hasChanges := false |} in
  match existingData with
  | None =>
    {| latestVersions := latestVersions s0; newHistory := newHistory s0;
       hasChanges := true |}
  | Some d =>
    let stableChanged := channelChanged stable d fetched in
    let previewChanged := channelChanged preview d fetched in
    preview_step d previewChanged (stable_step d stableChanged s0)
  end.

Section Reconciler.

(** [new Date(s).getTime()]: the time value of a date string, [None] for
    NaN (an invalid date). *)
Variable getTime : string -> option Z.

(** [(a, b) => new Date(b.releasedAt).getTime() - new Date(a.releasedAt).getTime()] *)
Definition compareFn (a b : HistoryEntry) : option Z :=
  match getTime (h_releasedAt b), getTime (h_releasedAt a) with
  | Some tb, Some ta => Some (tb - ta)%Z
  | _, _ => None
  end.

(** Lines 165 to 171: deduplicate, then sort newest first. *)
Definition merge_history (newHistory : list HistoryEntry) : list HistoryEntry :=
  Array_sort compareFn (uniqueHistory_of newHistory).

(** Lines 118 to 176: the [versionData] that is written and the
    [hasChanges] flag that is reported. *)
Definition reconcile (fetched : Latest) (existingData : option VersionData)
  : VersionData * bool :=
  let s := compare_step fetched existingData in
  ({| latest := latestVersions s; history := merge_history (newHistory s) |},
   hasChanges s).

(** The time value of an entry's timestamp. *)
Definition time_of (e : HistoryEntry) : option Z := getTime (h_releasedAt e).

(** [a] is at least as recent as [b], both timestamps being dates. *)
Definition newer_first (a b : HistoryEntry) : Prop :=
  exists ta tb, time_of a = Some ta /\ time_of b = Some tb /\ (tb <= ta)%Z.

(** The entry's timestamp is the instant [t]. *)
Definition has_time (t : Z) (e : HistoryEntry) : bool :=
  match time_of e with
  | Some t' => (t' =? t)%Z
  | None => false
  end.

(** The entry's timestamp is a date. *)
Definition is_date (e : HistoryEntry) : bool :=
  match time_of e with
  | Some _ => true
  | None => false
  end.

(** Every timestamp of [l] is a date. *)
Definition valid_times (l : list HistoryEntry) : bool := forallb is_date l.

(** The same as a proposition. *)
Definition dated (l : list HistoryEntry) : Prop :=
  Forall (fun e => time_of e <> None) l.

End Reconciler.

(** ** [loadExistingData]: the file system and [JSON.parse]

    [JSON.parse] returns a value of any shape, and [main] reads it at the
    type [VersionData | null] without a check, as TypeScript lets it.  The
    loader is modelled on the parsed value; the statements about the body of
    [main] are about values of the type that [main] gives it. *)

(** What [JSON.parse] returns.  Numbers and strings keep their lexemes (a
    string: the characters between its quotes, escapes as written). *)
#[warnings="-register-all"]
Inductive json : Type :=
| JNull
| JBool (b : bool)
| JNumber (lexeme : list ascii)
| JString (lexeme : list ascii)
| JArray (elements : list json)
| JObject (members : list (list ascii * json)).

Definition is_ws (a : ascii) : bool :=
  let n := nat_of_ascii a in
  (n =? 32)%nat || (n =? 9)%nat || (n =? 10)%nat || (n =? 13)%nat.

Fixpoint skip_ws (s : list ascii) : list ascii :=
  match s with
  | a :: t => if is_ws a then skip_ws t else s
  | [] => []
  end.

Definition is_hex (a : ascii) : bool :=
  let n := nat_of_ascii a in
  is_digit a || ((65 <=? n)%nat && (n <=? 70)%nat) || ((97 <=? n)%nat && (n <=? 102)%nat).

Definition is_escape (a : ascii) : bool :=
  existsb (Ascii.eqb a) (list_ascii_of_string "/bfnrt")
  || (nat_of_ascii a =? 34)%nat || (nat_of_ascii a =? 92)%nat.

(** The characters of a string after its opening quote, up to the closing
    one: no control character, and a backslash starts a legal escape. *)
Fixpoint scan_string (s : list ascii) : option (list ascii * list ascii) :=
  match s with
  | [] => None
  | a :: t =>
    let n := nat_of_ascii a in
    if (n =? 34)%nat then Some ([], t)
    else if (n <? 32)%nat then None
    else if (n =? 92)%nat then
      match t with
      | "u"%char :: h1 :: h2 :: h3 :: h4 :: t' =>
        if is_hex h1 && is_hex h2 && is_hex h3 && is_hex h4 then
          option_map (fun r => (a :: "u"%char :: h1 :: h2 :: h3 :: h4 :: fst r, snd r))
                     (scan_string t')
        else None
      | e :: t' =>
        if is_escape e then
          option_map (fun r => (a :: e :: fst r, snd r)) (scan_string t')
        else None
      | [] => None
      end
    else option_map (fun r => (a :: fst r, snd r)) (scan_string t)
  end.

(** The longest prefix of characters satisfying [p], and what follows. *)
Fixpoint span (p : ascii -> bool) (s : list ascii) : list ascii * list ascii :=
  match s with
  | a :: t => if p a then (a :: fst (span p t), snd (span p t)) else ([], s)
  | [] => ([], [])
  end.

(** A number: an optional minus, an integer part with no leading zero, an
    optional fraction and an optional exponent. *)
Definition scan_number (s : list ascii) : option (list ascii * list ascii) :=
  let '(sign, s1) := match s with
                     | "-"%char :: t => (["-"%char], t)
                     | _ => ([], s)
                     end in
  let int_part := match s1 with
                  | "0"%char :: t => Some (["0"%char], t)
                  | _ => match span is_digit s1 with
                         | ([], _) => None
                         | r => Some r
                         end
                  end in
  match int_part with
  | None => None
  | Some (int, s2) =>
    let frac := match s2 with
                | "."%char :: t => match span is_digit t with
                                   | ([], _) => None
                                   | (ds, t') => Some ("."%char :: ds, t')
                                   end
                | _ => Some ([], s2)
                end in
    match frac with
    | None => None
    | Some (fr, s3) =>
      let after_e (e : ascii) (t : list ascii) :=
        let '(sg, t1) := match t with
                         | "+"%char :: u => (["+"%char], u)
                         | "-"%char :: u => (["-"%char], u)
                         | _ => ([], t)
                         end in
        match span is_digit t1 with
        | ([], _) => None
        | (ds, t2) => Some (sign ++ int ++ fr ++ e :: sg ++ ds, t2)
        end in
      match s3 with
      | "e"%char :: t => after_e "e"%char t
      | "E"%char :: t => after_e "E"%char t
      | _ => Some (sign ++ int ++ fr, s3)
      end
    end
  end.

(** The JSON grammar by recursive descent; [fuel] bounds the nesting and the
    number of elements, and [JSON_parse] gives it the length of the text
    plus one. *)
Fixpoint parse_value (fuel : nat) (s : list ascii) {struct fuel}
  : option (json * list ascii) :=
  match fuel with
  | O => None
  | S f =>
    match s with
    | "n"%char :: "u"%char :: "l"%char :: "l"%char :: t => Some (JNull, t)
    | "t"%char :: "r"%char :: "u"%char :: "e"%char :: t => Some (JBool true, t)
    | "f"%char :: "a"%char :: "l"%char :: "s"%char :: "e"%char :: t => Some (JBool false, t)
    | "["%char :: t =>
      match skip_ws t with
      | "]"%char :: t' => Some (JArray [], t')
      | t' => option_map (fun r => (JArray (fst r), snd r)) (parse_elements f t')
      end
    | "{"%char :: t =>
      match skip_ws t with
      | "}"%char :: t' => Some (JObject [], t')
      | t' => option_map (fun r => (JObject (fst r), snd r)) (parse_members f t')
      end
    | a :: t =>
      if (nat_of_ascii a =? 34)%nat then
        option_map (fun r => (JString (fst r), snd r)) (scan_string t)
      else option_map (fun r => (JNumber (fst r), snd r)) (scan_number s)
    | [] => None
    end
  end
with parse_elements (fuel : nat) (s : list ascii) {struct fuel}
  : option (list json * list ascii) :=
  match fuel with
  | O => None
  | S f =>
    match parse_value f (skip_ws s) with
    | None => None
    | Some (v, t) =>
      match skip_ws t with
      | ","%char :: t' =>
        option_map (fun r => (v :: fst r, snd r)) (parse_elements f t')
      | "]"%char :: t' => Some ([v], t')
      | _ => None
      end
    end
  end
with parse_members (fuel : nat) (s : list ascii) {struct fuel}
  : option (list (list ascii * json) * list ascii) :=
  match fuel with
  | O => None
  | S f =>
    match skip_ws s with
    | q :: t0 =>
      if (nat_of_ascii q =? 34)%nat then
        match scan_string t0 with
        | None => None
        | Some (name, t1) =>
          match skip_ws t1 with
          | ":"%char :: t2 =>
            match parse_value f (skip_ws t2) with
            | None => None
            | Some (v, t3) =>
              match skip_ws t3 with
              | ","%char :: t4 =>
                option_map (fun r => ((name, v) :: fst r, snd r)) (parse_members f t4)
              | "}"%char :: t4 => Some ([(name, v)], t4)
              | _ => None
              end
            end
          | _ => None
          end
        end
      else None
    | [] => None
    end
  end.

(** [JSON.parse(text)]: the value, or a SyntaxError. *)
Definition JSON_parse (text : string) : outcome json :=
  let s := list_ascii_of_string text in
  match parse_value (S (List.length s)) (skip_ws s) with
  | Some (v, t) =>
    match skip_ws t with
    | [] => Returned v
    | _ => Thrown "SyntaxError: Unexpected non-whitespace character after JSON"
    end
  | None => Thrown "SyntaxError: JSON Parse error"
  end.

(** What a path names. *)
Inductive node : Type :=
| File (content : string)
| Directory.

(** A file system: the first binding of a path counts. *)
Definition FileSystem : Type := list (string * node).

Fixpoint lookup (path : string) (fs : FileSystem) : option node :=
  match fs with
  | [] => None
  | (p, n) :: t => if String.eqb p path then Some n else lookup path t
  end.

(** [existsSync(path)] *)
Definition existsSync (fs : FileSystem) (path : string) : bool :=
  match lookup path fs with
  | Some _ => true
  | None => false
  end.

(** [await readFile(path, 'utf-8')] *)
Definition readFile (fs : FileSystem) (path : string) : outcome string :=
  match lookup path fs with
  | Some (File content) => Returned content
  | Some Directory => Thrown "EISDIR: illegal operation on a directory, read"
  | None => Thrown "ENOENT: no such file or directory"
  end.

(** [loadExistingData(filePath)].  The value [null] that stands for an
    absent state is [JNull], which is also what the text [null] parses to.
    The warning of the handler goes to the console and is not part of the
    result. *)
Definition loadExistingData (fs : FileSystem) (filePath : string) : outcome json :=
  if negb (existsSync fs filePath) then Returned JNull
  else
    try_catch
      (bind (readFile fs filePath) (fun content => JSON_parse content))
      (fun error => Returned JNull).

(** A string in double quotes, as a JSON text writes it. *)
Definition quoted (s : string) : string :=
  (String (ascii_of_nat 34) s ++ String (ascii_of_nat 34) EmptyString)%string.

(** ** A date parser for the examples

    [getTime] of the reconciler stands for the JavaScript clock's parsing,
    which accepts more than one format.  [isoTime] reads the one format that
    [toISOString] writes, [YYYY-MM-DDTHH:mm:ss.sssZ], and answers the
    milliseconds since the epoch; every other string is an invalid date
    here. *)

Definition digit_value (a : ascii) : option Z :=
  if is_digit a then Some (Z.of_nat (nat_of_ascii a) - 48)%Z else None.

Fixpoint number_value (acc : Z) (s : list ascii) : option Z :=
  match s with
  | [] => Some acc
  | a :: t =>
    match digit_value a with
    | Some d => number_value (10 * acc + d) t
    | None => None
    end
  end.

Definition is_leap (y : Z) : bool :=
  ((y mod 4 =? 0) && negb (y mod 100 =? 0) || (y mod 400 =? 0))%Z.

Definition days_in_month (y m : Z) : Z :=
  if (m =? 2)%Z then (if is_leap y then 29 else 28)%Z
  else if ((m =? 4) || (m =? 6) || (m =? 9) || (m =? 11))%Z then 30%Z
  else 31%Z.

(** Days from 1970-01-01 to the civil date [y]-[m]-[d]. *)
Definition days_from_civil (y m d : Z) : Z :=
  let y' := (if m <=? 2 then y - 1 else y)%Z in
  let era := (y' / 400)%Z in
  let yoe := (y' - era * 400)%Z in
  let mp := (if m <=? 2 then m + 9 else m - 3)%Z in
  let doy := ((153 * mp + 2) / 5 + d - 1)%Z in
  let doe := (yoe * 365 + yoe / 4 - yoe / 100 + doy)%Z in
  (era * 146097 + doe - 719468)%Z.

Definition isoTime (s : string) : option Z :=
  match list_ascii_of_string s with
  | [y1; y2; y3; y4; "-"%char; m1; m2; "-"%char; d1; d2; "T"%char;
     h1; h2; ":"%char; n1; n2; ":"%char; s1; s2; "."%char; f1; f2; f3; "Z"%char] =>
    match number_value 0 [y1; y2; y3; y4], number_value 0 [m1; m2],
          number_value 0 [d1; d2], number_value 0 [h1; h2],
          number_value 0 [n1; n2], number_value 0 [s1; s2],
          number_value 0 [f1; f2; f3] with
    | Some y, Some m, Some d, Some h, Some n, Some sec, Some ms =>
      if ((1 <=? m) && (m <=? 12) && (1 <=? d) && (d <=? days_in_month y m)
          && (h <=? 23) && (n <=? 59) && (sec <=? 59))%Z
      then Some ((((days_from_civil y m d * 24 + h) * 60 + n) * 60 + sec) * 1000 + ms)%Z
      else None
    | _, _, _, _, _, _, _ => None
    end
  | _ => None
  end.

(** ** Auxiliary definitions for the statements about [main] *)

(** The entries of [l] that have no entry of the same key before them,
    neither in [l] nor in [seen]. *)
Fixpoint first_occurrences (seen l : list HistoryEntry) : list HistoryEntry :=
  match l with
  | [] => []
  | x :: t =>
    if existsb (same_key x) seen then first_occurrences (seen ++ [x]) t
    else x :: first_occurrences (seen ++ [x]) t
  end.

(** [x] may stand before [y]: the comparator does not put [x] after [y]. *)
Definition in_order {A : Type} (comparefn : A -> A -> option Z) (x y : A) : Prop :=
  (SortCompare comparefn x y <= 0)%Z.

(** The entries that the comparison pushes onto the prior history. *)
Definition pushed (fetched : Latest) (existingData : VersionData) : list HistoryEntry :=
  (if channelChanged stable existingData fetched
   then [old_entry stable (l_stable (latest existingData))] else [])
  ++ (if channelChanged preview existingData fetched
      then [old_entry preview (l_preview (latest existingData))] else []).

(** The fetched value of a later run: the same descriptors with the
    timestamp of that run. *)
Definition fetched_at (now : string) (fetched : Latest) : Latest :=
  {| l_stable := set_releasedAt (l_stable fetched) now;
     l_preview := set_releasedAt (l_preview fetched) now |}.

(** ** The pattern of [extractVersion], read off step by step *)

(** A non-empty run of digits at the head of [s], and what follows it. *)
Definition leading_digits (s : list ascii) : option (list ascii * list ascii) :=
  match span is_digit s with
  | ([], _) => None
  | r => Some r
  end.

(** A dot and a non-empty run of digits at the head of [s]. *)
Definition dot_digits (s : list ascii) : option (list ascii * list ascii) :=
  match s with
  | a :: t => if Ascii.eqb dot a then leading_digits t else None
  | [] => None
  end.

(** [s] without its prefix [w]. *)
Fixpoint strip (w : string) (s : list ascii) : option (list ascii) :=
  match w with
  | EmptyString => Some s
  | String a w' =>
    match s with
    | b :: t => if Ascii.eqb a b then strip w' t else None
    | [] => None
    end
  end.

(** A continuation that fails on every input that starts with a digit. *)
Definition rejects_digit (c : Continuation) : Prop :=
  forall a t cp, is_digit a = true -> c {| rest := a :: t; cap1 := cp |} = None.

(** The end of the capturing group at [u], the group having started at
    [s1], followed by [\.zip]. *)
Definition close_group (s1 u : list ascii) : MatchResult :=
  match strip ".zip" u with
  | Some r =>
    Some {| rest := r; cap1 := Some (firstn (List.length s1 - List.length u) s1) |}
  | None => None
  end.

(** The pattern at the head of [s], without backtracking search. *)
Definition match_at (s : list ascii) : MatchResult :=
  match strip "bedrock-server-" s with
  | None => None
  | Some s1 =>
    match leading_digits s1 with
    | None => None
    | Some (_, s2) =>
      match dot_digits s2 with
      | None => None
      | Some (_, s3) =>
        match dot_digits s3 with
        | None => None
        | Some (_, s4) =>
          match (match dot_digits s4 with
                 | Some (_, s5) => close_group s1 s5
                 | None => None
                 end) with
          | Some z => Some z
          | None => close_group s1 s4
          end
        end
      end
    end
  end.

(** ** The pattern in the words of the specification *)

(** The characters of a string. *)
Definition chars (s : string) : list ascii := list_ascii_of_string s.

(** [<N>]: a non-empty run of decimal digits. *)
Definition is_number (d : list ascii) : Prop :=
  d <> [] /\ Forall (fun a => is_digit a = true) d.

(** The components written with dots between them. *)
Fixpoint join_dots (comps : list (list ascii)) : list ascii :=
  match comps with
  | [] => []
  | d :: t =>
    match t with
    | [] => d
    | _ => d ++ dot :: join_dots t
    end
  end.

(** [<N>.<N>(.<N>){1,2}]: three or four numbers with dots between them. *)
Definition dotted_number (v : list ascii) : Prop :=
  exists comps, v = join_dots comps /\ Forall is_number comps
                /\ (List.length comps = 3 \/ List.length comps = 4).

(** [bedrock-server-<v>.zip] stands at the head of [t]. *)
Definition matches_here (t v : list ascii) : Prop :=
  dotted_number v /\ exists post, t = chars "bedrock-server-" ++ v ++ chars ".zip" ++ post.

(** [v] is captured by the first place of [s] where the pattern matches. *)
Definition first_capture (s v : list ascii) : Prop :=
  exists pre t, s = pre ++ t /\ matches_here t v
    /\ forall pre' t' v', s = pre' ++ t' -> matches_here t' v' ->
                          List.length pre <= List.length pre'.

(** The pattern matches nowhere in [s]. *)
Definition no_match (s : list ascii) : Prop :=
  forall pre t v, s = pre ++ t -> ~ matches_here t v.

(** The head of [t], if any, is not a digit. *)
Definition no_digit_head (t : list ascii) : Prop :=
  match t with
  | a :: _ => is_digit a = false
  | [] => True
  end.

(** ** Sample runs *)

Definition bin_url (dir v : string) : string :=
  ("https://www.minecraft.net/bedrockdedicatedserver/" ++ dir ++ "/bedrock-server-"
   ++ v ++ ".zip")%string.

(** The links of an API response that offers stable [sv] and preview [pv]. *)
Definition links_for (sv pv : string) : list DownloadLink :=
  [ {| downloadType := "serverBedrockWindows"; downloadUrl := bin_url "bin-win" sv |};
    {| downloadType := "serverBedrockLinux"; downloadUrl := bin_url "bin-linux" sv |};
    {| downloadType := "serverBedrockPreviewWindows";
       downloadUrl := bin_url "bin-win-preview" pv |};
    {| downloadType := "serverBedrockPreviewLinux";
       downloadUrl := bin_url "bin-linux-preview" pv |};
    {| downloadType := "serverJar"; downloadUrl := "https://example.invalid/server.jar" |} ].

Definition day1 : string := "2025-11-01T00:00:00.000Z".
Definition day2 : string := "2025-11-08T06:00:00.000Z".
Definition day3 : string := "2025-11-15T12:30:00.000Z".
Definition day4 : string := "2025-11-21T00:00:00.000Z".

(** First run: no file; stable 1.21.120.0 and preview 1.21.130.28. *)
Definition run1 : VersionData * bool :=
  reconcile isoTime (fetched_versions (links_for "1.21.120.0" "1.21.130.28") day1) None.

(** Second run: stable moves on to 1.21.124.2. *)
Definition run2 : VersionData * bool :=
  reconcile isoTime (fetched_versions (links_for "1.21.124.2" "1.21.130.28") day2)
    (Some (fst run1)).

(** Third run: the API offers stable 1.21.120.0 again. *)
Definition run3 : VersionData * bool :=
  reconcile isoTime (fetched_versions (links_for "1.21.120.0" "1.21.130.28") day3)
    (Some (fst run2)).

(** Fourth run: stable 1.21.124.2 is back. *)
Definition fetched4 : Latest :=
  fetched_versions (links_for "1.21.124.2" "1.21.130.28") day4.

Definition run4 : VersionData * bool := reconcile isoTime fetched4 (Some (fst run3)).

(** A repository whose versions file is in the format of the first release. *)
Definition old_format_fs : FileSystem :=
  [ ("/repo/versions.json",
     File ("{" ++ quoted "stable" ++ ": {" ++ quoted "version" ++ ": "
           ++ quoted "1.21.124.2" ++ "}, "
           ++ quoted "preview" ++ ": {" ++ quoted "version" ++ ": "
           ++ quoted "1.21.130.28" ++ "}}")%string) ].

(** A repository whose versions file was cut off while it was written. *)
Definition truncated_fs : FileSystem :=
  [ ("/repo/README.md", File "# versions");
    ("/repo/versions.json", File ("{ " ++ quoted "latest" ++ ": {")%string) ].

(** ** Runs in sequence, and the links that count *)

(** The state after the runs that fetched [fetches], one after the other,
    each comparing with what the run before it wrote. *)
Definition run_sequence (getTime : string -> option Z) (state : option VersionData)
    (fetches : list Latest) : option VersionData :=
  fold_left (fun st fetched => Some (fst (reconcile getTime fetched st))) fetches state.

(** The recorded (channel, identifier) pairs of a state. *)
Definition recorded_keys (state : option VersionData) : list (Channel * string) :=
  match state with
  | Some d => map key (history d)
  | None => []
  end.

(** The download types that [fetchLatestVersions] looks for. *)
Definition wanted_type (t : string) : bool :=
  String.eqb t "serverBedrockWindows" || String.eqb t "serverBedrockLinux"
  || String.eqb t "serverBedrockPreviewWindows" || String.eqb t "serverBedrockPreviewLinux".

(** The download types of one channel: Windows, then Linux. *)
Definition channel_types (c : Channel) : string * string :=
  match c with
  | stable => ("serverBedrockWindows", "serverBedrockLinux")
  | preview => ("serverBedrockPreviewWindows", "serverBedrockPreviewLinux")
  end.

(** 1 for a changed channel, 0 for an unchanged one. *)
Definition changed_count (c : Channel) (existingData : VersionData) (fetched : Latest)
  : nat :=
  if channelChanged c existingData fetched then 1 else 0.

(** ** The earlier revision of the script (no history)

    The repository also holds the script as it was before the history was
    added.  Its [extractVersion], [loadExistingVersions] and [setOutput] are
    those of the current script; its file has the two channels at the top
    level, the timestamp is named [updatedAt], and [main] keeps the stored
    timestamps only when neither channel changed. *)

Module Previous.

(** One channel of the earlier [interface VersionData]. *)
Record ChannelInfo : Type := mkChannelInfo {
  p_version : string;
  p_windows : string;
  p_linux : string;
  updatedAt : string
}.

(** The earlier [interface VersionData]. *)
Record Versions : Type := mkVersions {
  p_stable : ChannelInfo;
  p_preview : ChannelInfo
}.

(** The object that [fetchVersions] returns. *)
Definition fetched_versions (links : list DownloadLink) (now : string) : Versions :=
  let stableWindows := find_link "serverBedrockWindows" links in
  let stableLinux := find_link "serverBedrockLinux" links in
  let previewWindows := find_link "serverBedrockPreviewWindows" links in
  let previewLinux := find_link "serverBedrockPreviewLinux" links in
  let stableVersion := resolveVersion stableWindows stableLinux in
  let previewVersion := resolveVersion previewWindows previewLinux in
  {| p_stable := {| p_version := stableVersion; p_windows := stableWindows;
                    p_linux := stableLinux; updatedAt := now |};
     p_preview := {| p_version := previewVersion; p_windows := previewWindows;
                     p_linux := previewLinux; updatedAt := now |} |}.

(** [info.updatedAt = t] *)
Definition set_updatedAt (info : ChannelInfo) (t : string) : ChannelInfo :=
  {| p_version := p_version info; p_windows := p_windows info;
     p_linux := p_linux info; updatedAt := t |}.

(** The comparison of the earlier [main]: the [newVersions] that are written
    and [hasChanges]. *)
Definition compare (newVersions : Versions) (existingVersions : option Versions)
  : Versions * bool :=
  match existingVersions with
  | None => (newVersions, true)
  | Some existing =>
    let stableChanged :=
      negb (String.eqb (p_version (p_stable existing)) (p_version (p_stable newVersions))) in
    let previewChanged :=
      negb (String.eqb (p_version (p_preview existing))
                       (p_version (p_preview newVersions))) in
    let hasChanges := if stableChanged then true else false in
    let hasChanges := if previewChanged then true else hasChanges in
    if negb hasChanges then
      ({| p_stable := set_updatedAt (p_stable newVersions) (updatedAt (p_stable existing));
          p_preview := set_updatedAt (p_preview newVersions)
                         (updatedAt (p_preview existing)) |},
       hasChanges)
    else (newVersions, hasChanges)
  end.

(** A channel of the current format read in the earlier one. *)
Definition of_info (info : VersionInfo) : ChannelInfo :=
  {| p_version := version info; p_windows := windows info; p_linux := linux info;
     updatedAt := releasedAt info |}.

(** The [latest] object of the current format read in the earlier one. *)
Definition of_latest (l : Latest) : Versions :=
  {| p_stable := of_info (l_stable l); p_preview := of_info (l_preview l) |}.

(** The same descriptors with the timestamp of a later fetch. *)
Definition fetched_at (now : string) (v : Versions) : Versions :=
  {| p_stable := set_updatedAt (p_stable v) now;
     p_preview := set_updatedAt (p_preview v) now |}.

(** Field access by channel. *)
Definition channel_of (c : Channel) (v : Versions) : ChannelInfo :=
  match c with
  | stable => p_stable v
  | preview => p_preview v
  end.

End Previous.

(** ** [JSON.stringify(value, null, 2)] and the reading of a parsed value

    The strings of the model are byte strings: a JavaScript string without
    lone surrogates, in UTF-8.  QuoteJSONString escapes the quote, the
    backslash and the control characters and writes every other character
    as it is. *)

Definition quote_char : ascii := ascii_of_nat 34.
Definition backslash : ascii := ascii_of_nat 92.
Definition newline : ascii := ascii_of_nat 10.

(** The lower-case hexadecimal digit of a number below 16. *)
Definition hex_digit (n : nat) : ascii :=
  if (n <? 10)%nat then ascii_of_nat (48 + n) else ascii_of_nat (87 + n).

(** QuoteJSONString, one character. *)
Definition escape_char (a : ascii) : list ascii :=
  let n := nat_of_ascii a in
  if (n =? 8)%nat then [backslash; "b"%char]
  else if (n =? 9)%nat then [backslash; "t"%char]
  else if (n =? 10)%nat then [backslash; "n"%char]
  else if (n =? 12)%nat then [backslash; "f"%char]
  else if (n =? 13)%nat then [backslash; "r"%char]
  else if (n =? 34)%nat then [backslash; quote_char]
  else if (n =? 92)%nat then [backslash; backslash]
  else if (n <? 32)%nat then
    [backslash; "u"%char; "0"%char; "0"%char; hex_digit (n / 16); hex_digit (n mod 16)]
  else [a].

(** QuoteJSONString without the two quotes. *)
Definition escape (s : list ascii) : list ascii := flat_map escape_char s.

Definition hex_value (a : ascii) : option N :=
  let n := N_of_ascii a in
  if ((48 <=? n) && (n <=? 57))%N then Some (n - 48)%N
  else if ((65 <=? n) && (n <=? 70))%N then Some (n - 55)%N
  else if ((97 <=? n) && (n <=? 102))%N then Some (n - 87)%N
  else None.

(** The code unit of [\uXXXX]. *)
Definition code_unit (h1 h2 h3 h4 : ascii) : option N :=
  match hex_value h1, hex_value h2, hex_value h3, hex_value h4 with
  | Some a, Some b, Some c, Some d => Some (((a * 16 + b) * 16 + c) * 16 + d)%N
  | _, _, _, _ => None
  end.

(** The UTF-8 bytes of a code point. *)
Definition utf8 (cp : N) : list ascii :=
  if (cp <? 128)%N then [ascii_of_N cp]
  else if (cp <? 2048)%N then
    [ascii_of_N (192 + cp / 64); ascii_of_N (128 + cp mod 64)]
  else if (cp <? 65536)%N then
    [ascii_of_N (224 + cp / 4096); ascii_of_N (128 + (cp / 64) mod 64);
     ascii_of_N (128 + cp mod 64)]
  else
    [ascii_of_N (240 + cp / 262144); ascii_of_N (128 + (cp / 4096) mod 64);
     ascii_of_N (128 + (cp / 64) mod 64); ascii_of_N (128 + cp mod 64)].

(** The character that a one-letter escape stands for. *)
Definition simple_escape (e : ascii) : option ascii :=
  let n := nat_of_ascii e in
  if (n =? 34)%nat || (n =? 92)%nat || (n =? 47)%nat then Some e
  else if (n =? 98)%nat then Some (ascii_of_nat 8)
  else if (n =? 102)%nat then Some (ascii_of_nat 12)
  else if (n =? 110)%nat then Some (ascii_of_nat 10)
  else if (n =? 114)%nat then Some (ascii_of_nat 13)
  else if (n =? 116)%nat then Some (ascii_of_nat 9)
  else None.

(** The string that a lexeme denotes; [None] for a text that is no lexeme
    and for a lone surrogate, which the byte strings cannot hold. *)
Fixpoint unescape (s : list ascii) : option (list ascii) :=
  match s with
  | [] => Some []
  | a :: t =>
    let n := nat_of_ascii a in
    if (n =? 92)%nat then
      match t with
      | "u"%char :: h1 :: h2 :: h3 :: h4 :: t' =>
        match code_unit h1 h2 h3 h4 with
        | None => None
        | Some u =>
          if ((55296 <=? u) && (u <=? 56319))%N then
            match t' with
            | b :: "u"%char :: g1 :: g2 :: g3 :: g4 :: t'' =>
              match code_unit g1 g2 g3 g4 with
              | Some lo =>
                if (nat_of_ascii b =? 92)%nat && ((56320 <=? lo) && (lo <=? 57343))%N
                then option_map
                       (app (utf8 (65536 + (u - 55296) * 1024 + (lo - 56320))%N))
                       (unescape t'')
                else None
              | None => None
              end
            | _ => None
            end
          else if ((56320 <=? u) && (u <=? 57343))%N then None
          else option_map (app (utf8 u)) (unescape t')
        end
      | e :: t' =>
        match simple_escape e with
        | Some c => option_map (cons c) (unescape t')
        | None => None
        end
      | [] => None
      end
    else if (n =? 34)%nat || (n <? 32)%nat then None
    else option_map (cons a) (unescape t)
  end.

Definition spaces (n : nat) : list ascii := repeat " "%char n.

(** The items of an array or object, each on its line. *)
Fixpoint join_lines (indent : nat) (items : list (list ascii)) : list ascii :=
  match items with
  | [] => []
  | x :: t =>
    match t with
    | [] => x
    | _ => x ++ ","%char :: newline :: spaces indent ++ join_lines indent t
    end
  end.

(** SerializeJSONProperty with a gap of two spaces, on a parsed value; a
    string or a number is written by its lexeme. *)
Fixpoint print_json (indent : nat) (j : json) : list ascii :=
  match j with
  | JNull => list_ascii_of_string "null"
  | JBool true => list_ascii_of_string "true"
  | JBool false => list_ascii_of_string "false"
  | JNumber lexeme => lexeme
  | JString lexeme => quote_char :: lexeme ++ [quote_char]
  | JArray [] => list_ascii_of_string "[]"
  | JArray elements =>
    "["%char :: newline :: spaces (indent + 2)
    ++ join_lines (indent + 2) (map (print_json (indent + 2)) elements)
    ++ newline :: spaces indent ++ ["]"%char]
  | JObject [] => list_ascii_of_string "{}"
  | JObject members =>
    "{"%char :: newline :: spaces (indent + 2)
    ++ join_lines (indent + 2)
         (map (fun member : list ascii * json =>
                 let (name, value) := member in
                 quote_char :: name ++ quote_char :: ":"%char :: " "%char
                 :: print_json (indent + 2) value)
              members)
    ++ newline :: spaces indent ++ ["}"%char]
  end.

(** A string as a JSON value. *)
Definition json_string (s : string) : json := JString (escape (list_ascii_of_string s)).

Definition channel_name (c : Channel) : string :=
  match c with
  | stable => "stable"
  | preview => "preview"
  end.

(** The objects that [main] builds, with their properties in the order of
    the object literals. *)
Definition info_json (info : VersionInfo) : json :=
  JObject [ (list_ascii_of_string "version", json_string (version info));
            (list_ascii_of_string "windows", json_string (windows info));
            (list_ascii_of_string "linux", json_string (linux info));
            (list_ascii_of_string "releasedAt", json_string (releasedAt info)) ].

Definition entry_json (e : HistoryEntry) : json :=
  JObject [ (list_ascii_of_string "type", json_string (channel_name (type e)));
            (list_ascii_of_string "version", json_string (h_version e));
            (list_ascii_of_string "windows", json_string (h_windows e));
            (list_ascii_of_string "linux", json_string (h_linux e));
            (list_ascii_of_string "releasedAt", json_string (h_releasedAt e)) ].

Definition to_json (d : VersionData) : json :=
  JObject [ (list_ascii_of_string "latest",
             JObject [ (list_ascii_of_string "stable", info_json (l_stable (latest d)));
                       (list_ascii_of_string "preview", info_json (l_preview (latest d))) ]);
            (list_ascii_of_string "history", JArray (map entry_json (history d))) ].

(** [JSON.stringify(versionData, null, 2) + '\n'] *)
Definition written_text (d : VersionData) : string :=
  string_of_list_ascii (print_json 0 (to_json d) ++ [newline]).

(** ** Reading the parsed file as [main] does

    [main] reads the value that [loadExistingData] returns at the type
    [VersionData | null].  The functions below say for which parsed values
    that reading is what JavaScript does, and for which the property chain
    of the comparison throws. *)

(** The member name [k], a lexeme, denotes [name]. *)
Definition key_is (name : string) (k : list ascii) : bool :=
  match unescape k with
  | Some u => String.eqb (string_of_list_ascii u) name
  | None => false
  end.

(** The property [name] of the object that [JSON.parse] built from
    [members]: the last member of that name; [None] is undefined. *)
Fixpoint get (name : string) (members : list (list ascii * json)) : option json :=
  match members with
  | [] => None
  | (k, v) :: t =>
    match get name t with
    | Some later => Some later
    | None => if key_is name k then Some v else None
    end
  end.

(** [value.name] for a value that is not null and a name that no prototype
    defines, as the names read by [main] are: undefined unless the value is
    an object with that member. *)
Definition get_prop (value : json) (name : string) : option json :=
  match value with
  | JObject members => get name members
  | _ => None
  end.

(** undefined or null *)
Definition nullish (v : option json) : bool :=
  match v with
  | None | Some JNull => true
  | Some _ => false
  end.

(** [existingData.latest.stable.version] or
    [existingData.latest.preview.version] throws a TypeError, for an
    [existingData] that is not null. *)
Definition property_chain_throws (existingData : json) : bool :=
  match get_prop existingData "latest" with
  | None | Some JNull => true
  | Some l => nullish (get_prop l "stable") || nullish (get_prop l "preview")
  end.

Definition as_string (v : option json) : option string :=
  match v with
  | Some (JString lexeme) => option_map string_of_list_ascii (unescape lexeme)
  | _ => None
  end.

(** A channel object of [latest]: its four properties, all strings. *)
Definition as_info (v : option json) : option VersionInfo :=
  match v with
  | Some o =>
    match as_string (get_prop o "version"), as_string (get_prop o "windows"),
          as_string (get_prop o "linux"), as_string (get_prop o "releasedAt") with
    | Some ver, Some win, Some lin, Some rel =>
      Some {| version := ver; windows := win; linux := lin; releasedAt := rel |}
    | _, _, _, _ => None
    end
  | None => None
  end.

Definition as_channel (s : string) : option Channel :=
  if String.eqb s "stable" then Some stable
  else if String.eqb s "preview" then Some preview
  else None.

(** A history entry.  The entries of the file are written back as the
    objects they are, so an entry is read only when it has exactly the five
    properties in the order in which [main] writes them. *)
Definition as_entry (v : json) : option HistoryEntry :=
  match v with
  | JObject [(k1, v1); (k2, v2); (k3, v3); (k4, v4); (k5, v5)] =>
    if key_is "type" k1 && key_is "version" k2 && key_is "windows" k3
       && key_is "linux" k4 && key_is "releasedAt" k5 then
      match as_string (Some v1), as_string (Some v2), as_string (Some v3),
            as_string (Some v4), as_string (Some v5) with
      | Some t, Some ver, Some win, Some lin, Some rel =>
        match as_channel t with
        | Some c =>
          Some {| type := c; h_version := ver; h_windows := win; h_linux := lin;
                  h_releasedAt := rel |}
        | None => None
        end
      | _, _, _, _, _ => None
      end
    else None
  | _ => None
  end.

Fixpoint as_entries (l : list json) : option (list HistoryEntry) :=
  match l with
  | [] => Some []
  | x :: t =>
    match as_entry x, as_entries t with
    | Some e, Some es => Some (e :: es)
    | _, _ => None
    end
  end.

(** [existingData?.history || []] *)
Definition as_history (v : option json) : option (list HistoryEntry) :=
  match v with
  | None | Some JNull | Some (JBool false) | Some (JString []) => Some []
  | Some (JArray elements) => as_entries elements
  | Some _ => None
  end.

Definition as_VersionData (v : json) : option VersionData :=
  match get_prop v "latest" with
  | Some l =>
    match as_info (get_prop l "stable"), as_info (get_prop l "preview"),
          as_history (get_prop v "history") with
    | Some s, Some p, Some h =>
      Some {| latest := {| l_stable := s; l_preview := p |}; history := h |}
    | _, _, _ => None
    end
  | None => None
  end.

(** What the loaded value is to [main]. *)
Inductive Existing : Type :=
| Absent                        (* falsy: [!existingData] *)
| Present (d : VersionData)     (* a value of the type *)
| TypeError                     (* the property chain throws *)
| Untyped.                      (* any other value: outside the model *)

Definition read_existing (loaded : json) : Existing :=
  match loaded with
  | JNull | JBool false | JString [] => Absent
  | JNumber _ => Untyped
  | _ =>
    if property_chain_throws loaded then TypeError
    else match as_VersionData loaded with
         | Some d => Present d
         | None => Untyped
         end
  end.

(** ** [setOutput] and [main] *)

(** [setOutput(name, value)]: the writes it asks [Bun.write] for, as path
    and text, and the line it logs.  The writes are not awaited. *)
Definition setOutput (githubOutput : option string) (name value : string)
  : list (string * string) * string :=
  (match githubOutput with
   | None | Some EmptyString => []
   | Some path => [(path, name ++ "=" ++ value ++ String newline EmptyString)]
   end,
   "::set-output name=" ++ name ++ "::" ++ value)%string.

(** [hasChanges ? 'true' : 'false'] *)
Definition bool_text (b : bool) : string := if b then "true" else "false".

(** The process: [process.argv[2]], [process.cwd()] and
    [process.env.GITHUB_OUTPUT]. *)
Record Process : Type := mkProcess {
  argv2 : option string;
  cwd : string;
  GITHUB_OUTPUT : option string
}.

(** What a run leaves: the exit code, the lines of [console.log], the file
    system, and the writes asked of [Bun.write] in the order of the
    calls.  [console.warn] and [console.error] are not recorded. *)
Record Run : Type := mkRun {
  exitCode : Z;
  stdout : list string;
  files : FileSystem;
  bunWrites : list (string * string)
}.

(** The lines that the comparison logs. *)
Definition comparison_log (fetched : Latest) (existingData : option VersionData)
  : list string :=
  match existingData with
  | None => ["No existing versions file found. Creating new one..."]
  | Some d =>
    (if channelChanged stable d fetched
     then [("Stable version changed: " ++ version (l_stable (latest d)) ++ " -> "
            ++ version (l_stable fetched))%string]
     else [])
    ++ (if channelChanged preview d fetched
        then [("Preview version changed: " ++ version (l_preview (latest d)) ++ " -> "
               ++ version (l_preview fetched))%string]
        else [])
    ++ (if channelChanged stable d fetched || channelChanged preview d fetched
        then [] else ["No version changes detected."])
  end.

(** The four calls of [setOutput] at the end of [main]. *)
Definition outputs (versionData : VersionData) (hasChanges : bool)
  : list (string * string) :=
  [ ("updated", bool_text hasChanges);
    ("stable-version", version (l_stable (latest versionData)));
    ("preview-version", version (l_preview (latest versionData)));
    ("has-changes", bool_text hasChanges) ].

Section Main.

(** [new Date(s).getTime()] *)
Variable getTime : string -> option Z.

(** [join] of the module [path]. *)
Variable join : string -> string -> string.

(** [await writeFile(path, text)]: the file system after the call and the
    error that it threw, if any. *)
Variable writeFile : FileSystem -> string -> string -> FileSystem * option string.

(** [main().catch(...)] after an error: exit code 1. *)
Definition failed (out : list string) (fs : FileSystem) : Run :=
  {| exitCode := 1; stdout := out; files := fs; bunWrites := [] |}.

(** [outputPath] *)
Definition output_path (process : Process) : string :=
  join (cwd process) (js_or_default (argv2 process) "versions.json").

(** [main] from the comparison to its end, for an [existingData] of its
    type; [out1] is what was logged before. *)
Definition compare_and_write (process : Process) (fetched : Latest)
    (out1 : list string) (fs : FileSystem) (existingData : option VersionData) : Run :=
  let result := reconcile getTime fetched existingData in
  let versionData := fst result in
  let hasChanges := snd result in
  let out2 := out1 ++ comparison_log fetched existingData in
  let written := writeFile fs (output_path process) (written_text versionData) in
  match snd written with
  | Some _ => failed out2 (fst written)
  | None =>
    let calls := map (fun nv => setOutput (GITHUB_OUTPUT process) (fst nv) (snd nv))
                     (outputs versionData hasChanges) in
    {| exitCode := 0;
       stdout := out2 ++ [("Versions written to " ++ output_path process)%string]
                 ++ map snd calls;
       files := fst written;
       bunWrites := flat_map fst calls |}
  end.

(** What [main] has logged when it loads the file. *)
Definition fetch_log (fetched : Latest) : list string :=
  [ "Fetching Minecraft Bedrock versions from official API...";
    ("Stable version: " ++ version (l_stable fetched))%string;
    ("Preview version: " ++ version (l_preview fetched))%string ].

(** [main], given the process, what [fetch] answered or threw, the clock
    and the file system; [None] where the file holds a value that takes
    [main] outside its types. *)
Definition main (process : Process) (api : outcome Response) (now : string)
    (fs : FileSystem) : option Run :=
  match bind api (fun response => fetchLatestVersions response now) with
  | Thrown _ => Some (failed ["Fetching Minecraft Bedrock versions from official API..."] fs)
  | Returned fetched =>
    match loadExistingData fs (output_path process) with
    | Thrown _ => Some (failed (fetch_log fetched) fs)
    | Returned loaded =>
      match read_existing loaded with
      | Absent => Some (compare_and_write process fetched (fetch_log fetched) fs None)
      | Present d => Some (compare_and_write process fetched (fetch_log fetched) fs (Some d))
      | TypeError => Some (failed (fetch_log fetched) fs)
      | Untyped => None
      end
    end
  end.

End Main.

(** [JSON.stringify(newVersions, null, 2) + '\n'] of the earlier revision. *)
Definition previous_info_json (info : Previous.ChannelInfo) : json :=
  JObject [ (list_ascii_of_string "version", json_string (Previous.p_version info));
            (list_ascii_of_string "windows", json_string (Previous.p_windows info));
            (list_ascii_of_string "linux", json_string (Previous.p_linux info));
            (list_ascii_of_string "updatedAt", json_string (Previous.updatedAt info)) ].

Definition previous_to_json (v : Previous.Versions) : json :=
  JObject [ (list_ascii_of_string "stable", previous_info_json (Previous.p_stable v));
            (list_ascii_of_string "preview", previous_info_json (Previous.p_preview v)) ].

Definition previous_written_text (v : Previous.Versions) : string :=
  string_of_list_ascii (print_json 0 (previous_to_json v) ++ [newline]).

(** ** A sample process *)

(** [join] for a directory and a plain file name. *)
Definition posix_join (dir file : string) : string := (dir ++ "/" ++ file)%string.

(** A [writeFile] that always succeeds. *)
Definition overwrite (fs : FileSystem) (path text : string) : FileSystem * option string :=
  ((path, File text) :: filter (fun binding => negb (String.eqb (fst binding) path)) fs,
   None).

Definition runner : Process :=
  {| argv2 := None; cwd := "/repo"; GITHUB_OUTPUT := Some "/tmp/github_output" |}.

(** The API offers stable [sv] and preview [pv]. *)
Definition api_offers (sv pv : string) : Response :=
  {| ok := true; statusText := "OK"; links := links_for sv pv |}.

Definition unavailable : Response :=
  {| ok := false; statusText := "Service Unavailable"; links := [] |}.

(** The run of [runner] on an empty repository. *)
Definition first_run : Run :=
  match main isoTime posix_join overwrite runner
          (Returned (api_offers "1.21.120.0" "1.21.130.28")) day1 [] with
  | Some run => run
  | None => failed [] []
  end.

(** The next run of [runner], a week later: stable has moved on. *)
Definition second_run : Run :=
  match main isoTime posix_join overwrite runner
          (Returned (api_offers "1.21.124.2" "1.21.130.28")) day2 (files first_run) with
  | Some run => run
  | None => failed [] []
  end.

(** A repository whose versions file was written by the earlier revision. *)
Definition previous_sample : Previous.Versions :=
  Previous.fetched_versions (links_for "1.21.120.0" "1.21.130.28") day1.

Definition previous_fs : FileSystem :=
  [ ("/repo/versions.json", File (previous_written_text previous_sample)) ].

(** A bound on the fuel that parsing a printed value takes. *)
Fixpoint json_size (j : json) : nat :=
  match j with
  | JArray elements => S (list_sum (map (fun x => S (json_size x)) elements))
  | JObject members =>
    S (list_sum (map (fun member : list ascii * json =>
                        let (_, value) := member in S (json_size value))
                     members))
  | _ => 1
  end.

(** [lexeme] is read back as one string lexeme, up to the closing quote. *)
Definition valid_lexeme (lexeme : list ascii) : Prop :=
  forall rest, scan_string (lexeme ++ quote_char :: rest) = Some (lexeme, rest).

(** The values made of null, booleans, strings, arrays and objects, whose
    strings and member names are lexemes. *)
#[warnings="-register-all"]
Inductive printable : json -> Prop :=
| printable_null : printable JNull
| printable_bool (b : bool) : printable (JBool b)
| printable_string (lexeme : list ascii) :
    valid_lexeme lexeme -> printable (JString lexeme)
| printable_array (elements : list json) :
    Forall printable elements -> printable (JArray elements)
| printable_object (members : list (list ascii * json)) :
    Forall (fun member => valid_lexeme (fst member) /\ printable (snd member)) members ->
    printable (JObject members).

(** Parsing the printed value gives the value back and stops after it. *)
Definition parses_back (x : json) : Prop :=
  forall indent rest fuel,
    json_size x <= fuel -> parse_value fuel (print_json indent x ++ rest) = Some (x, rest).

(** * Properties *)

(** ** Examples *)

Example extractVersion_linux :
  extractVersion
    "https://www.minecraft.net/bedrockdedicatedserver/bin-linux/bedrock-server-1.21.124.2.zip"
  = Some "1.21.124.2".
Proof. vm_compute. reflexivity. Qed.

Example extractVersion_three : extractVersion "x/bedrock-server-1.21.3.zip" = Some "1.21.3".
Proof. vm_compute. reflexivity. Qed.

Example extractVersion_two : extractVersion "x/bedrock-server-1.21.zip" = None.
Proof. vm_compute. reflexivity. Qed.

Example extractVersion_five : extractVersion "bedrock-server-1.2.3.4.5.zip" = None.
Proof. vm_compute. reflexivity. Qed.

Example JSON_parse_object :
  JSON_parse ("{ " ++ quoted "a" ++ " : [1, -2.5e-3, " ++ quoted "x\n" ++ "], "
              ++ quoted "b" ++ ": null } ")%string
  = Returned (JObject [(list_ascii_of_string "a",
                        JArray [JNumber (list_ascii_of_string "1");
                                JNumber (list_ascii_of_string "-2.5e-3");
                                JString (list_ascii_of_string "x\n")]);
                       (list_ascii_of_string "b", JNull)]).
Proof. vm_compute. reflexivity. Qed.

Example JSON_parse_truncated :
  JSON_parse ("{ " ++ quoted "latest" ++ ": {")%string
  = Thrown "SyntaxError: JSON Parse error".
Proof. vm_compute. reflexivity. Qed.

Example JSON_parse_leading_zero : JSON_parse "[01]" = Thrown "SyntaxError: JSON Parse error".
Proof. vm_compute. reflexivity. Qed.

Example JSON_parse_trailing :
  JSON_parse "[] x" = Thrown "SyntaxError: Unexpected non-whitespace character after JSON".
Proof. vm_compute. reflexivity. Qed.

Example isoTime_epoch : isoTime "1970-01-01T00:00:00.000Z" = Some 0%Z.
Proof. vm_compute. reflexivity. Qed.

Example isoTime_2025 : isoTime "2025-11-21T00:00:00.000Z" = Some 1763683200000%Z.
Proof. vm_compute. reflexivity. Qed.

Example isoTime_invalid : isoTime "yesterday" = None.
Proof. vm_compute. reflexivity. Qed.

(** ** Keys of history entries *)

Lemma Channel_eqb_eq (a b : Channel) : Channel_eqb a b = true <-> a = b.
Proof. destruct a, b; simpl; split; congruence. Qed.

Lemma same_key_iff (entry e : HistoryEntry) :
  same_key entry e = true <-> key e = key entry.
Proof.
  unfold same_key, key.
  rewrite andb_true_iff, Channel_eqb_eq, String.eqb_eq.
  split.
  - intros [Ht Hv]. now rewrite Ht, Hv.
  - intros H. now inversion H.
Qed.

Lemma same_key_refl (e : HistoryEntry) : same_key e e = true.
Proof. now apply same_key_iff. Qed.

Lemma same_key_sym (a b : HistoryEntry) : same_key a b = same_key b a.
Proof.
  destruct (same_key a b) eqn:Hab, (same_key b a) eqn:Hba; trivial.
  - apply same_key_iff in Hab. symmetry in Hab.
    apply same_key_iff in Hab. congruence.
  - apply same_key_iff in Hba. symmetry in Hba.
    apply same_key_iff in Hba. congruence.
Qed.

Lemma same_key_false_iff (entry e : HistoryEntry) :
  same_key entry e = false <-> key e <> key entry.
Proof.
  rewrite <- same_key_iff. destruct (same_key entry e); split; congruence.
Qed.

(** ** [findIndex] and the deduplicating [filter] *)

Lemma findIndex_from_none {A : Type} (p : A -> bool) (l : list A) (i : Z) :
  (forall x, In x l -> p x = false) -> findIndex_from p i l = (-1)%Z.
Proof.
  revert i. induction l as [|x t IH]; intros i Hall; simpl.
  - reflexivity.
  - rewrite (Hall x) by now left.
    apply IH. intros y Hy. apply Hall. now right.
Qed.

Lemma findIndex_from_first {A : Type} (p : A -> bool) (l1 l2 : list A) (x : A) (i : Z) :
  (forall y, In y l1 -> p y = false) -> p x = true ->
  findIndex_from p i (l1 ++ x :: l2) = (i + Z.of_nat (List.length l1))%Z.
Proof.
  revert i. induction l1 as [|y t IH]; intros i Hall Hx; simpl.
  - rewrite Hx. lia.
  - rewrite (Hall y) by now left.
    rewrite IH; [lia | | assumption].
    intros z Hz. apply Hall. now right.
Qed.

Lemma findIndex_from_within {A : Type} (p : A -> bool) (l1 l2 : list A) (i : Z) :
  existsb p l1 = true ->
  (i <= findIndex_from p i (l1 ++ l2) < i + Z.of_nat (List.length l1))%Z.
Proof.
  revert i. induction l1 as [|y t IH]; intros i Hex; simpl in *.
  - discriminate.
  - destruct (p y) eqn:Hy.
    + lia.
    + simpl in Hex. specialize (IH (i + 1)%Z Hex). lia.
Qed.

Lemma filter_from_first_occurrences (l seen : list HistoryEntry) :
  filter_from (fun entry index self => (index =? findIndex (same_key entry) self)%Z)
    (seen ++ l) (Z.of_nat (List.length seen)) l
  = first_occurrences seen l.
Proof.
  revert seen. induction l as [|x t IH]; intros seen; simpl.
  - reflexivity.
  - assert (Hnext : filter_from
              (fun entry index self => (index =? findIndex (same_key entry) self)%Z)
              (seen ++ x :: t) (Z.of_nat (List.length seen) + 1) t
            = first_occurrences (seen ++ [x]) t).
    { rewrite <- IH. rewrite <- app_assoc. simpl.
      rewrite length_app. simpl. f_equal. lia. }
    rewrite Hnext. unfold findIndex.
    destruct (existsb (same_key x) seen) eqn:Hex.
    + pose proof (findIndex_from_within (same_key x) seen (x :: t) 0 Hex) as Hw.
      destruct (Z.eqb_spec (Z.of_nat (List.length seen))
                  (findIndex_from (same_key x) 0 (seen ++ x :: t))); [lia | reflexivity].
    + rewrite findIndex_from_first.
      * simpl. now rewrite Z.eqb_refl.
      * intros y Hy. destruct (same_key x y) eqn:Hxy; trivial.
        assert (existsb (same_key x) seen = true) by (apply existsb_exists; eauto).
        congruence.
      * apply same_key_refl.
Qed.

Lemma uniqueHistory_of_first_occurrences (l : list HistoryEntry) :
  uniqueHistory_of l = first_occurrences [] l.
Proof.
  unfold uniqueHistory_of, Array_filter.
  exact (filter_from_first_occurrences l []).
Qed.

Lemma first_occurrences_In (l seen : list HistoryEntry) (e : HistoryEntry) :
  In e (first_occurrences seen l) <->
  exists l1 l2, l = l1 ++ e :: l2 /\ existsb (same_key e) (seen ++ l1) = false.
Proof.
  revert seen. induction l as [|x t IH]; intros seen; simpl.
  - split; [intros [] | intros (l1 & l2 & H & _); now destruct l1].
  - assert (Htail : In e (first_occurrences (seen ++ [x]) t) <->
                    exists l1 l2, x :: t = (x :: l1) ++ e :: l2
                                  /\ existsb (same_key e) (seen ++ x :: l1) = false).
    { rewrite IH. split; intros (l1 & l2 & H1 & H2); exists l1, l2.
      - split; [simpl; now rewrite H1 |]. now rewrite <- app_assoc in H2.
      - split; [simpl in H1; congruence |]. now rewrite <- app_assoc. }
    split.
    + intros Hin.
      assert (Hcases : (x = e /\ existsb (same_key x) seen = false)
                       \/ In e (first_occurrences (seen ++ [x]) t)).
      { destruct (existsb (same_key x) seen); simpl in Hin; intuition. }
      destruct Hcases as [[-> Hs] | Hin'].
      * exists [], t. split; [reflexivity |]. now rewrite app_nil_r.
      * apply Htail in Hin'. destruct Hin' as (l1 & l2 & H1 & H2).
        exists (x :: l1), l2. now split.
    + intros (l1 & l2 & H1 & H2).
      destruct l1 as [|y l1]; simpl in H1; inversion H1; subst.
      * rewrite app_nil_r in H2. rewrite H2. now left.
      * assert (In e (first_occurrences (seen ++ [y]) (l1 ++ e :: l2))).
        { apply Htail. exists l1, l2. now split. }
        destruct (existsb (same_key y) seen); [assumption | now right].
Qed.

Lemma find_first_iff {A : Type} (p : A -> bool) (l : list A) (e : A) :
  find p l = Some e <->
  exists l1 l2, l = l1 ++ e :: l2 /\ p e = true /\ existsb p l1 = false.
Proof.
  induction l as [|x t IH]; simpl.
  - split; [discriminate | intros (l1 & l2 & H & _); now destruct l1].
  - destruct (p x) eqn:Hx.
    + split.
      * intros [= ->]. exists [], t. auto.
      * intros (l1 & l2 & H1 & H2 & H3).
        destruct l1 as [|y l1]; simpl in *; inversion H1; subst; trivial.
        rewrite Hx in H3. discriminate.
    + rewrite IH. split.
      * intros (l1 & l2 & H1 & H2 & H3). exists (x :: l1), l2. simpl.
        rewrite Hx, H1. auto.
      * intros (l1 & l2 & H1 & H2 & H3).
        destruct l1 as [|y l1]; simpl in *; inversion H1; subst.
        -- congruence.
        -- rewrite Hx in H3. exists l1, l2. auto.
Qed.

(** An entry survives the deduplication exactly when it is the first entry
    of its key. *)
Lemma uniqueHistory_of_In (l : list HistoryEntry) (e : HistoryEntry) :
  In e (uniqueHistory_of l) <-> find (same_key e) l = Some e.
Proof.
  rewrite uniqueHistory_of_first_occurrences, first_occurrences_In, find_first_iff.
  split; intros (l1 & l2 & H); exists l1, l2; simpl in *;
    intuition auto using same_key_refl.
Qed.

Lemma first_occurrences_keys (l seen : list HistoryEntry) :
  NoDup (map key (first_occurrences seen l))
  /\ forall e, In e (first_occurrences seen l) -> existsb (same_key e) seen = false.
Proof.
  revert seen. induction l as [|x t IH]; intros seen; simpl.
  - split; [constructor | intros e []].
  - destruct (IH (seen ++ [x])) as [Hnd Hseen].
    assert (Hweak : forall e, In e (first_occurrences (seen ++ [x]) t) ->
                              existsb (same_key e) seen = false /\ same_key e x = false).
    { intros e He. specialize (Hseen e He).
      rewrite existsb_app in Hseen. simpl in Hseen.
      apply orb_false_iff in Hseen. destruct Hseen as [H1 H2].
      now rewrite orb_false_r in H2. }
    destruct (existsb (same_key x) seen) eqn:Hx.
    + split; [assumption |]. intros e He. now apply Hweak.
    + split.
      * simpl. constructor; [| assumption].
        intros Hin. apply in_map_iff in Hin. destruct Hin as (e & Hk & He).
        apply Hweak in He. destruct He as [_ He].
        apply same_key_false_iff in He. congruence.
      * intros e [<- | He]; [assumption | now apply Hweak].
Qed.

Lemma uniqueHistory_of_NoDup (l : list HistoryEntry) :
  NoDup (map key (uniqueHistory_of l)).
Proof.
  rewrite uniqueHistory_of_first_occurrences. apply first_occurrences_keys.
Qed.

Lemma first_occurrences_id (l seen : list HistoryEntry) :
  NoDup (map key (seen ++ l)) -> first_occurrences seen l = l.
Proof.
  revert seen. induction l as [|x t IH]; intros seen Hnd; simpl.
  - reflexivity.
  - assert (Hx : existsb (same_key x) seen = false).
    { destruct (existsb (same_key x) seen) eqn:Hex; trivial.
      apply existsb_exists in Hex. destruct Hex as (y & Hy & Hk).
      apply same_key_iff in Hk.
      rewrite map_app in Hnd. simpl in Hnd.
      apply NoDup_remove_2 in Hnd. exfalso. apply Hnd.
      apply in_or_app. left. rewrite <- Hk. now apply in_map. }
    rewrite Hx. f_equal. apply IH.
    now rewrite <- app_assoc.
Qed.

Lemma uniqueHistory_of_id (l : list HistoryEntry) :
  NoDup (map key l) -> uniqueHistory_of l = l.
Proof.
  intros H. rewrite uniqueHistory_of_first_occurrences. now apply first_occurrences_id.
Qed.

(** ** [Array.prototype.sort] *)

Section SortFacts.

Context {A : Type} (comparefn : A -> A -> option Z).

Lemma sort_insert_perm (x : A) (l : list A) :
  Permutation (sort_insert comparefn x l) (x :: l).
Proof.
  induction l as [|y t IH]; simpl.
  - apply Permutation_refl.
  - destruct (SortCompare comparefn x y <=? 0)%Z.
    + apply Permutation_refl.
    + eapply Permutation_trans; [apply perm_skip, IH | apply perm_swap].
Qed.

Lemma Array_sort_perm (l : list A) : Permutation (Array_sort comparefn l) l.
Proof.
  induction l as [|x t IH]; simpl.
  - apply Permutation_refl.
  - eapply Permutation_trans; [apply sort_insert_perm | now apply perm_skip].
Qed.

Lemma Array_sort_In (l : list A) (x : A) : In x (Array_sort comparefn l) <-> In x l.
Proof.
  split; apply Permutation_in;
    [apply Array_sort_perm | apply Permutation_sym, Array_sort_perm].
Qed.

Lemma sort_insert_in_order (x : A) (l : list A) :
  HdRel (in_order comparefn) x l -> sort_insert comparefn x l = x :: l.
Proof.
  intros H. destruct l as [|y t]; simpl; trivial.
  inversion H as [|? ? Hxy]; subst. unfold in_order in Hxy.
  destruct (Z.leb_spec (SortCompare comparefn x y) 0); [reflexivity | lia].
Qed.

(** A sorted array is left as it is. *)
Lemma Array_sort_id (l : list A) :
  Sorted (in_order comparefn) l -> Array_sort comparefn l = l.
Proof.
  induction 1 as [|x t Hs IH Hhd]; simpl.
  - reflexivity.
  - rewrite IH. now apply sort_insert_in_order.
Qed.

(** Stability: elements that the comparator never puts out of order keep
    their places relative to each other. *)
Lemma sort_insert_filter (p : A -> bool) (x : A) (l : list A) :
  (forall a b, p a = true -> p b = true -> in_order comparefn a b) ->
  filter p (sort_insert comparefn x l) = filter p (x :: l).
Proof.
  intros Hp. induction l as [|y t IH]; simpl.
  - reflexivity.
  - destruct (Z.leb_spec (SortCompare comparefn x y) 0) as [Hle | Hgt]; simpl.
    + reflexivity.
    + rewrite IH. simpl.
      destruct (p x) eqn:Hx, (p y) eqn:Hy; trivial.
      specialize (Hp x y Hx Hy). unfold in_order in Hp. lia.
Qed.

Lemma Array_sort_filter (p : A -> bool) (l : list A) :
  (forall a b, p a = true -> p b = true -> in_order comparefn a b) ->
  filter p (Array_sort comparefn l) = filter p l.
Proof.
  intros Hp. induction l as [|x t IH]; simpl.
  - reflexivity.
  - rewrite sort_insert_filter by assumption. simpl. now rewrite IH.
Qed.

(** The comparator of [main] never says of two elements that each comes
    after the other. *)
Hypothesis comparefn_asym :
  forall x y, (0 < SortCompare comparefn x y)%Z -> in_order comparefn y x.

Lemma sort_insert_Sorted (x : A) (l : list A) :
  Sorted (in_order comparefn) l ->
  Sorted (in_order comparefn) (sort_insert comparefn x l).
Proof.
  induction 1 as [|y t Hs IH Hhd]; simpl.
  - repeat constructor.
  - destruct (Z.leb_spec (SortCompare comparefn x y) 0) as [Hle | Hgt].
    + repeat constructor; assumption.
    + constructor; [assumption |].
      destruct t as [|z t]; simpl in *.
      * constructor. now apply comparefn_asym.
      * destruct (SortCompare comparefn x z <=? 0)%Z.
        -- constructor. now apply comparefn_asym.
        -- constructor. now inversion Hhd.
Qed.

Lemma Array_sort_Sorted (l : list A) :
  Sorted (in_order comparefn) (Array_sort comparefn l).
Proof.
  induction l as [|x t IH]; simpl.
  - constructor.
  - now apply sort_insert_Sorted.
Qed.

(** Sorting twice is sorting once. *)
Lemma Array_sort_idempotent (l : list A) :
  Array_sort comparefn (Array_sort comparefn l) = Array_sort comparefn l.
Proof. apply Array_sort_id, Array_sort_Sorted. Qed.

End SortFacts.

(** ** The comparison step *)

Lemma newHistory_compare_step (fetched : Latest) (d : VersionData) :
  newHistory (compare_step fetched (Some d)) = history d ++ pushed fetched d.
Proof.
  unfold compare_step, pushed, preview_step, stable_step.
  destruct (channelChanged stable d fetched), (channelChanged preview d fetched);
    simpl; rewrite <- ?app_assoc, ?app_nil_r; reflexivity.
Qed.

Lemma hasChanges_compare_step (fetched : Latest) (d : VersionData) :
  hasChanges (compare_step fetched (Some d))
  = channelChanged stable d fetched || channelChanged preview d fetched.
Proof.
  unfold compare_step, preview_step, stable_step.
  destruct (channelChanged stable d fetched), (channelChanged preview d fetched);
    reflexivity.
Qed.

Lemma latestVersions_compare_step (c : Channel) (fetched : Latest) (d : VersionData) :
  channel_info c (latestVersions (compare_step fetched (Some d)))
  = if channelChanged c d fetched then channel_info c fetched
    else set_releasedAt (channel_info c fetched)
           (releasedAt (channel_info c (latest d))).
Proof.
  unfold compare_step, preview_step, stable_step.
  destruct c, (channelChanged stable d fetched), (channelChanged preview d fetched);
    reflexivity.
Qed.

Lemma pushed_type (c : Channel) (fetched : Latest) (d : VersionData) (e : HistoryEntry) :
  In e (pushed fetched d) -> type e = c ->
  channelChanged c d fetched = true /\ e = old_entry c (channel_info c (latest d)).
Proof.
  unfold pushed. intros Hin Ht.
  apply in_app_or in Hin. destruct Hin as [Hin | Hin].
  - destruct (channelChanged stable d fetched) eqn:Hs; simpl in Hin; [| contradiction].
    destruct Hin as [<- | []]. simpl in Ht. subst c. now split.
  - destruct (channelChanged preview d fetched) eqn:Hp; simpl in Hin; [| contradiction].
    destruct Hin as [<- | []]. simpl in Ht. subst c. now split.
Qed.

Lemma pushed_changed (c : Channel) (fetched : Latest) (d : VersionData) :
  channelChanged c d fetched = true ->
  In (old_entry c (channel_info c (latest d))) (pushed fetched d).
Proof.
  unfold pushed. intros H. apply in_or_app.
  destruct c; simpl; rewrite H; [left | right]; now left.
Qed.

Lemma Latest_eq (a b : Latest) :
  l_stable a = l_stable b -> l_preview a = l_preview b -> a = b.
Proof. destruct a, b; simpl; congruence. Qed.

Section ReconcilerFacts.

Variable getTime : string -> option Z.

Lemma compareFn_asym (x y : HistoryEntry) :
  (0 < SortCompare (compareFn getTime) x y)%Z -> in_order (compareFn getTime) y x.
Proof.
  unfold in_order, SortCompare, compareFn.
  destruct (getTime (h_releasedAt x)), (getTime (h_releasedAt y)); lia.
Qed.

Lemma merge_history_perm (h : list HistoryEntry) :
  Permutation (merge_history getTime h) (uniqueHistory_of h).
Proof. apply Array_sort_perm. Qed.

Lemma merge_history_In (h : list HistoryEntry) (e : HistoryEntry) :
  In e (merge_history getTime h) <-> find (same_key e) h = Some e.
Proof.
  unfold merge_history. rewrite Array_sort_In. apply uniqueHistory_of_In.
Qed.

Lemma merge_history_NoDup (h : list HistoryEntry) :
  NoDup (map key (merge_history getTime h)).
Proof.
  eapply Permutation_NoDup; [| apply uniqueHistory_of_NoDup].
  apply Permutation_map, Permutation_sym, merge_history_perm.
Qed.

(** Merging a merged history changes nothing. *)
Lemma merge_history_idempotent (h : list HistoryEntry) :
  merge_history getTime (merge_history getTime h) = merge_history getTime h.
Proof.
  unfold merge_history at 1.
  rewrite uniqueHistory_of_id by apply merge_history_NoDup.
  unfold merge_history. apply Array_sort_idempotent. exact compareFn_asym.
Qed.

(** C3. The change flag: true when there is no prior state, and otherwise
    true exactly when the stable identifiers differ as strings or the
    preview identifiers differ as strings; each channel is compared on its
    own, by string equality only. *)
Theorem changed_flag (fetched : Latest) (prior : option VersionData) :
  snd (reconcile getTime fetched prior)
  = match prior with
    | None => true
    | Some d =>
      negb (String.eqb (version (l_stable (latest d))) (version (l_stable fetched)))
      || negb (String.eqb (version (l_preview (latest d))) (version (l_preview fetched)))
    end.
Proof.
  unfold reconcile. simpl. destruct prior as [d|]; [| reflexivity].
  apply hasChanges_compare_step.
Qed.

(** C2. Bootstrap: with no prior state the run reports a change, the latest
    entries are the fetched descriptors, each with the timestamp "now" that
    the fetch gave it, and the history is the empty sequence. *)
Theorem bootstrap (links : list DownloadLink) (now : string) (fetched : Latest) :
  reconcile getTime fetched None = ({| latest := fetched; history := [] |}, true)
  /\ reconcile getTime (fetched_versions links now) None
     = ({| latest := fetched_versions links now; history := [] |}, true)
  /\ releasedAt (l_stable (fetched_versions links now)) = now
  /\ releasedAt (l_preview (fetched_versions links now)) = now.
Proof. repeat split. Qed.

Lemma same_key_ext (a b : HistoryEntry) :
  key a = key b -> forall y, same_key a y = same_key b y.
Proof.
  intros Hk y. destruct (same_key b y) eqn:Hb.
  - apply same_key_iff. apply same_key_iff in Hb. congruence.
  - apply same_key_false_iff. apply same_key_false_iff in Hb. congruence.
Qed.

Lemma find_ext_eq {A : Type} (p q : A -> bool) (l : list A) :
  (forall y, p y = q y) -> find p l = find q l.
Proof.
  intros H. induction l as [|x t IH]; simpl; [reflexivity |].
  rewrite H, IH. reflexivity.
Qed.

Lemma find_app_some {A : Type} (p : A -> bool) (l1 l2 : list A) (x : A) :
  find p l1 = Some x -> find p (l1 ++ l2) = Some x.
Proof.
  induction l1 as [|y t IH]; simpl; [discriminate |].
  destruct (p y); auto.
Qed.

Lemma find_app_none {A : Type} (p : A -> bool) (l1 l2 : list A) :
  find p l1 = None -> find p (l1 ++ l2) = find p l2.
Proof.
  induction l1 as [|y t IH]; simpl; [reflexivity |].
  destruct (p y); [discriminate | auto].
Qed.

Lemma find_same_key (e e0 : HistoryEntry) (l : list HistoryEntry) :
  find (same_key e) l = Some e0 -> find (same_key e0) l = Some e0.
Proof.
  intros H. rewrite <- H. apply find_ext_eq. apply same_key_ext.
  apply find_some in H. destruct H as [_ H]. now apply same_key_iff in H.
Qed.

(** In the pushed entries, the entry of a changed channel is the first of
    its key. *)
Lemma find_pushed (c : Channel) (fetched : Latest) (d : VersionData) :
  channelChanged c d fetched = true ->
  find (same_key (old_entry c (channel_info c (latest d)))) (pushed fetched d)
  = Some (old_entry c (channel_info c (latest d))).
Proof.
  intros H. unfold pushed.
  destruct c; simpl.
  - rewrite H. simpl. unfold same_key at 1. simpl. now rewrite String.eqb_refl.
  - rewrite H. destruct (channelChanged stable d fetched); simpl.
    + unfold same_key. simpl. now rewrite String.eqb_refl.
    + unfold same_key. simpl. now rewrite String.eqb_refl.
Qed.

(** C4, as the code has it. When a channel's fetched identifier differs from
    the prior one, the next latest entry of the channel is the fetched
    descriptor with its timestamp "now", and the next history has an entry
    for (channel, prior identifier): the entry that the prior history
    already records for that key when there is one, and otherwise the prior
    descriptor with its locators and its own timestamp. *)
Theorem changed_channel_recorded (c : Channel) (fetched : Latest) (d : VersionData) :
  channelChanged c d fetched = true ->
  channel_info c (latest (fst (reconcile getTime fetched (Some d))))
  = channel_info c fetched
  /\ In (match find (same_key (old_entry c (channel_info c (latest d)))) (history d) with
         | Some recorded => recorded
         | None => old_entry c (channel_info c (latest d))
         end)
        (history (fst (reconcile getTime fetched (Some d)))).
Proof.
  intros Hc. unfold reconcile. cbn [fst snd latest history]. split.
  - now rewrite latestVersions_compare_step, Hc.
  - apply merge_history_In. rewrite newHistory_compare_step.
    destruct (find (same_key (old_entry c (channel_info c (latest d)))) (history d))
      as [recorded|] eqn:Hf.
    + apply find_app_some. eapply find_same_key. exact Hf.
    + rewrite find_app_none by assumption. now apply find_pushed.
Qed.

(** C5. When a channel's fetched identifier equals the prior one, the next
    latest entry of the channel is the fetched descriptor with the prior
    timestamp, not "now"; no entry of that channel is pushed, so every entry
    of that channel in the next history was in the prior history.  The other
    channel plays no part. *)
Theorem unchanged_channel_preserved (c : Channel) (fetched : Latest) (d : VersionData) :
  channelChanged c d fetched = false ->
  channel_info c (latest (fst (reconcile getTime fetched (Some d))))
  = set_releasedAt (channel_info c fetched) (releasedAt (channel_info c (latest d)))
  /\ releasedAt (channel_info c (latest (fst (reconcile getTime fetched (Some d)))))
     = releasedAt (channel_info c (latest d))
  /\ filter (fun e => Channel_eqb (type e) c) (newHistory (compare_step fetched (Some d)))
     = filter (fun e => Channel_eqb (type e) c) (history d)
  /\ forall e, In e (history (fst (reconcile getTime fetched (Some d)))) ->
               type e = c -> In e (history d).
Proof.
  intros Hc.
  assert (Hnone : forall e, In e (pushed fetched d) -> type e <> c).
  { intros e He Ht. destruct (pushed_type c fetched d e He Ht). congruence. }
  unfold reconcile. cbn [fst snd latest history]. repeat split.
  - now rewrite latestVersions_compare_step, Hc.
  - now rewrite latestVersions_compare_step, Hc.
  - rewrite newHistory_compare_step, filter_app.
    assert (Hf : filter (fun e => Channel_eqb (type e) c) (pushed fetched d) = []).
    { induction (pushed fetched d) as [|x t IH]; simpl; [reflexivity |].
      destruct (Channel_eqb (type x) c) eqn:Hx.
      - apply Channel_eqb_eq in Hx. exfalso. apply (Hnone x); [now left | assumption].
      - apply IH. intros e He. apply Hnone. now right. }
    rewrite Hf. apply app_nil_r.
  - intros e He Ht. apply merge_history_In in He.
    apply find_some in He. destruct He as [He _].
    rewrite newHistory_compare_step in He.
    apply in_app_or in He. destruct He as [He | He]; [assumption |].
    exfalso. now apply (Hnone e).
Qed.

Lemma no_same_key_before (e : HistoryEntry) (l : list HistoryEntry) :
  existsb (same_key e) l = false <-> ~ In (key e) (map key l).
Proof.
  induction l as [|x t IH]; cbn [existsb map In].
  - split; [intros _ [] | reflexivity].
  - rewrite orb_false_iff, IH. split.
    + intros [Hx Ht] [Hk | Hk]; [| now apply Ht].
      apply (same_key_iff e x) in Hk. congruence.
    + intros H. split.
      * destruct (same_key e x) eqn:Hx; [| reflexivity].
        exfalso. apply H. left. now apply (same_key_iff e x).
      * intros Hin. apply H. now right.
Qed.

(** C6. Uniqueness and first-wins: the written history has no two entries
    with the same (channel, identifier), and an entry is in it exactly when
    it stands in the sequence before the sort, which is the prior history
    followed by the pushed entries, at a place with no entry of its
    (channel, identifier) before it. *)
Theorem history_unique_first_wins (fetched : Latest) (prior : option VersionData) :
  NoDup (map key (history (fst (reconcile getTime fetched prior))))
  /\ (forall e, In e (history (fst (reconcile getTime fetched prior))) <->
                exists before after,
                  newHistory (compare_step fetched prior) = before ++ e :: after
                  /\ ~ In (key e) (map key before))
  /\ newHistory (compare_step fetched prior)
     = match prior with
       | Some d => history d ++ pushed fetched d
       | None => []
       end.
Proof.
  unfold reconcile. cbn [fst snd latest history].
  split; [apply merge_history_NoDup |]. split.
  - intros e. rewrite merge_history_In, find_first_iff.
    split; intros (before & after & H); exists before, after.
    + destruct H as (Hl & _ & Hb). split; [exact Hl |].
      now apply no_same_key_before.
    + destruct H as (Hl & Hb). split; [exact Hl |].
      split; [apply same_key_refl | now apply no_same_key_before].
  - destruct prior as [d|]; [apply newHistory_compare_step | reflexivity].
Qed.

Lemma find_unique (l : list HistoryEntry) (e : HistoryEntry) :
  NoDup (map key l) -> In e l -> find (same_key e) l = Some e.
Proof.
  induction l as [|x t IH]; simpl; intros Hnd Hin; [contradiction |].
  inversion Hnd as [|? ? Hx Ht]; subst.
  destruct Hin as [-> | Hin].
  - now rewrite same_key_refl.
  - destruct (same_key e x) eqn:Hk.
    + apply same_key_iff in Hk. exfalso. apply Hx. rewrite Hk. now apply in_map.
    + now apply IH.
Qed.

(** C10. A prior history that satisfies the uniqueness invariant is kept:
    each of its entries, and so each of its (channel, identifier) keys, is
    in the next history. *)
Theorem prior_history_kept (fetched : Latest) (d : VersionData) :
  NoDup (map key (history d)) ->
  (forall e, In e (history d) -> In e (history (fst (reconcile getTime fetched (Some d)))))
  /\ (forall k, In k (map key (history d)) ->
                In k (map key (history (fst (reconcile getTime fetched (Some d)))))).
Proof.
  intros Hnd.
  assert (Hkeep : forall e, In e (history d) ->
                    In e (history (fst (reconcile getTime fetched (Some d))))).
  { intros e He. unfold reconcile. cbn [fst snd latest history]. apply merge_history_In.
    rewrite newHistory_compare_step. apply find_app_some. now apply find_unique. }
  split; [assumption |].
  intros k Hk. apply in_map_iff in Hk. destruct Hk as (e & <- & He).
  apply in_map. now apply Hkeep.
Qed.

(** ** The order of the written history *)

Lemma valid_times_dated (l : list HistoryEntry) :
  valid_times getTime l = true <-> dated getTime l.
Proof.
  unfold valid_times, dated. rewrite forallb_forall, Forall_forall.
  split; intros H e He; specialize (H e He); unfold is_date in *;
    destruct (time_of getTime e); congruence.
Qed.

Lemma SortCompare_dates (x y : HistoryEntry) (tx ty : Z) :
  time_of getTime x = Some tx -> time_of getTime y = Some ty ->
  SortCompare (compareFn getTime) x y = (ty - tx)%Z.
Proof.
  unfold time_of, SortCompare, compareFn. intros -> ->. reflexivity.
Qed.

Lemma newer_first_trans (a b c : HistoryEntry) :
  newer_first getTime a b -> newer_first getTime b c -> newer_first getTime a c.
Proof.
  intros (ta & tb & Ha & Hb & Hab) (tb' & tc & Hb' & Hc & Hbc).
  exists ta, tc. repeat split; trivial.
  rewrite Hb in Hb'. inversion Hb'. lia.
Qed.

Lemma sort_insert_newest_first (x : HistoryEntry) (l : list HistoryEntry) :
  time_of getTime x <> None -> dated getTime l ->
  StronglySorted (newer_first getTime) l ->
  StronglySorted (newer_first getTime) (sort_insert (compareFn getTime) x l).
Proof.
  intros Hx Hv Hs. induction Hs as [|y t Hs IH Hy]; simpl.
  - repeat constructor.
  - inversion Hv as [|? ? Hvy Hvt]; subst.
    destruct (time_of getTime x) as [tx|] eqn:Htx; [| congruence].
    destruct (time_of getTime y) as [ty|] eqn:Hty; [| congruence].
    rewrite (SortCompare_dates x y tx ty Htx Hty).
    destruct (Z.leb_spec (ty - tx) 0) as [Hle | Hgt].
    + assert (Hxy : newer_first getTime x y)
        by (exists tx, ty; repeat split; trivial; lia).
      constructor; [now constructor |].
      constructor; [assumption |].
      eapply Forall_impl; [| exact Hy].
      intros z Hz. now apply (newer_first_trans x y z).
    + constructor; [now apply IH |].
      eapply Permutation_Forall;
        [apply Permutation_sym, sort_insert_perm |].
      constructor; [| assumption].
      exists ty, tx. repeat split; trivial. lia.
Qed.

Lemma Array_sort_newest_first (l : list HistoryEntry) :
  dated getTime l ->
  StronglySorted (newer_first getTime) (Array_sort (compareFn getTime) l).
Proof.
  induction 1 as [|x t Hx Ht IH]; simpl.
  - constructor.
  - apply sort_insert_newest_first; trivial.
    eapply Permutation_Forall; [apply Permutation_sym, Array_sort_perm | exact Ht].
Qed.

Lemma Array_sort_stable (t : Z) (l : list HistoryEntry) :
  filter (has_time getTime t) (Array_sort (compareFn getTime) l)
  = filter (has_time getTime t) l.
Proof.
  apply Array_sort_filter. intros a b Ha Hb.
  unfold has_time in Ha, Hb. unfold in_order.
  destruct (time_of getTime a) as [ta|] eqn:Hta; [| discriminate].
  destruct (time_of getTime b) as [tb|] eqn:Htb; [| discriminate].
  rewrite (SortCompare_dates a b ta tb Hta Htb).
  apply Z.eqb_eq in Ha, Hb. lia.
Qed.

Lemma has_time_self (e : HistoryEntry) (t : Z) :
  time_of getTime e = Some t -> has_time getTime t e = true.
Proof. unfold has_time. intros ->. apply Z.eqb_refl. Qed.

Lemma has_time_other (e : HistoryEntry) (t t' : Z) :
  time_of getTime e = Some t -> t <> t' -> has_time getTime t' e = false.
Proof. unfold has_time. intros -> H. now apply Z.eqb_neq. Qed.

Lemma head_is_newest (a : HistoryEntry) (l : list HistoryEntry) (e : HistoryEntry)
    (ta te : Z) :
  StronglySorted (newer_first getTime) (a :: l) ->
  time_of getTime a = Some ta -> time_of getTime e = Some te ->
  In e (a :: l) -> (te <= ta)%Z.
Proof.
  intros Hs Ha He [<- | Hin].
  - rewrite Ha in He. inversion He. lia.
  - apply StronglySorted_inv in Hs. destruct Hs as [_ Hall].
    rewrite Forall_forall in Hall. destruct (Hall e Hin) as (ta' & te' & H1 & H2 & H3).
    rewrite Ha in H1. rewrite He in H2. inversion H1. inversion H2. lia.
Qed.

(** Two arrays of dated entries that are both sorted newest first and list
    the entries of every instant in the same order are the same array: the
    result of a stable sort does not depend on the sorting algorithm. *)
Lemma sorted_stable_unique (l1 l2 : list HistoryEntry) :
  dated getTime l1 -> dated getTime l2 ->
  StronglySorted (newer_first getTime) l1 -> StronglySorted (newer_first getTime) l2 ->
  (forall t, filter (has_time getTime t) l1 = filter (has_time getTime t) l2) ->
  l1 = l2.
Proof.
  revert l2. induction l1 as [|a l1 IH]; intros l2 Hv1 Hv2 Hs1 Hs2 Hf.
  - destruct l2 as [|b l2]; trivial.
    inversion Hv2 as [|? ? Hb _]; subst.
    destruct (time_of getTime b) as [tb|] eqn:Htb; [| congruence].
    specialize (Hf tb). simpl in Hf. rewrite (has_time_self b tb Htb) in Hf.
    discriminate.
  - inversion Hv1 as [|? ? Ha Hv1']; subst.
    destruct (time_of getTime a) as [ta|] eqn:Hta; [| congruence].
    destruct l2 as [|b l2].
    { specialize (Hf ta). simpl in Hf. rewrite (has_time_self a ta Hta) in Hf.
      discriminate. }
    inversion Hv2 as [|? ? Hb Hv2']; subst.
    destruct (time_of getTime b) as [tb|] eqn:Htb; [| congruence].
    assert (Hab : ta = tb).
    { assert (Hina : In a (b :: l2)).
      { assert (Hin : In a (filter (has_time getTime ta) (a :: l1))).
        { apply filter_In. split; [now left | now apply has_time_self]. }
        rewrite Hf in Hin. now apply filter_In in Hin. }
      assert (Hinb : In b (a :: l1)).
      { assert (Hin : In b (filter (has_time getTime tb) (b :: l2))).
        { apply filter_In. split; [now left | now apply has_time_self]. }
        rewrite <- Hf in Hin. now apply filter_In in Hin. }
      pose proof (head_is_newest b l2 a tb ta Hs2 Htb Hta Hina).
      pose proof (head_is_newest a l1 b ta tb Hs1 Hta Htb Hinb).
      lia. }
    subst tb.
    assert (Hhead : a = b /\ forall t, filter (has_time getTime t) l1
                                        = filter (has_time getTime t) l2).
    { split.
      - specialize (Hf ta). simpl in Hf.
        rewrite (has_time_self a ta Hta), (has_time_self b ta Htb) in Hf.
        now inversion Hf.
      - intros t. specialize (Hf t). simpl in Hf.
        destruct (Z.eq_dec ta t) as [<- | Hne].
        + rewrite (has_time_self a ta Hta), (has_time_self b ta Htb) in Hf.
          now inversion Hf.
        + now rewrite (has_time_other a ta t Hta Hne),
            (has_time_other b ta t Htb Hne) in Hf. }
    destruct Hhead as [<- Htail]. f_equal.
    apply IH; trivial.
    + now apply StronglySorted_inv in Hs1.
    + now apply StronglySorted_inv in Hs2.
Qed.

(** Whatever array a stable sort by date returns for dated entries, the
    insertion sort of the model returns it too. *)
Lemma Array_sort_unique (l sorted : list HistoryEntry) :
  dated getTime l -> dated getTime sorted ->
  StronglySorted (newer_first getTime) sorted ->
  (forall t, filter (has_time getTime t) sorted = filter (has_time getTime t) l) ->
  sorted = Array_sort (compareFn getTime) l.
Proof.
  intros Hv Hvs Hs Hst. apply sorted_stable_unique; trivial.
  - eapply Permutation_Forall; [apply Permutation_sym, Array_sort_perm | exact Hv].
  - now apply Array_sort_newest_first.
  - intros t. now rewrite Array_sort_stable.
Qed.

(** C7. Sort order: when the timestamps of the deduplicated history are
    dates, the written history lists the same entries newest first, and the
    entries of one instant stand in the order the deduplicated sequence had
    them. *)
Theorem history_sorted_newest_first (fetched : Latest) (prior : option VersionData) :
  valid_times getTime (uniqueHistory_of (newHistory (compare_step fetched prior))) = true ->
  StronglySorted (newer_first getTime) (history (fst (reconcile getTime fetched prior)))
  /\ (forall t, filter (has_time getTime t) (history (fst (reconcile getTime fetched prior)))
                = filter (has_time getTime t)
                    (uniqueHistory_of (newHistory (compare_step fetched prior))))
  /\ Permutation (history (fst (reconcile getTime fetched prior)))
       (uniqueHistory_of (newHistory (compare_step fetched prior))).
Proof.
  intros Hv. apply valid_times_dated in Hv.
  unfold reconcile. cbn [fst history]. unfold merge_history.
  repeat split.
  - now apply Array_sort_newest_first.
  - intros t. apply Array_sort_stable.
  - apply Array_sort_perm.
Qed.

(** The rerun finds nothing changed. *)
Lemma rerun_unchanged (fetched : Latest) (prior : option VersionData) (later : string)
    (c : Channel) :
  channelChanged c (fst (reconcile getTime fetched prior)) (fetched_at later fetched)
  = false.
Proof.
  assert (Hv : version (channel_info c (latest (fst (reconcile getTime fetched prior))))
               = version (channel_info c fetched)).
  { unfold reconcile. cbn [fst latest]. destruct prior as [d|].
    - rewrite latestVersions_compare_step.
      now destruct (channelChanged c d fetched).
    - reflexivity. }
  unfold channelChanged. rewrite Hv.
  destruct c; simpl; now rewrite String.eqb_refl.
Qed.

(** What the rerun sorts is the history that the first run wrote. *)
Lemma rerun_sort_input (fetched : Latest) (prior : option VersionData) (later : string) :
  uniqueHistory_of
    (newHistory (compare_step (fetched_at later fetched)
                   (Some (fst (reconcile getTime fetched prior)))))
  = history (fst (reconcile getTime fetched prior)).
Proof.
  rewrite newHistory_compare_step. unfold pushed. rewrite !rerun_unchanged.
  cbn [app]. rewrite app_nil_r. apply uniqueHistory_of_id.
  unfold reconcile. cbn [fst history]. apply merge_history_NoDup.
Qed.

(** C1. Idempotence, for timestamps that are dates: a second run with the
    same fetched descriptors (whatever its clock says) and the state written
    by the first run as prior state reports no change and writes that same
    state again: the same latest entries with the same timestamps and the
    same history sequence.  The history sequence does not depend on the
    sorting algorithm: every array that lists the deduplicated sequence of
    the second run newest first, entries of one instant in their order, is
    the history of the first run. *)
Theorem reconcile_idempotent (fetched : Latest) (prior : option VersionData)
    (later : string) :
  valid_times getTime (uniqueHistory_of (newHistory (compare_step fetched prior))) = true ->
  reconcile getTime (fetched_at later fetched)
    (Some (fst (reconcile getTime fetched prior)))
  = (fst (reconcile getTime fetched prior), false)
  /\ (forall sorted,
        dated getTime sorted ->
        StronglySorted (newer_first getTime) sorted ->
        (forall t, filter (has_time getTime t) sorted
                   = filter (has_time getTime t)
                       (uniqueHistory_of
                          (newHistory (compare_step (fetched_at later fetched)
                                         (Some (fst (reconcile getTime fetched prior))))))) ->
        sorted = history (fst (reconcile getTime fetched prior))).
Proof.
  intros Hvalid. split.
  { set (S1 := fst (reconcile getTime fetched prior)).
    assert (Hv : forall c, version (channel_info c (latest S1))
                           = version (channel_info c fetched)).
    { intros c. unfold S1, reconcile. simpl. destruct prior as [d|].
      - rewrite latestVersions_compare_step.
        now destruct (channelChanged c d fetched).
      - reflexivity. }
    assert (Hw : forall c, windows (channel_info c (latest S1))
                           = windows (channel_info c fetched)
                           /\ linux (channel_info c (latest S1))
                              = linux (channel_info c fetched)).
    { intros c. unfold S1, reconcile. simpl. destruct prior as [d|].
      - rewrite latestVersions_compare_step.
        now destruct (channelChanged c d fetched).
      - now split. }
    assert (Hc : forall c, channelChanged c S1 (fetched_at later fetched) = false).
    { intros c. unfold channelChanged. rewrite Hv.
      destruct c; simpl; now rewrite String.eqb_refl. }
    unfold reconcile at 1. f_equal.
    - destruct S1 as [lat hist] eqn:HS1. f_equal.
      + apply Latest_eq.
        * change (l_stable ?x) with (channel_info stable x).
          rewrite latestVersions_compare_step, Hc. simpl.
          specialize (Hv stable). destruct (Hw stable) as [Hwi Hli].
          simpl in Hv, Hwi, Hli. destruct (l_stable lat). simpl in *.
          unfold set_releasedAt. simpl. congruence.
        * change (l_preview ?x) with (channel_info preview x).
          rewrite latestVersions_compare_step, Hc. simpl.
          specialize (Hv preview). destruct (Hw preview) as [Hwi Hli].
          simpl in Hv, Hwi, Hli. destruct (l_preview lat). simpl in *.
          unfold set_releasedAt. simpl. congruence.
      + rewrite newHistory_compare_step. unfold pushed. rewrite !Hc.
        simpl. rewrite app_nil_r.
        assert (Hh : hist = merge_history getTime
                              (newHistory (compare_step fetched prior))).
        { unfold S1, reconcile in HS1. simpl in HS1. now inversion HS1. }
        rewrite Hh. apply merge_history_idempotent.
    - rewrite hasChanges_compare_step, !Hc. reflexivity. }
  intros sorted Hd Hs Hst. rewrite rerun_sort_input in Hst.
  assert (Hdated : dated getTime (history (fst (reconcile getTime fetched prior)))).
  { unfold reconcile. cbn [fst history].
    eapply Permutation_Forall; [apply Permutation_sym, merge_history_perm |].
    now apply valid_times_dated. }
  rewrite (Array_sort_unique _ sorted Hdated Hd Hs Hst).
  unfold reconcile. cbn [fst history]. unfold merge_history.
  apply Array_sort_idempotent. exact compareFn_asym.
Qed.

End ReconcilerFacts.

(** ** The matcher on the pattern of [extractVersion] *)

Lemma is_digit_not_dot (a : ascii) : is_digit a = true -> Ascii.eqb dot a = false.
Proof.
  intros H. destruct (Ascii.eqb_spec dot a) as [<- | _]; [discriminate | reflexivity].
Qed.

Lemma span_digits_length (s : list ascii) :
  List.length (snd (span is_digit s)) <= List.length s.
Proof.
  induction s as [|a t IH]; simpl; [lia |].
  destruct (is_digit a); simpl; lia.
Qed.

Lemma repeat_digits (fuel : nat) (s : list ascii) (cp : option (list ascii))
    (c : Continuation) :
  rejects_digit c -> List.length s < fuel ->
  RepeatMatcher (CharacterSetMatcher is_digit) false fuel 0 None
    {| rest := s; cap1 := cp |} c
  = c {| rest := snd (span is_digit s); cap1 := cp |}.
Proof.
  intros Hc. revert s. induction fuel as [|f IH]; intros s Hlen; [lia |].
  cbn [RepeatMatcher Nat.eqb andb option_map rest cap1].
  unfold CharacterSetMatcher at 1. cbn [rest cap1].
  destruct s as [|a t]; [reflexivity |].
  cbn [span]. destruct (is_digit a) eqn:Ha; [| reflexivity].
  cbn [snd rest List.length].
  destruct (Nat.eqb_spec (List.length t) (S (List.length t))) as [Heq | _]; [lia |].
  rewrite IH by (simpl in Hlen; lia).
  rewrite (Hc a t cp Ha).
  now destruct (c {| rest := snd (span is_digit t); cap1 := cp |}).
Qed.

Lemma compile_digits1 (s : list ascii) (cp : option (list ascii)) (c : Continuation) :
  rejects_digit c ->
  compile digits1 {| rest := s; cap1 := cp |} c
  = match leading_digits s with
    | Some (_, t) => c {| rest := t; cap1 := cp |}
    | None => None
    end.
Proof.
  intros Hc. unfold leading_digits.
  change (compile digits1 {| rest := s; cap1 := cp |} c)
    with (CharacterSetMatcher is_digit {| rest := s; cap1 := cp |}
            (fun y => RepeatMatcher (CharacterSetMatcher is_digit) false
                        (S (List.length s)) 0 None y c)).
  unfold CharacterSetMatcher at 1. cbn [rest cap1].
  destruct s as [|a t]; [reflexivity |].
  cbn [span]. destruct (is_digit a) eqn:Ha; [| reflexivity].
  cbn [fst snd]. rewrite repeat_digits; [reflexivity | assumption |].
  simpl. lia.
Qed.

Lemma compile_lit (w : string) (s : list ascii) (cp : option (list ascii))
    (c : Continuation) :
  compile (lit w) {| rest := s; cap1 := cp |} c
  = match strip w s with
    | Some t => c {| rest := t; cap1 := cp |}
    | None => None
    end.
Proof.
  revert s. induction w as [|a w IH]; intros s; cbn [lit strip compile].
  - reflexivity.
  - unfold CharacterSetMatcher. cbn [rest cap1].
    destruct s as [|b t]; [reflexivity |].
    destruct (Ascii.eqb a b); [apply IH | reflexivity].
Qed.

Lemma compile_Seq (r1 r2 : regex) (x : MatchState) (c : Continuation) :
  compile (Seq r1 r2) x c = compile r1 x (fun y => compile r2 y c).
Proof. reflexivity. Qed.

Lemma compile_dot_digits (s : list ascii) (cp : option (list ascii)) (c : Continuation) :
  rejects_digit c ->
  compile (Seq (Chr dot) digits1) {| rest := s; cap1 := cp |} c
  = match dot_digits s with
    | Some (_, t) => c {| rest := t; cap1 := cp |}
    | None => None
    end.
Proof.
  intros Hc. cbn [compile]. unfold CharacterSetMatcher at 1, dot_digits. cbn [rest cap1].
  destruct s as [|a t]; [reflexivity |].
  destruct (Ascii.eqb dot a); [now apply compile_digits1 | reflexivity].
Qed.

Lemma dot_digits_digit (a : ascii) (t : list ascii) :
  is_digit a = true -> dot_digits (a :: t) = None.
Proof. intros H. unfold dot_digits. now rewrite is_digit_not_dot. Qed.

Lemma RepeatMatcher_max_0 (m : Matcher) (clear : bool) (fuel min : nat)
    (x : MatchState) (c : Continuation) :
  RepeatMatcher m clear fuel min (Some 0) x c = c x.
Proof. destruct fuel; reflexivity. Qed.

(** [(?:\.\d+){1,2}]: one group, then a second one if the rest of the
    pattern matches after it, and otherwise the rest of the pattern after
    the first. *)
Lemma compile_dot_digits_1_2 (s : list ascii) (cp : option (list ascii))
    (c : Continuation) :
  rejects_digit c ->
  compile (Quant (Seq (Chr dot) digits1) 1 (Some 2)) {| rest := s; cap1 := cp |} c
  = match dot_digits s with
    | Some (_, t) =>
      match (match dot_digits t with
             | Some (_, u) => c {| rest := u; cap1 := cp |}
             | None => None
             end) with
      | Some z => Some z
      | None => c {| rest := t; cap1 := cp |}
      end
    | None => None
    end.
Proof.
  intros Hc.
  assert (Hsecond : forall fuel x,
    RepeatMatcher (compile (Seq (Chr dot) digits1)) false (S fuel) 0 (Some 1) x c
    = match compile (Seq (Chr dot) digits1) x
              (fun y => if (List.length (rest y) =? List.length (rest x))%nat then None
                        else RepeatMatcher (compile (Seq (Chr dot) digits1)) false
                               fuel 0 (Some 0) y c) with
      | Some z => Some z
      | None => c x
      end).
  { intros fuel x. reflexivity. }
  assert (Hlast : forall fuel (t0 : list ascii),
    rejects_digit
      (fun y => if (List.length (rest y) =? List.length t0)%nat then None
                else RepeatMatcher (compile (Seq (Chr dot) digits1)) false
                       fuel 0 (Some 0) y c)).
  { intros fuel t0 a t1 cp0 Ha. cbn [rest].
    destruct (List.length (a :: t1) =? List.length t0)%nat; [reflexivity |].
    rewrite RepeatMatcher_max_0. now apply Hc. }
  change (compile (Quant (Seq (Chr dot) digits1) 1 (Some 2)) {| rest := s; cap1 := cp |} c)
    with (compile (Seq (Chr dot) digits1) {| rest := s; cap1 := cp |}
            (fun y => RepeatMatcher (compile (Seq (Chr dot) digits1)) false
                        (S (List.length s)) 0 (Some 1) y c)).
  rewrite compile_dot_digits.
  - destruct (dot_digits s) as [[d t]|]; [| reflexivity].
    rewrite Hsecond. rewrite compile_dot_digits by apply Hlast.
    cbn [rest]. destruct (dot_digits t) as [[d' u]|] eqn:Ht; [| reflexivity].
    rewrite RepeatMatcher_max_0.
    destruct (Nat.eqb_spec (List.length u) (List.length t)) as [Heq | _];
      [| reflexivity].
    exfalso. unfold dot_digits in Ht. destruct t as [|a t']; [discriminate |].
    destruct (Ascii.eqb dot a); [| discriminate].
    unfold leading_digits in Ht.
    pose proof (span_digits_length t') as Hl.
    destruct (span is_digit t') as [[|d0 ds] r] eqn:Hsp; [discriminate |].
    inversion Ht; subst. simpl in *. lia.
  - intros a t cp0 Ha. rewrite Hsecond. rewrite compile_dot_digits by apply Hlast.
    rewrite (dot_digits_digit a t Ha). now apply Hc.
Qed.

Lemma compile_dot_digits_then (k : regex) (s : list ascii) (cp : option (list ascii))
    (c : Continuation) :
  rejects_digit (fun z => compile k z c) ->
  compile (Seq (Chr dot) (Seq digits1 k)) {| rest := s; cap1 := cp |} c
  = match dot_digits s with
    | Some (_, t) => compile k {| rest := t; cap1 := cp |} c
    | None => None
    end.
Proof.
  intros Hk.
  change (compile (Seq (Chr dot) (Seq digits1 k)) {| rest := s; cap1 := cp |} c)
    with (CharacterSetMatcher (Ascii.eqb dot) {| rest := s; cap1 := cp |}
            (fun y => compile digits1 y (fun z => compile k z c))).
  unfold CharacterSetMatcher, dot_digits. cbn [rest cap1].
  destruct s as [|a t]; [reflexivity |].
  destruct (Ascii.eqb dot a); [| reflexivity].
  now rewrite compile_digits1.
Qed.

Lemma close_group_digit (s1 : list ascii) (a : ascii) (t : list ascii) :
  is_digit a = true -> close_group s1 (a :: t) = None.
Proof.
  intros Ha. unfold close_group. cbn [strip].
  change "."%char with dot. now rewrite (is_digit_not_dot a Ha).
Qed.

(** At one position the backtracking matcher computes [match_at]. *)
Lemma compile_version_pattern (s : list ascii) :
  compile version_pattern {| rest := s; cap1 := None |} (fun y => Some y) = match_at s.
Proof.
  unfold version_pattern, match_at.
  rewrite (compile_Seq (lit "bedrock-server-")), compile_lit.
  destruct (strip "bedrock-server-" s) as [s1|]; [| reflexivity].
  set (c0 := fun y : MatchState =>
               compile (lit ".zip")
                 {| rest := rest y;
                    cap1 := Some (firstn (List.length s1 - List.length (rest y)) s1) |}
                 (fun z => Some z)).
  assert (Hc0 : forall u cp, c0 {| rest := u; cap1 := cp |} = close_group s1 u).
  { intros u cp. unfold c0. cbn [rest]. now rewrite compile_lit. }
  assert (Hr0 : rejects_digit c0).
  { intros a t cp Ha. rewrite Hc0. now apply close_group_digit. }
  assert (Hr1 : rejects_digit
                  (fun z => compile (Quant (Seq (Chr dot) digits1) 1 (Some 2)) z c0)).
  { intros a t cp Ha. rewrite compile_dot_digits_1_2 by assumption.
    now rewrite dot_digits_digit. }
  change (compile digits1 {| rest := s1; cap1 := None |}
            (fun y => compile
                        (Seq (Chr dot)
                           (Seq digits1 (Quant (Seq (Chr dot) digits1) 1 (Some 2))))
                        y c0)
          = match leading_digits s1 with
            | Some (_, s2) =>
              match dot_digits s2 with
              | Some (_, s3) =>
                match dot_digits s3 with
                | Some (_, s4) =>
                  match (match dot_digits s4 with
                         | Some (_, s5) => close_group s1 s5
                         | None => None
                         end) with
                  | Some z => Some z
                  | None => close_group s1 s4
                  end
                | None => None
                end
              | None => None
              end
            | None => None
            end).
  rewrite compile_digits1.
  - destruct (leading_digits s1) as [[d1 s2]|]; [| reflexivity].
    rewrite compile_dot_digits_then by assumption.
    destruct (dot_digits s2) as [[d2 s3]|]; [| reflexivity].
    rewrite compile_dot_digits_1_2 by assumption.
    destruct (dot_digits s3) as [[d3 s4]|]; [| reflexivity].
    rewrite Hc0. destruct (dot_digits s4) as [[d4 s5]|]; [| reflexivity].
    now rewrite Hc0.
  - intros a t cp Ha. rewrite compile_dot_digits_then by assumption.
    now rewrite dot_digits_digit.
Qed.

(** ** The matcher and the words of the specification *)

Lemma span_spec (p : ascii -> bool) (s : list ascii) :
  s = fst (span p s) ++ snd (span p s)
  /\ Forall (fun a => p a = true) (fst (span p s)).
Proof.
  induction s as [|a t [IH1 IH2]]; simpl.
  - split; [reflexivity | constructor].
  - destruct (p a) eqn:Ha; simpl.
    + split; [now rewrite <- IH1 | now constructor].
    + split; [reflexivity | constructor].
Qed.

Lemma span_complete (d t : list ascii) :
  Forall (fun a => is_digit a = true) d -> no_digit_head t ->
  span is_digit (d ++ t) = (d, t).
Proof.
  intros Hd Ht. induction Hd as [|a d Ha Hd IH]; cbn [app span].
  - destruct t as [|b t]; [reflexivity |]. cbn [span]. unfold no_digit_head in Ht.
    now rewrite Ht.
  - rewrite Ha, IH. reflexivity.
Qed.

Lemma leading_digits_spec (s d t : list ascii) :
  leading_digits s = Some (d, t) -> is_number d /\ s = d ++ t.
Proof.
  unfold leading_digits. intros H.
  destruct (span_spec is_digit s) as [Hs Hall].
  destruct (span is_digit s) as [[|a d'] t'] eqn:Hsp; [discriminate |].
  inversion H; subst. cbn [fst snd] in *.
  split; [split; [discriminate | assumption] | reflexivity].
Qed.

Lemma leading_digits_complete (d t : list ascii) :
  is_number d -> no_digit_head t -> leading_digits (d ++ t) = Some (d, t).
Proof.
  intros [Hne Hd] Ht. unfold leading_digits. rewrite span_complete by assumption.
  destruct d; [congruence | reflexivity].
Qed.

Lemma dot_digits_spec (s d t : list ascii) :
  dot_digits s = Some (d, t) -> is_number d /\ s = dot :: d ++ t.
Proof.
  unfold dot_digits. destruct s as [|a s']; [discriminate |].
  destruct (Ascii.eqb_spec dot a) as [<- | _]; [| discriminate].
  intros H. apply leading_digits_spec in H. destruct H as [Hd ->]. now split.
Qed.

Lemma dot_digits_complete (d t : list ascii) :
  is_number d -> no_digit_head t -> dot_digits (dot :: d ++ t) = Some (d, t).
Proof.
  intros Hd Ht. unfold dot_digits. rewrite Ascii.eqb_refl.
  now apply leading_digits_complete.
Qed.

Lemma strip_spec (w : string) (s t : list ascii) :
  strip w s = Some t <-> s = chars w ++ t.
Proof.
  revert s. induction w as [|a w IH]; intros s; simpl.
  - split; [now intros [= ->] | now intros ->].
  - destruct s as [|b s']; [split; discriminate |].
    destruct (Ascii.eqb_spec a b) as [<- | Hne].
    + rewrite IH. split; [now intros -> | now intros [= ->]].
    + split; [discriminate | intros [= H _]; congruence].
Qed.

Lemma firstn_consumed {A : Type} (v u : list A) :
  firstn (List.length (v ++ u) - List.length u) (v ++ u) = v.
Proof.
  rewrite length_app.
  replace (List.length v + List.length u - List.length u) with (List.length v + 0) by lia.
  rewrite firstn_app_2. simpl. apply app_nil_r.
Qed.

Lemma app_cons_assoc {A : Type} (a b c : list A) (x : A) :
  (a ++ x :: b) ++ c = a ++ x :: b ++ c.
Proof. now rewrite <- app_assoc. Qed.

Lemma close_group_spec (v u : list ascii) (z : MatchState) :
  close_group (v ++ u) u = Some z ->
  cap1 z = Some v /\ u = chars ".zip" ++ rest z.
Proof.
  unfold close_group. destruct (strip ".zip" u) as [r|] eqn:Hs; [| discriminate].
  intros [= <-]. cbn [cap1 rest]. rewrite firstn_consumed.
  apply strip_spec in Hs. now split.
Qed.

Lemma close_group_complete (v post : list ascii) :
  close_group (v ++ chars ".zip" ++ post) (chars ".zip" ++ post)
  = Some {| rest := post; cap1 := Some v |}.
Proof.
  unfold close_group.
  assert (H : strip ".zip" (chars ".zip" ++ post) = Some post) by now apply strip_spec.
  rewrite H, firstn_consumed. reflexivity.
Qed.

(** Where [match_at] succeeds the pattern stands, and the capture is the
    dotted number. *)
Lemma match_at_sound (s : list ascii) (z : MatchState) :
  match_at s = Some z -> exists v, cap1 z = Some v /\ matches_here s v.
Proof.
  unfold match_at.
  destruct (strip "bedrock-server-" s) as [s1|] eqn:H0; [| discriminate].
  apply strip_spec in H0.
  destruct (leading_digits s1) as [[d1 s2]|] eqn:H1; [| discriminate].
  apply leading_digits_spec in H1. destruct H1 as [N1 E1].
  destruct (dot_digits s2) as [[d2 s3]|] eqn:H2; [| discriminate].
  apply dot_digits_spec in H2. destruct H2 as [N2 E2].
  destruct (dot_digits s3) as [[d3 s4]|] eqn:H3; [| discriminate].
  apply dot_digits_spec in H3. destruct H3 as [N3 E3].
  assert (Hthree : close_group s1 s4 = Some z ->
                   exists v, cap1 z = Some v /\ matches_here s v).
  { intros Hz.
    assert (Es : s1 = join_dots [d1; d2; d3] ++ s4).
    { subst s1 s2 s3. cbn [join_dots]. now rewrite !app_cons_assoc. }
    rewrite Es in Hz. apply close_group_spec in Hz. destruct Hz as [Hcap Hrest].
    exists (join_dots [d1; d2; d3]). split; [assumption |]. split.
    - exists [d1; d2; d3]. repeat split; auto.
    - exists (rest z). now rewrite H0, Es, Hrest. }
  destruct (dot_digits s4) as [[d4 s5]|] eqn:H4; [| exact Hthree].
  apply dot_digits_spec in H4. destruct H4 as [N4 E4].
  destruct (close_group s1 s5) as [z'|] eqn:H5; [| exact Hthree].
  intros [= <-].
  assert (Es : s1 = join_dots [d1; d2; d3; d4] ++ s5).
  { subst s1 s2 s3 s4. cbn [join_dots]. now rewrite !app_cons_assoc. }
  rewrite Es in H5. apply close_group_spec in H5. destruct H5 as [Hcap Hrest].
  exists (join_dots [d1; d2; d3; d4]). split; [assumption |]. split.
  - exists [d1; d2; d3; d4]. repeat split; auto.
  - exists (rest z'). now rewrite H0, Es, Hrest.
Qed.

(** Where the pattern stands, [match_at] succeeds with that capture. *)
Lemma match_at_complete (v post : list ascii) :
  dotted_number v ->
  match_at (chars "bedrock-server-" ++ v ++ chars ".zip" ++ post)
  = Some {| rest := post; cap1 := Some v |}.
Proof.
  intros (comps & Hv & Hn & Hlen). unfold match_at.
  assert (H0 : strip "bedrock-server-"
                 (chars "bedrock-server-" ++ v ++ chars ".zip" ++ post)
               = Some (v ++ chars ".zip" ++ post)) by now apply strip_spec.
  rewrite H0.
  assert (Hzip : no_digit_head (chars ".zip" ++ post)) by reflexivity.
  assert (Hdot : forall t, no_digit_head (dot :: t)) by (intros; reflexivity).
  assert (Hz : dot_digits (chars ".zip" ++ post) = None) by reflexivity.
  destruct Hlen as [Hlen | Hlen].
  - destruct comps as [|d1 [|d2 [|d3 [|? ?]]]]; try discriminate.
    inversion Hn as [|? ? N1 Hn1]; inversion Hn1 as [|? ? N2 Hn2];
      inversion Hn2 as [|? ? N3 _]; subst.
    cbn [join_dots].
    assert (E1 : leading_digits ((d1 ++ dot :: d2 ++ dot :: d3) ++ chars ".zip" ++ post)
                 = Some (d1, dot :: d2 ++ dot :: d3 ++ chars ".zip" ++ post)).
    { rewrite !app_cons_assoc. now apply leading_digits_complete. }
    rewrite E1.
    rewrite (dot_digits_complete d2 (dot :: d3 ++ chars ".zip" ++ post)) by auto.
    rewrite (dot_digits_complete d3 (chars ".zip" ++ post)) by auto.
    rewrite Hz. apply close_group_complete.
  - destruct comps as [|d1 [|d2 [|d3 [|d4 [|? ?]]]]]; try discriminate.
    inversion Hn as [|? ? N1 Hn1]; inversion Hn1 as [|? ? N2 Hn2];
      inversion Hn2 as [|? ? N3 Hn3]; inversion Hn3 as [|? ? N4 _]; subst.
    cbn [join_dots].
    assert (E1 : leading_digits
                   ((d1 ++ dot :: d2 ++ dot :: d3 ++ dot :: d4) ++ chars ".zip" ++ post)
                 = Some (d1, dot :: d2 ++ dot :: d3 ++ dot :: d4 ++ chars ".zip" ++ post)).
    { rewrite !app_cons_assoc. now apply leading_digits_complete. }
    rewrite E1.
    rewrite (dot_digits_complete d2 (dot :: d3 ++ dot :: d4 ++ chars ".zip" ++ post))
      by auto.
    rewrite (dot_digits_complete d3 (dot :: d4 ++ chars ".zip" ++ post)) by auto.
    rewrite (dot_digits_complete d4 (chars ".zip" ++ post)) by auto.
    now rewrite close_group_complete.
Qed.

Lemma matches_here_match_at (t v : list ascii) :
  matches_here t v -> exists z, match_at t = Some z /\ cap1 z = Some v.
Proof.
  intros [Hd [post ->]]. eexists. split; [now apply match_at_complete | reflexivity].
Qed.

Lemma RegExpBuiltinExec_version_pattern (s : list ascii) :
  RegExpBuiltinExec version_pattern s
  = match match_at s with
    | Some y => Some y
    | None =>
      match s with
      | [] => None
      | _ :: t => RegExpBuiltinExec version_pattern t
      end
    end.
Proof.
  destruct s; cbn [RegExpBuiltinExec]; now rewrite compile_version_pattern.
Qed.

Lemma exec_some (s : list ascii) (z : MatchState) :
  RegExpBuiltinExec version_pattern s = Some z ->
  exists v, cap1 z = Some v /\ first_capture s v.
Proof.
  assert (Hhere : forall s0, match_at s0 = Some z ->
                             exists v, cap1 z = Some v /\ first_capture s0 v).
  { intros s0 H. destruct (match_at_sound s0 z H) as (v & Hc & Hm).
    exists v. split; [assumption |]. exists [], s0.
    split; [reflexivity | split; [assumption |]].
    intros. simpl. lia. }
  induction s as [|a t IH]; rewrite RegExpBuiltinExec_version_pattern.
  - destruct (match_at []) eqn:Hm; [| discriminate].
    intros [= ->]. now apply Hhere.
  - destruct (match_at (a :: t)) eqn:Hm.
    + intros [= ->]. now apply Hhere.
    + intros H. destruct (IH H) as (v & Hc & pre & t0 & -> & Hm0 & Hleft).
      exists v. split; [assumption |]. exists (a :: pre), t0.
      split; [reflexivity | split; [assumption |]].
      intros pre' t' v' Heq Hm'. destruct pre' as [|b pre'']; simpl in Heq.
      * subst t'. destruct (matches_here_match_at _ _ Hm') as (z' & Hz' & _). congruence.
      * inversion Heq; subst. simpl. apply le_n_S. eapply Hleft; eauto.
Qed.

Lemma exec_none (s : list ascii) :
  RegExpBuiltinExec version_pattern s = None -> no_match s.
Proof.
  induction s as [|a t IH]; rewrite RegExpBuiltinExec_version_pattern.
  - destruct (match_at []) eqn:Hm; [discriminate |].
    intros _ pre t v Heq Hm'. symmetry in Heq. apply app_eq_nil in Heq.
    destruct Heq as [-> ->].
    destruct (matches_here_match_at _ _ Hm') as (z' & Hz' & _). congruence.
  - destruct (match_at (a :: t)) eqn:Hm; [discriminate |].
    intros H pre t' v Heq Hm'. destruct pre as [|b pre']; simpl in Heq.
    + subst t'. destruct (matches_here_match_at _ _ Hm') as (z' & Hz' & _). congruence.
    + inversion Heq; subst. exact (IH H pre' t' v eq_refl Hm').
Qed.

Lemma app_same_length {A : Type} (p1 p2 t1 t2 : list A) :
  List.length p1 = List.length p2 -> p1 ++ t1 = p2 ++ t2 -> p1 = p2 /\ t1 = t2.
Proof.
  revert p2. induction p1 as [|x p1 IH]; intros [|y p2] Hlen Heq;
    simpl in *; try discriminate.
  - now split.
  - inversion Heq; subst. destruct (IH p2) as [-> ->]; auto.
Qed.

Lemma first_capture_unique (s v v' : list ascii) :
  first_capture s v -> first_capture s v' -> v = v'.
Proof.
  intros (p1 & t1 & E1 & M1 & L1) (p2 & t2 & E2 & M2 & L2).
  assert (Hlen : List.length p1 = List.length p2).
  { apply Nat.le_antisymm; [eapply L1 | eapply L2]; eauto. }
  rewrite E1 in E2. destruct (app_same_length _ _ _ _ Hlen E2) as [-> ->].
  destruct (matches_here_match_at _ _ M1) as (z1 & Hz1 & Hc1).
  destruct (matches_here_match_at _ _ M2) as (z2 & Hz2 & Hc2).
  congruence.
Qed.

Lemma first_capture_nonempty (s : list ascii) : ~ first_capture s [].
Proof.
  intros (pre & t & _ & [(comps & Hv & Hn & Hlen) _] & _).
  destruct comps as [|d1 [|d2 rest0]]; simpl in Hlen; try lia.
  inversion Hn as [|? ? [Hne _] _]; subst.
  cbn [join_dots] in Hv. symmetry in Hv. apply app_eq_nil in Hv.
  destruct Hv as [Hd _]. contradiction.
Qed.

(** [extractVersion] answers the capture of the first match. *)
Lemma extractVersion_some (url v : string) :
  extractVersion url = Some v <-> first_capture (chars url) (chars v).
Proof.
  unfold extractVersion. fold (chars url).
  destruct (RegExpBuiltinExec version_pattern (chars url)) as [z|] eqn:He.
  - destruct (exec_some _ _ He) as (v0 & Hc & Hf). rewrite Hc. cbn [option_map].
    split.
    + intros [= <-]. unfold chars. now rewrite list_ascii_of_string_of_list_ascii.
    + intros Hf'. f_equal.
      rewrite (first_capture_unique _ _ _ Hf Hf').
      apply string_of_list_ascii_of_string.
  - split; [discriminate |].
    intros (pre & t & E & M & _). exfalso. exact (exec_none _ He pre t _ E M).
Qed.

(** [extractVersion] answers [null] exactly when the pattern matches
    nowhere. *)
Lemma extractVersion_none (url : string) :
  extractVersion url = None <-> no_match (chars url).
Proof.
  unfold extractVersion. fold (chars url).
  destruct (RegExpBuiltinExec version_pattern (chars url)) as [z|] eqn:He.
  - destruct (exec_some _ _ He) as (v0 & Hc & (pre & t & E & M & _)).
    rewrite Hc. cbn [option_map]. split; [discriminate |].
    intros Hno. exfalso. exact (Hno pre t v0 E M).
  - split; [intros _; now apply exec_none | reflexivity].
Qed.

Lemma extractVersion_nonempty (url : string) : extractVersion url <> Some EmptyString.
Proof.
  intros H. apply extractVersion_some in H. exact (first_capture_nonempty _ H).
Qed.

(** C9. Resolution of a channel's identifier from its two locators: the
    capture of the pattern in the primary locator if it matches there,
    otherwise the capture in the secondary locator if it matches there,
    otherwise "unknown"; a capture is the dotted number of three or four
    components that stands between "bedrock-server-" and ".zip" at the first
    place where the pattern matches, and there is none exactly when the
    pattern matches nowhere.  Both channels of the fetched value are
    resolved this way from their Windows and Linux locators. *)
Theorem version_resolution (primary secondary : string) :
  resolveVersion primary secondary
  = match extractVersion primary with
    | Some v => v
    | None =>
      match extractVersion secondary with
      | Some v => v
      | None => "unknown"
      end
    end
  /\ (forall url v, extractVersion url = Some v <-> first_capture (chars url) (chars v))
  /\ (forall url, extractVersion url = None <-> no_match (chars url))
  /\ (forall links now,
        version (l_stable (fetched_versions links now))
        = resolveVersion (windows (l_stable (fetched_versions links now)))
            (linux (l_stable (fetched_versions links now)))
        /\ version (l_preview (fetched_versions links now))
           = resolveVersion (windows (l_preview (fetched_versions links now)))
               (linux (l_preview (fetched_versions links now)))).
Proof.
  split; [| split; [| split]].
  - unfold resolveVersion, js_or, js_or_default.
    pose proof (extractVersion_nonempty primary) as Hp.
    pose proof (extractVersion_nonempty secondary) as Hs.
    destruct (extractVersion primary) as [[|a p]|];
      [congruence | reflexivity |].
    destruct (extractVersion secondary) as [[|b q]|]; [congruence | reflexivity ..].
  - apply extractVersion_some.
  - apply extractVersion_none.
  - intros links now. split; reflexivity.
Qed.

(** ** [loadExistingData] *)

(** C8, as the code has it. Loading returns absent ([null]) when no file
    exists at the path, and it also returns absent, and does not fail, when
    the path exists but reading it or parsing its text throws; a text that
    parses is returned as parsed, whatever its shape.  Loading never
    fails. *)
Theorem loadExistingData_total (fs : FileSystem) (filePath : string) :
  loadExistingData fs filePath
  = match lookup filePath fs with
    | None => Returned JNull
    | Some Directory => Returned JNull
    | Some (File content) =>
      match JSON_parse content with
      | Returned value => Returned value
      | Thrown _ => Returned JNull
      end
    end
  /\ (existsSync fs filePath = false -> loadExistingData fs filePath = Returned JNull)
  /\ (forall message, loadExistingData fs filePath <> Thrown message).
Proof.
  assert (Heq : loadExistingData fs filePath
                = match lookup filePath fs with
                  | None => Returned JNull
                  | Some Directory => Returned JNull
                  | Some (File content) =>
                    match JSON_parse content with
                    | Returned value => Returned value
                    | Thrown _ => Returned JNull
                    end
                  end).
  { unfold loadExistingData, existsSync, readFile, try_catch, bind.
    destruct (lookup filePath fs) as [[content|]|]; simpl; trivial. }
  split; [exact Heq | split].
  - unfold loadExistingData. now intros ->.
  - intros message. rewrite Heq.
    destruct (lookup filePath fs) as [[content|]|]; try discriminate.
    destruct (JSON_parse content); discriminate.
Qed.

(** ** The sample runs *)

Example run1_result :
  run1 = ({| latest := fetched_versions (links_for "1.21.120.0" "1.21.130.28") day1;
             history := [] |}, true)
  /\ version (l_stable (latest (fst run1))) = "1.21.120.0"
  /\ version (l_preview (latest (fst run1))) = "1.21.130.28".
Proof. vm_compute. repeat split. Qed.

Example run2_result :
  snd run2 = true
  /\ history (fst run2)
     = [ {| type := stable; h_version := "1.21.120.0";
            h_windows := bin_url "bin-win" "1.21.120.0";
            h_linux := bin_url "bin-linux" "1.21.120.0";
            h_releasedAt := day1 |} ]
  /\ releasedAt (l_stable (latest (fst run2))) = day2
  /\ releasedAt (l_preview (latest (fst run2))) = day1.
Proof. vm_compute. repeat split. Qed.

Example run3_result :
  snd run3 = true
  /\ map (fun e => (key e, h_releasedAt e)) (history (fst run3))
     = [ ((stable, "1.21.124.2"), day2); ((stable, "1.21.120.0"), day1) ]
  /\ l_stable (latest (fst run3))
     = {| version := "1.21.120.0"; windows := bin_url "bin-win" "1.21.120.0";
          linux := bin_url "bin-linux" "1.21.120.0"; releasedAt := day3 |}.
Proof. vm_compute. repeat split. Qed.

(** C4 as stated fails on the fourth run: the stable identifier changes from
    1.21.120.0, latest since [day3], to 1.21.124.2, yet the written history
    has no stable entry carrying [day3]; it keeps the entry recorded on the
    second run, with [day1], and the pushed one is dropped as a
    duplicate. *)
Lemma rollback_drops_pushed_entry :
  channelChanged stable (fst run3) fetched4 = true
  /\ map (fun e => (key e, h_releasedAt e)) (history (fst run4))
     = [ ((stable, "1.21.124.2"), day2); ((stable, "1.21.120.0"), day1) ]
  /\ ~ In (old_entry stable (l_stable (latest (fst run3)))) (history (fst run4)).
Proof.
  vm_compute. repeat split.
  intros [H | [H | []]]; discriminate.
Qed.

(** C8 as stated fails on a file that exists and is no JSON text:
    [JSON.parse] throws, and loading returns absent instead of failing. *)
Lemma corrupt_file_loads_as_absent :
  existsSync truncated_fs "/repo/versions.json" = true
  /\ bind (readFile truncated_fs "/repo/versions.json") JSON_parse
     = Thrown "SyntaxError: JSON Parse error"
  /\ loadExistingData truncated_fs "/repo/versions.json" = Returned JNull.
Proof. vm_compute. repeat split. Qed.

(** A file in the format of the first release of the action, with the two
    channels at the top level, is JSON of another shape: it is loaded as it
    is. *)
Example old_format_loads_unchecked :
  loadExistingData old_format_fs "/repo/versions.json"
  = Returned
      (JObject [ (chars "stable", JObject [ (chars "version", JString (chars "1.21.124.2")) ]);
                 (chars "preview", JObject [ (chars "version", JString (chars "1.21.130.28")) ]) ]).
Proof. vm_compute. reflexivity. Qed.

(** The second sample run, where the stable channel changed. *)
Lemma changed_channel_recorded_witness :
  channel_info stable (latest (fst run2))
  = channel_info stable (fetched_versions (links_for "1.21.124.2" "1.21.130.28") day2)
  /\ In (match find (same_key (old_entry stable (channel_info stable (latest (fst run1)))))
                 (history (fst run1)) with
         | Some recorded => recorded
         | None => old_entry stable (channel_info stable (latest (fst run1)))
         end)
        (history (fst run2)).
Proof.
  apply (changed_channel_recorded isoTime stable
           (fetched_versions (links_for "1.21.124.2" "1.21.130.28") day2) (fst run1)).
  vm_compute. reflexivity.
Defined.

(** The second sample run, where the preview channel did not change while
    the stable channel did. *)
Lemma unchanged_channel_preserved_witness :
  channel_info preview (latest (fst run2))
  = set_releasedAt
      (channel_info preview (fetched_versions (links_for "1.21.124.2" "1.21.130.28") day2))
      (releasedAt (channel_info preview (latest (fst run1))))
  /\ releasedAt (channel_info preview (latest (fst run2)))
     = releasedAt (channel_info preview (latest (fst run1)))
  /\ filter (fun e => Channel_eqb (type e) preview)
       (newHistory (compare_step
                      (fetched_versions (links_for "1.21.124.2" "1.21.130.28") day2)
                      (Some (fst run1))))
     = filter (fun e => Channel_eqb (type e) preview) (history (fst run1))
  /\ forall e, In e (history (fst run2)) -> type e = preview -> In e (history (fst run1)).
Proof.
  apply (unchanged_channel_preserved isoTime preview
           (fetched_versions (links_for "1.21.124.2" "1.21.130.28") day2) (fst run1)).
  vm_compute. reflexivity.
Defined.

(** The fourth sample run: every timestamp is a date. *)
Lemma history_sorted_witness :
  StronglySorted (newer_first isoTime) (history (fst run4))
  /\ (forall t, filter (has_time isoTime t) (history (fst run4))
                = filter (has_time isoTime t)
                    (uniqueHistory_of (newHistory (compare_step fetched4 (Some (fst run3))))))
  /\ Permutation (history (fst run4))
       (uniqueHistory_of (newHistory (compare_step fetched4 (Some (fst run3))))).
Proof.
  apply (history_sorted_newest_first isoTime fetched4 (Some (fst run3))).
  vm_compute. reflexivity.
Defined.

(** The fourth sample run: the history of the third has unique keys. *)
Lemma prior_history_kept_witness :
  (forall e, In e (history (fst run3)) -> In e (history (fst run4)))
  /\ (forall k, In k (map key (history (fst run3))) -> In k (map key (history (fst run4)))).
Proof.
  apply (prior_history_kept isoTime fetched4 (fst run3)).
  vm_compute. repeat constructor; simpl; intuition discriminate.
Defined.

(** The fourth sample run, and the same descriptors fetched a week later. *)
Lemma reconcile_idempotent_witness :
  reconcile isoTime (fetched_at "2025-11-28T00:00:00.000Z" fetched4) (Some (fst run4))
  = (fst run4, false)
  /\ (forall sorted,
        dated isoTime sorted ->
        StronglySorted (newer_first isoTime) sorted ->
        (forall t, filter (has_time isoTime t) sorted
                   = filter (has_time isoTime t)
                       (uniqueHistory_of
                          (newHistory
                             (compare_step (fetched_at "2025-11-28T00:00:00.000Z" fetched4)
                                (Some (fst run4)))))) ->
        sorted = history (fst run4)).
Proof.
  apply (reconcile_idempotent isoTime fetched4 (Some (fst run3))
           "2025-11-28T00:00:00.000Z").
  vm_compute. reflexivity.
Defined.

(** * Further properties of the code *)

(** ** What a run writes *)

Section RunFacts.

Variable getTime : string -> option Z.

(** X1. Whatever the prior state, the latest entry that is written for a
    channel carries the fetched identifier and the fetched locators; only
    its timestamp can come from the prior state: it is the prior one when
    there is a prior state with the same identifier for the channel, and the
    fetched one otherwise.  So an unchanged identifier with new locators has
    the locators replaced and the timestamp kept. *)
Theorem latest_carries_fetched (c : Channel) (fetched : Latest)
    (prior : option VersionData) :
  version (channel_info c (latest (fst (reconcile getTime fetched prior))))
  = version (channel_info c fetched)
  /\ windows (channel_info c (latest (fst (reconcile getTime fetched prior))))
     = windows (channel_info c fetched)
  /\ linux (channel_info c (latest (fst (reconcile getTime fetched prior))))
     = linux (channel_info c fetched)
  /\ releasedAt (channel_info c (latest (fst (reconcile getTime fetched prior))))
     = match prior with
       | Some d =>
         if String.eqb (version (channel_info c (latest d)))
                       (version (channel_info c fetched))
         then releasedAt (channel_info c (latest d))
         else releasedAt (channel_info c fetched)
       | None => releasedAt (channel_info c fetched)
       end.
Proof.
  unfold reconcile. cbn [fst latest]. destruct prior as [d|].
  - rewrite latestVersions_compare_step. unfold channelChanged.
    destruct (String.eqb (version (channel_info c (latest d)))
                (version (channel_info c fetched)));
      cbn [negb]; repeat split.
  - repeat split.
Qed.

Lemma first_occurrences_length (l seen : list HistoryEntry) :
  List.length (first_occurrences seen l) <= List.length l.
Proof.
  revert seen. induction l as [|x t IH]; intros seen; simpl; [lia |].
  specialize (IH (seen ++ [x])).
  destruct (existsb (same_key x) seen); simpl; lia.
Qed.

Lemma merge_history_length (h : list HistoryEntry) :
  List.length (merge_history getTime h) <= List.length h.
Proof.
  rewrite (Permutation_length (merge_history_perm getTime h)).
  rewrite uniqueHistory_of_first_occurrences. apply first_occurrences_length.
Qed.

(** X2. Where the entries of the written history come from: each one is an
    entry of the prior history or the prior latest descriptor of a channel
    whose identifier changed, with the prior timestamp; the fetched
    descriptors never enter the history in the run that fetched them.  The
    history grows by at most one entry for each changed channel. *)
Theorem history_provenance (fetched : Latest) (d : VersionData) :
  (forall e, In e (history (fst (reconcile getTime fetched (Some d)))) ->
     In e (history d)
     \/ exists c, channelChanged c d fetched = true
                  /\ e = old_entry c (channel_info c (latest d)))
  /\ List.length (history (fst (reconcile getTime fetched (Some d))))
     <= List.length (history d) + changed_count stable d fetched
        + changed_count preview d fetched.
Proof.
  unfold reconcile. cbn [fst history]. split.
  - intros e He. apply merge_history_In in He. apply find_some in He.
    destruct He as [He _]. rewrite newHistory_compare_step in He.
    apply in_app_or in He. destruct He as [He | He]; [now left | right].
    exists (type e). now apply pushed_type.
  - eapply Nat.le_trans; [apply merge_history_length |].
    rewrite newHistory_compare_step, length_app. unfold pushed, changed_count.
    rewrite length_app.
    destruct (channelChanged stable d fetched), (channelChanged preview d fetched);
      simpl; lia.
Qed.

Lemma find_some_key (l : list HistoryEntry) (e : HistoryEntry) :
  In e l -> exists e0, find (same_key e) l = Some e0 /\ key e0 = key e.
Proof.
  intros Hin. destruct (find (same_key e) l) as [e0|] eqn:Hf.
  - exists e0. split; [reflexivity |].
    apply find_some in Hf. now apply same_key_iff.
  - exfalso. pose proof (find_none _ _ Hf e Hin) as H.
    now rewrite same_key_refl in H.
Qed.

Lemma merge_history_keys (h : list HistoryEntry) (k : Channel * string) :
  In k (map key (merge_history getTime h)) <-> In k (map key h).
Proof.
  rewrite !in_map_iff. split.
  - intros (e & Hk & He). exists e. split; [assumption |].
    apply merge_history_In in He. now apply find_some in He.
  - intros (e & Hk & He). destruct (find_some_key h e He) as (e0 & Hf & Hk0).
    exists e0. split; [congruence |].
    apply merge_history_In. eapply find_same_key. exact Hf.
Qed.

(** X3. With no assumption on the prior history, the (channel, identifier)
    pairs of the written history are exactly those of the prior history
    and of the entries pushed for the changed channels: the deduplication
    drops entries, never a pair. *)
Theorem history_keys_exact (fetched : Latest) (d : VersionData) (k : Channel * string) :
  In k (map key (history (fst (reconcile getTime fetched (Some d)))))
  <-> In k (map key (history d))
      \/ exists c, channelChanged c d fetched = true
                   /\ k = (c, version (channel_info c (latest d))).
Proof.
  unfold reconcile. cbn [fst history].
  rewrite merge_history_keys, newHistory_compare_step, map_app, in_app_iff.
  split; (intros [H | H]; [now left | right]).
  - apply in_map_iff in H. destruct H as (e & Hk & He).
    exists (type e). destruct (pushed_type (type e) fetched d e He eq_refl) as [Hc He'].
    split; [assumption |]. rewrite <- Hk. unfold key. f_equal.
    now rewrite He' at 1.
  - destruct H as (c & Hc & ->). apply in_map_iff.
    exists (old_entry c (channel_info c (latest d))). split; [reflexivity |].
    now apply pushed_changed.
Qed.

Lemma run_sequence_app (state : option VersionData) (fs1 fs2 : list Latest) :
  run_sequence getTime state (fs1 ++ fs2)
  = run_sequence getTime (run_sequence getTime state fs1) fs2.
Proof. unfold run_sequence. apply fold_left_app. Qed.

Lemma recorded_keys_step (state : option VersionData) (fetched : Latest)
    (k : Channel * string) :
  In k (recorded_keys state) ->
  In k (recorded_keys (Some (fst (reconcile getTime fetched state)))).
Proof.
  destruct state as [d|]; [| intros []].
  unfold recorded_keys. intros H.
  unfold reconcile. cbn [fst history].
  rewrite merge_history_keys, newHistory_compare_step, map_app, in_app_iff. now left.
Qed.

Lemma recorded_keys_kept (fetches : list Latest) (state : option VersionData)
    (k : Channel * string) :
  In k (recorded_keys state) -> In k (recorded_keys (run_sequence getTime state fetches)).
Proof.
  revert state. induction fetches as [|f fs IH]; intros state H; [exact H |].
  unfold run_sequence. cbn [fold_left]. apply IH. now apply recorded_keys_step.
Qed.

Lemma recorded_keys_NoDup_step (state : option VersionData) (fetched : Latest) :
  NoDup (recorded_keys (Some (fst (reconcile getTime fetched state)))).
Proof.
  unfold recorded_keys, reconcile. cbn [fst history]. apply merge_history_NoDup.
Qed.

(** X4. Over any number of runs, whatever they fetch: a (channel,
    identifier) pair that the history holds after some runs is still in the
    history after every later run, and after at least one run the history
    holds each pair once. *)
Theorem history_over_runs (state : option VersionData) (earlier later : list Latest) :
  (forall k, In k (recorded_keys (run_sequence getTime state earlier)) ->
             In k (recorded_keys (run_sequence getTime state (earlier ++ later))))
  /\ (earlier <> [] -> NoDup (recorded_keys (run_sequence getTime state earlier))).
Proof.
  split.
  - intros k H. rewrite run_sequence_app. now apply recorded_keys_kept.
  - intros Hne. destruct (exists_last Hne) as (fs & f & ->).
    rewrite run_sequence_app. unfold run_sequence at 1. cbn [fold_left].
    apply recorded_keys_NoDup_step.
Qed.

End RunFacts.

(** ** What [extractVersion] and [fetchLatestVersions] return *)

Lemma chars_app (a b : string) : chars (a ++ b)%string = chars a ++ chars b.
Proof.
  unfold chars. induction a as [|x a IH]; simpl; [reflexivity | now rewrite IH].
Qed.

Lemma app_prefix_split {A : Type} (l1 t1 l2 t2 : list A) :
  l1 ++ t1 = l2 ++ t2 -> List.length l1 <= List.length l2 ->
  exists q, l2 = l1 ++ q /\ t1 = q ++ t2.
Proof.
  revert l2. induction l1 as [|x l1 IH]; intros l2 Heq Hlen.
  - exists l2. now split.
  - destruct l2 as [|y l2]; simpl in Hlen; [lia |].
    simpl in Heq. inversion Heq; subst.
    destruct (IH l2) as (q & -> & ->); [assumption | lia |].
    exists q. now split.
Qed.

Lemma join_dots_chars (comps : list (list ascii)) :
  Forall is_number comps ->
  Forall (fun a => is_digit a = true \/ a = dot) (join_dots comps).
Proof.
  induction 1 as [|d comps [_ Hd] Hcomps IH]; [constructor |].
  assert (Hdig : Forall (fun a => is_digit a = true \/ a = dot) d).
  { eapply Forall_impl; [| exact Hd]. intros a Ha. now left. }
  cbn [join_dots]. destruct comps as [|d' comps']; [assumption |].
  apply Forall_app. split; [assumption |]. constructor; [now right | assumption].
Qed.

Lemma dotted_number_chars (v : list ascii) :
  dotted_number v -> Forall (fun a => is_digit a = true \/ a = dot) v.
Proof.
  intros (comps & -> & Hn & _). now apply join_dots_chars.
Qed.

(** After its first character, the text of a match has no [b]. *)
Lemma matched_text_tail (v : list ascii) :
  dotted_number v ->
  exists R, chars "bedrock-server-" ++ v ++ chars ".zip" = "b"%char :: R
            /\ Forall (fun a => a <> "b"%char) R.
Proof.
  intros Hv. eexists. split; [reflexivity |].
  cbn [chars list_ascii_of_string app].
  repeat (constructor; [discriminate |]).
  apply Forall_app. split.
  - eapply Forall_impl; [| exact (dotted_number_chars v Hv)].
    intros a [Ha | ->] Hb; subst; discriminate.
  - repeat (constructor; [discriminate |]). constructor.
Qed.

(** A match that starts before a text that begins with [b] ends before
    it. *)
Lemma earlier_match_inside (q T0 post1 v1 : list ascii) :
  q <> [] -> dotted_number v1 -> (exists T, T0 = "b"%char :: T) ->
  q ++ T0 = (chars "bedrock-server-" ++ v1 ++ chars ".zip") ++ post1 ->
  exists q2, q = (chars "bedrock-server-" ++ v1 ++ chars ".zip") ++ q2.
Proof.
  intros Hq Hv [T ->] Heq.
  destruct (matched_text_tail v1 Hv) as (R & HM & HR).
  set (M := chars "bedrock-server-" ++ v1 ++ chars ".zip") in *.
  destruct (Nat.le_gt_cases (List.length M) (List.length q)) as [Hle | Hgt].
  - symmetry in Heq. destruct (app_prefix_split _ _ _ _ Heq Hle) as (q2 & Hq2 & _).
    now exists q2.
  - exfalso.
    destruct (app_prefix_split _ _ _ _ Heq (Nat.lt_le_incl _ _ Hgt)) as (m & Hm & HT).
    destruct m as [|x m'].
    { rewrite app_nil_r in Hm. rewrite Hm in Hgt. lia. }
    simpl in HT. inversion HT; subst x.
    destruct q as [|y q1]; [congruence |].
    rewrite HM in Hm. simpl in Hm. inversion Hm; subst.
    rewrite Forall_forall in HR.
    apply (HR "b"%char); [| reflexivity].
    apply in_or_app. right. now left.
Qed.

Lemma first_capture_after (P v post : list ascii) :
  no_match P -> dotted_number v ->
  first_capture (P ++ chars "bedrock-server-" ++ v ++ chars ".zip" ++ post) v.
Proof.
  intros Hno Hv.
  exists P, (chars "bedrock-server-" ++ v ++ chars ".zip" ++ post).
  split; [reflexivity |]. split; [split; [assumption | now exists post] |].
  intros pre1 t1 v1 Heq [Hv1 [post1 Ht1]].
  destruct (Nat.le_gt_cases (List.length P) (List.length pre1)) as [Hle | Hgt];
    [assumption | exfalso].
  symmetry in Heq.
  destruct (app_prefix_split _ _ _ _ Heq (Nat.lt_le_incl _ _ Hgt)) as (q & HP & Hq).
  assert (Hne : q <> []).
  { intros ->. rewrite app_nil_r in HP. rewrite HP in Hgt. lia. }
  destruct (earlier_match_inside q
              (chars "bedrock-server-" ++ v ++ chars ".zip" ++ post) post1 v1 Hne Hv1)
    as (q2 & Hq2).
  { eexists. reflexivity. }
  { rewrite <- Hq, Ht1. now rewrite <- !app_assoc. }
  apply (Hno pre1 q v1 HP). split; [assumption |].
  exists q2. now rewrite Hq2, <- !app_assoc.
Qed.

(** X5. Extraction undoes the naming of the download: where the pattern
    matches nowhere in what precedes the file name, the dotted number
    written between "bedrock-server-" and ".zip" is what [extractVersion]
    returns, whatever follows. *)
Theorem extractVersion_of_file_name (pre v post : string) :
  extractVersion pre = None -> dotted_number (chars v) ->
  extractVersion (pre ++ "bedrock-server-" ++ v ++ ".zip" ++ post)%string = Some v.
Proof.
  intros Hpre Hv. apply extractVersion_some. rewrite !chars_app.
  apply first_capture_after; [now apply extractVersion_none | assumption].
Qed.

(** X6. The identifier of a channel is never empty: it is "unknown" or a
    dotted number of three or four components, so it holds nothing but
    digits and dots or is that one word. *)
Theorem resolveVersion_shape (primary secondary : string) :
  resolveVersion primary secondary <> EmptyString
  /\ (resolveVersion primary secondary = "unknown"
      \/ dotted_number (chars (resolveVersion primary secondary))
         /\ Forall (fun a => is_digit a = true \/ a = dot)
              (chars (resolveVersion primary secondary))).
Proof.
  assert (Hshape : forall url v, extractVersion url = Some v ->
                                 v <> EmptyString /\ dotted_number (chars v)).
  { intros url v H. split.
    - intros ->. exact (extractVersion_nonempty url H).
    - apply extractVersion_some in H. now destruct H as (? & ? & _ & [? _] & _). }
  unfold resolveVersion, js_or, js_or_default.
  destruct (extractVersion primary) as [p|] eqn:Hp.
  - destruct (Hshape _ _ Hp) as [Hne Hd]. destruct p as [|a p]; [congruence |].
    split; [discriminate | right]. split; [assumption | now apply dotted_number_chars].
  - destruct (extractVersion secondary) as [q|] eqn:Hs.
    + destruct (Hshape _ _ Hs) as [Hne Hd]. destruct q as [|a q]; [congruence |].
      split; [discriminate | right].
      split; [assumption | now apply dotted_number_chars].
    + split; [discriminate | now left].
Qed.

Lemma find_link_missing (t : string) (links : list DownloadLink) :
  (forall link, In link links -> downloadType link <> t) -> find_link t links = "".
Proof.
  intros H. unfold find_link.
  destruct (find (fun link => String.eqb (downloadType link) t) links) as [link|] eqn:Hf;
    [| reflexivity].
  apply find_some in Hf. destruct Hf as [Hin Heq].
  apply String.eqb_eq in Heq. exfalso. exact (H link Hin Heq).
Qed.

Section MissingLinks.

Variable getTime : string -> option Z.

(** X7. An answer of the API without the links of a channel: the fetched
    descriptor of that channel is the identifier "unknown" with two empty
    locators.  Against a prior state whose identifier of that channel is
    not "unknown" the run then reports a change, writes "unknown" as the
    latest identifier, and records the prior identifier in the history. *)
Theorem missing_links_unknown (c : Channel) (links : list DownloadLink) (now : string)
    (d : VersionData) :
  (forall link, In link links ->
     downloadType link <> fst (channel_types c)
     /\ downloadType link <> snd (channel_types c)) ->
  version (channel_info c (latest d)) <> "unknown" ->
  channel_info c (fetched_versions links now)
  = {| version := "unknown"; windows := ""; linux := ""; releasedAt := now |}
  /\ snd (reconcile getTime (fetched_versions links now) (Some d)) = true
  /\ version (channel_info c
                (latest (fst (reconcile getTime (fetched_versions links now) (Some d)))))
     = "unknown"
  /\ In (c, version (channel_info c (latest d)))
        (map key (history (fst (reconcile getTime (fetched_versions links now) (Some d))))).
Proof.
  intros Hmiss Hknown.
  assert (Hfetched : channel_info c (fetched_versions links now)
                     = {| version := "unknown"; windows := ""; linux := "";
                          releasedAt := now |}).
  { destruct c; cbn [channel_info fetched_versions l_stable l_preview channel_types fst snd]
      in *; rewrite !find_link_missing by (intros link Hl; now apply Hmiss);
      reflexivity. }
  assert (Hc : channelChanged c d (fetched_versions links now) = true).
  { unfold channelChanged. rewrite Hfetched. cbn [version].
    apply negb_true_iff. now apply String.eqb_neq. }
  split; [exact Hfetched |]. unfold reconcile. cbn [fst snd latest history].
  split; [| split].
  - rewrite hasChanges_compare_step. destruct c; rewrite Hc; [reflexivity |].
    apply orb_true_r.
  - now rewrite latestVersions_compare_step, Hc, Hfetched.
  - apply in_map_iff. exists (match find (same_key (old_entry c (channel_info c (latest d))))
                                      (history d ++ pushed (fetched_versions links now) d)
                                with
                                | Some e0 => e0
                                | None => old_entry c (channel_info c (latest d))
                                end).
    assert (Hin : In (old_entry c (channel_info c (latest d)))
                     (history d ++ pushed (fetched_versions links now) d)).
    { apply in_or_app. right. now apply pushed_changed. }
    destruct (find_some_key _ _ Hin) as (e0 & Hf & Hk). rewrite Hf. split.
    + rewrite Hk. reflexivity.
    + apply merge_history_In. rewrite newHistory_compare_step.
      eapply find_same_key. exact Hf.
Qed.

End MissingLinks.

Lemma find_filter {A : Type} (p q : A -> bool) (l : list A) :
  (forall x, p x = true -> q x = true) -> find p (filter q l) = find p l.
Proof.
  intros Hpq. induction l as [|x t IH]; simpl; [reflexivity |].
  destruct (q x) eqn:Hq; simpl.
  - now rewrite IH.
  - destruct (p x) eqn:Hp; [| assumption].
    rewrite (Hpq x Hp) in Hq. discriminate.
Qed.

Lemma find_link_filter (t : string) (links : list DownloadLink) :
  wanted_type t = true ->
  find_link t (filter (fun link => wanted_type (downloadType link)) links)
  = find_link t links.
Proof.
  intros Ht. unfold find_link. rewrite find_filter; [reflexivity |].
  intros link Hl. apply String.eqb_eq in Hl. now rewrite Hl.
Qed.

(** X8. Only the links of the four server download types count, and of each
    type only the first: links of any other type, wherever they stand in the
    answer, change nothing in what is fetched. *)
Theorem fetched_versions_other_links (links : list DownloadLink) (now : string) :
  fetched_versions (filter (fun link => wanted_type (downloadType link)) links) now
  = fetched_versions links now.
Proof.
  unfold fetched_versions. now rewrite !find_link_filter.
Qed.

(** ** The earlier revision *)

Module PreviousFacts.

Import Previous.

Lemma Versions_eq (a b : Versions) :
  p_stable a = p_stable b -> p_preview a = p_preview b -> a = b.
Proof. destruct a, b; simpl; congruence. Qed.

Lemma compare_flag (newVersions existing : Versions) :
  snd (compare newVersions (Some existing))
  = negb (String.eqb (p_version (p_stable existing)) (p_version (p_stable newVersions)))
    || negb (String.eqb (p_version (p_preview existing))
                        (p_version (p_preview newVersions))).
Proof.
  unfold compare.
  destruct (String.eqb (p_version (p_stable existing)) (p_version (p_stable newVersions))),
    (String.eqb (p_version (p_preview existing)) (p_version (p_preview newVersions)));
    reflexivity.
Qed.

(** The earlier revision keeps timestamps all or nothing. *)
Lemma previous_timestamps (newVersions existing : Versions) :
  (snd (compare newVersions (Some existing)) = true ->
   fst (compare newVersions (Some existing)) = newVersions)
  /\ (snd (compare newVersions (Some existing)) = false ->
      fst (compare newVersions (Some existing))
      = {| p_stable := set_updatedAt (p_stable newVersions) (updatedAt (p_stable existing));
           p_preview := set_updatedAt (p_preview newVersions)
                          (updatedAt (p_preview existing)) |}
      /\ p_version (p_stable newVersions) = p_version (p_stable existing)
      /\ p_version (p_preview newVersions) = p_version (p_preview existing)).
Proof.
  unfold compare.
  destruct (String.eqb_spec (p_version (p_stable existing))
              (p_version (p_stable newVersions))) as [Hs | Hs];
    destruct (String.eqb_spec (p_version (p_preview existing))
                (p_version (p_preview newVersions))) as [Hp | Hp];
    cbn [negb fst snd]; split; intros H; try discriminate; auto.
Qed.

(** X9. The earlier revision is idempotent too: run again on what it wrote,
    with the same descriptors fetched at any later time, it reports no
    change and writes the same object. *)
Theorem previous_idempotent (newVersions : Versions) (existing : option Versions)
    (later : string) :
  compare (fetched_at later newVersions) (Some (fst (compare newVersions existing)))
  = (fst (compare newVersions existing), false).
Proof.
  assert (Hv : p_version (p_stable (fst (compare newVersions existing)))
               = p_version (p_stable newVersions)
               /\ p_version (p_preview (fst (compare newVersions existing)))
                  = p_version (p_preview newVersions)
               /\ p_windows (p_stable (fst (compare newVersions existing)))
                  = p_windows (p_stable newVersions)
               /\ p_linux (p_stable (fst (compare newVersions existing)))
                  = p_linux (p_stable newVersions)
               /\ p_windows (p_preview (fst (compare newVersions existing)))
                  = p_windows (p_preview newVersions)
               /\ p_linux (p_preview (fst (compare newVersions existing)))
                  = p_linux (p_preview newVersions)).
  { unfold compare. destruct existing as [e|]; [| now repeat split].
    destruct (String.eqb (p_version (p_stable e)) (p_version (p_stable newVersions))),
      (String.eqb (p_version (p_preview e)) (p_version (p_preview newVersions)));
      now repeat split. }
  destruct Hv as (Hsv & Hpv & Hsw & Hsl & Hpw & Hpl).
  set (w := fst (compare newVersions existing)) in *.
  unfold compare at 1. cbn [fetched_at p_stable p_preview set_updatedAt p_version].
  rewrite Hsv, Hpv, !String.eqb_refl. cbn [negb]. f_equal.
  apply Versions_eq; cbn [p_stable p_preview].
  - destruct w as [[sv sw sl st] wp]. cbn in *. subst. reflexivity.
  - destruct w as [ws [pv pw pl pt]]. cbn in *. subst. reflexivity.
Qed.

Section Revisions.

Variable getTime : string -> option Z.

(** X10. The two revisions side by side, on the same fetched descriptors and
    the same stored latest entries.  They report the same flag, and for each
    channel they write the same identifier and locators.  The timestamps
    follow different rules: the current script writes the fetched timestamp
    for a channel exactly when that channel's identifier changed, the
    earlier one writes it for both channels as soon as either changed. *)
Theorem revisions_agree (fetched : Latest) (d : VersionData) (c : Channel) :
  snd (reconcile getTime fetched (Some d))
  = snd (compare (of_latest fetched) (Some (of_latest (latest d))))
  /\ of_info (channel_info c (latest (fst (reconcile getTime fetched (Some d)))))
     = set_updatedAt
         (channel_of c (fst (compare (of_latest fetched) (Some (of_latest (latest d))))))
         (if channelChanged c d fetched then releasedAt (channel_info c fetched)
          else releasedAt (channel_info c (latest d)))
  /\ updatedAt (channel_of c (fst (compare (of_latest fetched)
                                     (Some (of_latest (latest d))))))
     = (if channelChanged stable d fetched || channelChanged preview d fetched
        then releasedAt (channel_info c fetched)
        else releasedAt (channel_info c (latest d))).
Proof.
  assert (Hflag : snd (compare (of_latest fetched) (Some (of_latest (latest d))))
                  = channelChanged stable d fetched || channelChanged preview d fetched).
  { rewrite compare_flag. reflexivity. }
  assert (Hprev : fst (compare (of_latest fetched) (Some (of_latest (latest d))))
                  = if channelChanged stable d fetched || channelChanged preview d fetched
                    then of_latest fetched
                    else {| p_stable := set_updatedAt (of_info (l_stable fetched))
                                          (releasedAt (l_stable (latest d)));
                            p_preview := set_updatedAt (of_info (l_preview fetched))
                                           (releasedAt (l_preview (latest d))) |}).
  { destruct (previous_timestamps (of_latest fetched) (of_latest (latest d))) as [Ht Hf].
    rewrite Hflag in Ht, Hf.
    destruct (channelChanged stable d fetched || channelChanged preview d fetched).
    - now apply Ht.
    - now destruct (Hf eq_refl) as [-> _]. }
  split; [| split].
  - unfold reconcile. cbn [snd]. rewrite hasChanges_compare_step. now rewrite Hflag.
  - unfold reconcile. cbn [fst latest].
    rewrite latestVersions_compare_step, Hprev.
    destruct c, (channelChanged stable d fetched), (channelChanged preview d fetched);
      reflexivity.
  - rewrite Hprev.
    destruct c, (channelChanged stable d fetched), (channelChanged preview d fetched);
      reflexivity.
Qed.

End Revisions.

End PreviousFacts.

(** ** Quoting and unquoting strings *)

Lemma scan_string_escape_char (a : ascii) (t : list ascii) :
  scan_string (escape_char a ++ t)
  = option_map (fun r => (escape_char a ++ fst r, snd r)) (scan_string t).
Proof.
  destruct a as [[] [] [] [] [] [] [] []]; reflexivity.
Qed.

(** What QuoteJSONString writes is read as one string lexeme, up to the
    closing quote. *)
Lemma scan_string_escape (s rest : list ascii) :
  scan_string (escape s ++ quote_char :: rest) = Some (escape s, rest).
Proof.
  induction s as [|a s IH]; [reflexivity |].
  unfold escape in *. cbn [flat_map]. rewrite <- app_assoc.
  rewrite scan_string_escape_char, IH. reflexivity.
Qed.

Lemma unescape_escape_char (a : ascii) (t : list ascii) :
  unescape (escape_char a ++ t) = option_map (cons a) (unescape t).
Proof.
  destruct a as [[] [] [] [] [] [] [] []];
    first [reflexivity | cbn; now destruct (unescape t)].
Qed.

(** Unquoting what QuoteJSONString wrote gives the string back. *)
Lemma unescape_escape (s : list ascii) : unescape (escape s) = Some s.
Proof.
  induction s as [|a s IH]; [reflexivity |].
  unfold escape in *. cbn [flat_map].
  rewrite unescape_escape_char, IH. reflexivity.
Qed.

(** ** Printing and parsing *)

Section json_induction.

Variable P : json -> Prop.
Hypothesis Hnull : P JNull.
Hypothesis Hbool : forall b, P (JBool b).
Hypothesis Hnumber : forall lexeme, P (JNumber lexeme).
Hypothesis Hstring : forall lexeme, P (JString lexeme).
Hypothesis Harray : forall elements, Forall P elements -> P (JArray elements).
Hypothesis Hobject :
  forall members, Forall (fun member => P (snd member)) members -> P (JObject members).

Lemma json_induction (j : json) : P j.
Proof.
  revert j. fix IH 1. intros [| b | lexeme | lexeme | elements | members].
  - exact Hnull.
  - exact (Hbool b).
  - exact (Hnumber lexeme).
  - exact (Hstring lexeme).
  - apply Harray. induction elements as [|x t IHt]; constructor; [apply IH | exact IHt].
  - apply Hobject. induction members as [|[k v] t IHt]; constructor;
      [apply IH | exact IHt].
Qed.

End json_induction.

Lemma skip_ws_spaces (n : nat) (s : list ascii) : skip_ws (spaces n ++ s) = skip_ws s.
Proof. induction n as [|n IH]; [reflexivity | exact IH]. Qed.

Lemma skip_ws_line (n : nat) (s : list ascii) :
  skip_ws (newline :: spaces n ++ s) = skip_ws s.
Proof. cbn [skip_ws]. change (is_ws newline) with true. apply skip_ws_spaces. Qed.

Lemma skip_ws_head (a : ascii) (s : list ascii) :
  is_ws a = false -> skip_ws (a :: s) = a :: s.
Proof. intros H. cbn [skip_ws]. now rewrite H. Qed.

(** A printed value starts with a character that is no white space and no
    closing bracket. *)
Lemma print_json_head (j : json) (indent : nat) :
  printable j ->
  exists a s, print_json indent j = a :: s /\ is_ws a = false /\ a <> "]"%char.
Proof.
  intros Hp. destruct Hp as [| [] | lexeme _ | [|x t] _ | [|m t] _];
    cbn [print_json list_ascii_of_string app]; eexists; eexists;
    (split; [reflexivity | split; [reflexivity | discriminate]]).
Qed.

Lemma parse_value_array (f : nat) (t : list ascii) :
  parse_value (S f) ("["%char :: t)
  = match skip_ws t with
    | "]"%char :: t' => Some (JArray [], t')
    | t' => option_map (fun r => (JArray (fst r), snd r)) (parse_elements f t')
    end.
Proof. reflexivity. Qed.

Lemma parse_value_object (f : nat) (t : list ascii) :
  parse_value (S f) ("{"%char :: t)
  = match skip_ws t with
    | "}"%char :: t' => Some (JObject [], t')
    | t' => option_map (fun r => (JObject (fst r), snd r)) (parse_members f t')
    end.
Proof. reflexivity. Qed.

Lemma parse_value_string (f : nat) (t : list ascii) :
  parse_value (S f) (quote_char :: t)
  = option_map (fun r => (JString (fst r), snd r)) (scan_string t).
Proof. reflexivity. Qed.

Lemma parse_elements_step (f : nat) (s : list ascii) :
  parse_elements (S f) s
  = match parse_value f (skip_ws s) with
    | None => None
    | Some (v, t) =>
      match skip_ws t with
      | ","%char :: t' =>
        option_map (fun r => (v :: fst r, snd r)) (parse_elements f t')
      | "]"%char :: t' => Some ([v], t')
      | _ => None
      end
    end.
Proof. reflexivity. Qed.

Lemma parse_members_step (f : nat) (s : list ascii) :
  parse_members (S f) s
  = match skip_ws s with
    | q :: t0 =>
      if (nat_of_ascii q =? 34)%nat then
        match scan_string t0 with
        | None => None
        | Some (name, t1) =>
          match skip_ws t1 with
          | ":"%char :: t2 =>
            match parse_value f (skip_ws t2) with
            | None => None
            | Some (v, t3) =>
              match skip_ws t3 with
              | ","%char :: t4 =>
                option_map (fun r => ((name, v) :: fst r, snd r)) (parse_members f t4)
              | "}"%char :: t4 => Some ([(name, v)], t4)
              | _ => None
              end
            end
          | _ => None
          end
        end
      else None
    | [] => None
    end.
Proof. reflexivity. Qed.

Lemma not_closing_bracket {B : Type} (a : ascii) (s : list ascii)
    (X : list ascii -> B) (Y : list ascii -> B) :
  a <> "]"%char ->
  match a :: s with
  | "]"%char :: t' => X t'
  | t' => Y t'
  end = Y (a :: s).
Proof.
  intros Ha. destruct a as [[] [] [] [] [] [] [] []]; try reflexivity.
  now elim Ha.
Qed.

Lemma skip_ws_all (ws s : list ascii) :
  Forall (fun a => is_ws a = true) ws -> skip_ws (ws ++ s) = skip_ws s.
Proof.
  induction 1 as [|a ws Ha _ IH]; [reflexivity |].
  cbn [app skip_ws]. now rewrite Ha.
Qed.

Lemma skip_ws_print (j : json) (indent : nat) (s : list ascii) :
  printable j -> skip_ws (print_json indent j ++ s) = print_json indent j ++ s.
Proof.
  intros Hp. destruct (print_json_head j indent Hp) as (a & t & -> & Hws & _).
  cbn [app]. now apply skip_ws_head.
Qed.

Lemma line_is_ws (n : nat) : Forall (fun a => is_ws a = true) (newline :: spaces n).
Proof.
  constructor; [reflexivity |]. induction n; constructor; [reflexivity | assumption].
Qed.

Lemma join_lines_cons (indent : nat) (x y : list ascii) (t : list (list ascii)) :
  join_lines indent (x :: y :: t)
  = x ++ ","%char :: newline :: spaces indent ++ join_lines indent (y :: t).
Proof. reflexivity. Qed.

Lemma parse_elements_print (l : list json) :
  l <> [] -> Forall printable l -> Forall parses_back l ->
  forall indent closing ws rest fuel,
    Forall (fun a => is_ws a = true) ws ->
    list_sum (map (fun x => S (json_size x)) l) <= fuel ->
    parse_elements fuel
      (ws ++ join_lines indent (map (print_json indent) l)
          ++ newline :: spaces closing ++ "]"%char :: rest)
    = Some (l, rest).
Proof.
  induction l as [|x t IH]; [congruence |].
  intros _ Hp Hb indent closing ws rest fuel Hws Hfuel.
  inversion Hp as [|? ? Hpx Hpt]; subst. inversion Hb as [|? ? Hbx Hbt]; subst.
  change (list_sum (map (fun x => S (json_size x)) (x :: t)))
    with (S (json_size x) + list_sum (map (fun x => S (json_size x)) t)) in Hfuel.
  destruct fuel as [|f]; [lia |].
  assert (Hfx : json_size x <= f) by lia.
  assert (Hft : list_sum (map (fun x => S (json_size x)) t) <= f) by lia.
  rewrite parse_elements_step, skip_ws_all by assumption.
  destruct t as [|y ys].
  - cbn [map join_lines]. rewrite skip_ws_print by assumption.
    rewrite Hbx by assumption.
    rewrite skip_ws_line, skip_ws_head by reflexivity. reflexivity.
  - cbn [map]. rewrite join_lines_cons, <- app_assoc. cbn [app]. rewrite <- app_assoc.
    rewrite skip_ws_print by assumption.
    rewrite Hbx by assumption.
    rewrite skip_ws_head by reflexivity.
    pose proof (IH ltac:(discriminate) Hpt Hbt indent closing (newline :: spaces indent)
                  rest f (line_is_ws indent) Hft) as Hrest.
    cbn [app map] in Hrest. cbv beta iota. rewrite Hrest. reflexivity.
Qed.

Lemma not_closing_brace {B : Type} (a : ascii) (s : list ascii)
    (X : list ascii -> B) (Y : list ascii -> B) :
  a <> "}"%char ->
  match a :: s with
  | "}"%char :: t' => X t'
  | t' => Y t'
  end = Y (a :: s).
Proof.
  intros Ha. destruct a as [[] [] [] [] [] [] [] []]; try reflexivity.
  now elim Ha.
Qed.

Lemma quote_is_no_brace : quote_char <> "}"%char.
Proof. intros H. vm_compute in H. discriminate H. Qed.

Lemma parse_member_print (f : nat) (ws name : list ascii) (value : json) (indent : nat)
    (tail : list ascii) :
  Forall (fun a => is_ws a = true) ws -> valid_lexeme name ->
  printable value -> parses_back value -> json_size value <= f ->
  parse_members (S f)
    (ws ++ (quote_char :: name ++ quote_char :: ":"%char :: " "%char
            :: print_json indent value) ++ tail)
  = match skip_ws tail with
    | ","%char :: t4 =>
      option_map (fun r => ((name, value) :: fst r, snd r)) (parse_members f t4)
    | "}"%char :: t4 => Some ([(name, value)], t4)
    | _ => None
    end.
Proof.
  intros Hws Hname Hp Hb Hf.
  rewrite parse_members_step, skip_ws_all by assumption.
  cbn [app]. rewrite <- app_assoc. cbn [app].
  rewrite skip_ws_head by reflexivity.
  change (nat_of_ascii quote_char =? 34)%nat with true. cbv beta iota.
  rewrite Hname. rewrite skip_ws_head by reflexivity. cbv beta iota.
  change (skip_ws (" "%char :: print_json indent value ++ tail))
    with (skip_ws (print_json indent value ++ tail)).
  rewrite skip_ws_print by assumption. rewrite Hb by assumption. reflexivity.
Qed.

Lemma parse_members_print (m : list (list ascii * json)) :
  m <> [] ->
  Forall (fun member => valid_lexeme (fst member) /\ printable (snd member)) m ->
  Forall (fun member => parses_back (snd member)) m ->
  forall indent closing ws rest fuel,
    Forall (fun a => is_ws a = true) ws ->
    list_sum (map (fun member : list ascii * json =>
                     let (_, value) := member in S (json_size value)) m) <= fuel ->
    parse_members fuel
      (ws ++ join_lines indent
               (map (fun member : list ascii * json =>
                       let (name, value) := member in
                       quote_char :: name ++ quote_char :: ":"%char :: " "%char
                       :: print_json indent value) m)
          ++ newline :: spaces closing ++ "}"%char :: rest)
    = Some (m, rest).
Proof.
  induction m as [|[k v] t IH]; [congruence |].
  intros _ Hp Hb indent closing ws rest fuel Hws Hfuel.
  inversion Hp as [|? ? [Hk Hpv] Hpt]; subst. inversion Hb as [|? ? Hbv Hbt]; subst.
  cbn [fst snd] in *.
  change (list_sum (map (fun member : list ascii * json =>
                           let (_, value) := member in S (json_size value))
                        ((k, v) :: t)))
    with (S (json_size v)
          + list_sum (map (fun member : list ascii * json =>
                             let (_, value) := member in S (json_size value)) t))
    in Hfuel.
  destruct fuel as [|f]; [lia |].
  assert (Hfv : json_size v <= f) by lia.
  assert (Hft : list_sum (map (fun member : list ascii * json =>
                                 let (_, value) := member in S (json_size value)) t)
                <= f) by lia.
  destruct t as [|[k' v'] ms].
  - cbn [map join_lines].
    rewrite parse_member_print by assumption.
    rewrite skip_ws_line, skip_ws_head by reflexivity. reflexivity.
  - cbn [map]. rewrite join_lines_cons, <- app_assoc.
    rewrite parse_member_print by assumption.
    cbn [app]. rewrite skip_ws_head by reflexivity.
    pose proof (IH ltac:(discriminate) Hpt Hbt indent closing (newline :: spaces indent)
                  rest f (line_is_ws indent) Hft) as Hrest.
    cbn [app map] in Hrest. cbv beta iota. rewrite <- app_assoc. rewrite Hrest.
    reflexivity.
Qed.

(** Parsing what was printed gives the value back. *)
Lemma parse_print (j : json) : printable j -> parses_back j.
Proof.
  induction j as [| b | lexeme | lexeme | elements IH | members IH] using json_induction;
    intros Hp indent rest fuel Hfuel; cbn [json_size] in Hfuel;
    (destruct fuel as [|f]; [lia |]).
  - reflexivity.
  - destruct b; reflexivity.
  - inversion Hp.
  - inversion Hp as [| | ? Hlex | |]; subst.
    cbn [print_json app]. rewrite <- app_assoc. cbn [app].
    rewrite parse_value_string, Hlex. reflexivity.
  - inversion Hp as [| | | ? Hall |]; subst.
    assert (Hback : Forall parses_back elements).
    { rewrite Forall_forall in *. intros x Hx. apply IH; auto. }
    destruct elements as [|x t]; [reflexivity |].
    cbn [print_json app]. rewrite parse_value_array.
    repeat (rewrite <- app_assoc; cbn [app]). rewrite skip_ws_line.
    inversion Hall as [|? ? Hpx _]; subst.
    change (print_json (indent + 2) x :: map (print_json (indent + 2)) t)
      with (map (print_json (indent + 2)) (x :: t)).
    destruct (print_json_head x (indent + 2) Hpx) as (a & s & Hhead & Hws & Hne).
    assert (Hskip : skip_ws (join_lines (indent + 2) (map (print_json (indent + 2)) (x :: t))
                             ++ newline :: spaces indent ++ "]"%char :: rest)
                    = join_lines (indent + 2) (map (print_json (indent + 2)) (x :: t))
                      ++ newline :: spaces indent ++ "]"%char :: rest
                    /\ exists s', join_lines (indent + 2)
                                    (map (print_json (indent + 2)) (x :: t))
                                  ++ newline :: spaces indent ++ "]"%char :: rest
                                  = a :: s').
    { cbn [map]. destruct t as [|y ys].
      - cbn [map join_lines]. rewrite Hhead. cbn [app].
        split; [now apply skip_ws_head | eauto].
      - cbn [map]. rewrite join_lines_cons, Hhead. cbn [app].
        split; [now apply skip_ws_head | eauto]. }
    destruct Hskip as [Hskip [s' Hs']]. rewrite Hskip.
    pose proof (parse_elements_print (x :: t) ltac:(discriminate) Hall Hback
                  (indent + 2) indent [] rest f (Forall_nil _) ltac:(lia)) as Hel.
    cbn [app] in Hel. rewrite Hs' in *.
    refine (eq_trans
              (not_closing_bracket a s' (fun t' => Some (JArray [], t'))
                 (fun t' => option_map
                              (fun r : list json * list ascii => (JArray (fst r), snd r))
                              (parse_elements f t')) Hne) _).
    rewrite Hel. reflexivity.
  - inversion Hp as [| | | | ? Hall]; subst.
    assert (Hback : Forall (fun member => parses_back (snd member)) members).
    { rewrite Forall_forall in *. intros x Hx. apply IH; [assumption |].
      now apply Hall. }
    destruct members as [|[k v] t]; [reflexivity |].
    cbn [print_json app]. rewrite parse_value_object.
    repeat (rewrite <- app_assoc; cbn [app]). rewrite skip_ws_line.
    pose proof (parse_members_print ((k, v) :: t) ltac:(discriminate) Hall Hback
                  (indent + 2) indent [] rest f (Forall_nil _) ltac:(lia)) as Hm.
    cbn [app] in Hm.
    destruct t as [|[k' v'] ms].
    + cbn [map join_lines] in *. cbn [app] in *.
      repeat (rewrite <- app_assoc in Hm; cbn [app] in Hm).
      repeat (rewrite <- app_assoc; cbn [app]).
      rewrite skip_ws_head by reflexivity.
      refine (eq_trans
                (not_closing_brace quote_char _ (fun t' => Some (JObject [], t'))
                   (fun t' => option_map
                                (fun r : list (list ascii * json) * list ascii =>
                                   (JObject (fst r), snd r))
                                (parse_members f t')) quote_is_no_brace) _).
      rewrite Hm. reflexivity.
    + cbn [map] in *. rewrite join_lines_cons in *. cbn [app] in *.
      repeat (rewrite <- app_assoc in Hm; cbn [app] in Hm).
      repeat (rewrite <- app_assoc; cbn [app]).
      rewrite skip_ws_head by reflexivity.
      refine (eq_trans
                (not_closing_brace quote_char _ (fun t' => Some (JObject [], t'))
                   (fun t' => option_map
                                (fun r : list (list ascii * json) * list ascii =>
                                   (JObject (fst r), snd r))
                                (parse_members f t')) quote_is_no_brace) _).
      rewrite Hm. reflexivity.
Qed.

Lemma join_lines_weight {A : Type} (w : A -> nat) (pr : A -> list ascii) (indent : nat)
    (l : list A) :
  Forall (fun x => w x <= S (List.length (pr x))) l ->
  list_sum (map w l) <= S (List.length (join_lines indent (map pr l))).
Proof.
  induction l as [|x t IH]; intros H; [cbn; lia |].
  inversion H as [|? ? Hx Ht]; subst. specialize (IH Ht).
  change (list_sum (map w (x :: t))) with (w x + list_sum (map w t)).
  destruct t as [|y t'].
  - cbn [map join_lines list_sum fold_right]. lia.
  - cbn [map]. rewrite join_lines_cons. cbn [map] in IH.
    rewrite length_app. cbn [List.length]. rewrite length_app. lia.
Qed.

(** The fuel that [JSON_parse] gives is enough for what was printed. *)
Lemma print_json_size (j : json) (indent : nat) :
  printable j -> json_size j <= List.length (print_json indent j).
Proof.
  revert indent.
  induction j as [| b | lexeme | lexeme | elements IH | members IH] using json_induction;
    intros indent Hp.
  - cbn. lia.
  - destruct b; cbn; lia.
  - inversion Hp.
  - cbn [json_size print_json List.length]. lia.
  - inversion Hp as [| | | ? Hall |]; subst.
    destruct elements as [|x t]; [cbn; lia |].
    cbn [json_size print_json].
    pose proof (join_lines_weight (fun x => S (json_size x)) (print_json (indent + 2))
                  (indent + 2) (x :: t)) as Hw.
    cbn [List.length]. rewrite !length_app.
    assert (Hall' : Forall (fun x => S (json_size x)
                                     <= S (List.length (print_json (indent + 2) x)))
                           (x :: t)).
    { rewrite Forall_forall in *. intros y Hy. apply le_n_S. apply IH; auto. }
    specialize (Hw Hall'). cbn [List.length]. lia.
  - inversion Hp as [| | | | ? Hall]; subst.
    destruct members as [|[k v] t]; [cbn; lia |].
    cbn [json_size print_json].
    pose proof (join_lines_weight
                  (fun member : list ascii * json =>
                     let (_, value) := member in S (json_size value))
                  (fun member : list ascii * json =>
                     let (name, value) := member in
                     quote_char :: name ++ quote_char :: ":"%char :: " "%char
                     :: print_json (indent + 2) value)
                  (indent + 2) ((k, v) :: t)) as Hw.
    cbn [List.length]. rewrite !length_app.
    assert (Hall' : Forall (fun member : list ascii * json =>
                              (let (_, value) := member in S (json_size value))
                              <= S (List.length
                                      (let (name, value) := member in
                                       quote_char :: name ++ quote_char :: ":"%char
                                       :: " "%char :: print_json (indent + 2) value)))
                           ((k, v) :: t)).
    { rewrite Forall_forall in *. intros [k' v'] Hy.
      cbn [List.length]. rewrite length_app. cbn [List.length].
      pose proof (IH (k', v') Hy (indent + 2) (proj2 (Hall _ Hy))) as Hv.
      cbn [snd] in Hv. lia. }
    specialize (Hw Hall'). cbn [List.length]. lia.
Qed.

(** [JSON.parse(JSON.stringify(value, null, 2) + '\n')] is the value. *)
Lemma JSON_parse_print (j : json) :
  printable j ->
  JSON_parse (string_of_list_ascii (print_json 0 j ++ [newline])) = Returned j.
Proof.
  intros Hp. unfold JSON_parse. rewrite list_ascii_of_string_of_list_ascii.
  rewrite skip_ws_print by assumption.
  rewrite (parse_print j Hp).
  - reflexivity.
  - rewrite length_app. pose proof (print_json_size j 0 Hp). lia.
Qed.

(** ** What [main] writes, read back *)

Lemma valid_lexeme_escape (s : list ascii) : valid_lexeme (escape s).
Proof. intros rest. apply scan_string_escape. Qed.

Lemma printable_json_string (s : string) : printable (json_string s).
Proof. constructor. apply valid_lexeme_escape. Qed.

Lemma valid_lexeme_name (name : string) :
  escape (list_ascii_of_string name) = list_ascii_of_string name ->
  valid_lexeme (list_ascii_of_string name).
Proof. intros <-. apply valid_lexeme_escape. Qed.

Lemma printable_info_json (info : VersionInfo) : printable (info_json info).
Proof.
  constructor.
  repeat (constructor;
          [split; [now apply valid_lexeme_name | apply printable_json_string] |]).
  constructor.
Qed.

Lemma printable_entry_json (e : HistoryEntry) : printable (entry_json e).
Proof.
  constructor.
  repeat (constructor;
          [split; [now apply valid_lexeme_name | apply printable_json_string] |]).
  constructor.
Qed.

Lemma printable_to_json (d : VersionData) : printable (to_json d).
Proof.
  constructor. constructor; [| constructor; [| constructor]].
  - split; [now apply valid_lexeme_name |].
    constructor.
    repeat (constructor;
            [split; [now apply valid_lexeme_name | apply printable_info_json] |]).
    constructor.
  - split; [now apply valid_lexeme_name |].
    constructor. apply Forall_forall. intros x Hx.
    apply in_map_iff in Hx. destruct Hx as [e [<- _]]. apply printable_entry_json.
Qed.

Lemma printable_previous_info_json (info : Previous.ChannelInfo) :
  printable (previous_info_json info).
Proof.
  constructor.
  repeat (constructor;
          [split; [now apply valid_lexeme_name | apply printable_json_string] |]).
  constructor.
Qed.

Lemma printable_previous_to_json (v : Previous.Versions) : printable (previous_to_json v).
Proof.
  constructor.
  repeat (constructor;
          [split; [now apply valid_lexeme_name | apply printable_previous_info_json] |]).
  constructor.
Qed.

Lemma as_string_json_string (s : string) : as_string (Some (json_string s)) = Some s.
Proof.
  unfold as_string, json_string. rewrite unescape_escape. cbn [option_map].
  now rewrite string_of_list_ascii_of_string.
Qed.

Lemma get_cons (name : string) (k : list ascii) (v : json)
    (t : list (list ascii * json)) :
  get name ((k, v) :: t)
  = match get name t with
    | Some later => Some later
    | None => if key_is name k then Some v else None
    end.
Proof. reflexivity. Qed.

Ltac get_member :=
  repeat (rewrite get_cons;
          match goal with
          | |- context [key_is ?n (list_ascii_of_string ?k)] =>
            let b := eval vm_compute in (key_is n (list_ascii_of_string k)) in
            change (key_is n (list_ascii_of_string k)) with b
          end);
  cbn [get].

Lemma as_info_info_json (info : VersionInfo) : as_info (Some (info_json info)) = Some info.
Proof.
  unfold as_info, info_json, get_prop. get_member.
  rewrite !as_string_json_string. now destruct info.
Qed.

Lemma as_channel_name (c : Channel) : as_channel (channel_name c) = Some c.
Proof. now destruct c. Qed.

Lemma as_entry_entry_json (e : HistoryEntry) : as_entry (entry_json e) = Some e.
Proof.
  unfold as_entry, entry_json.
  change (key_is "type" (list_ascii_of_string "type")) with true.
  change (key_is "version" (list_ascii_of_string "version")) with true.
  change (key_is "windows" (list_ascii_of_string "windows")) with true.
  change (key_is "linux" (list_ascii_of_string "linux")) with true.
  change (key_is "releasedAt" (list_ascii_of_string "releasedAt")) with true.
  cbn [andb]. rewrite !as_string_json_string, as_channel_name. now destruct e.
Qed.

Lemma as_entries_entry_json (h : list HistoryEntry) :
  as_entries (map entry_json h) = Some h.
Proof.
  induction h as [|e t IH]; [reflexivity |].
  cbn [map as_entries]. now rewrite as_entry_entry_json, IH.
Qed.

Lemma as_VersionData_to_json (d : VersionData) : as_VersionData (to_json d) = Some d.
Proof.
  unfold as_VersionData, to_json. cbn [get_prop]. get_member.
  cbn [get_prop]. get_member.
  fold (info_json (l_stable (latest d))). fold (info_json (l_preview (latest d))).
  rewrite !as_info_info_json. cbn [as_history]. rewrite as_entries_entry_json.
  destruct d as [[s p] h]. reflexivity.
Qed.

Lemma property_chain_to_json (d : VersionData) : property_chain_throws (to_json d) = false.
Proof.
  unfold property_chain_throws, to_json. cbn [get_prop]. get_member.
  cbn [get_prop]. get_member. reflexivity.
Qed.

Lemma read_existing_to_json (d : VersionData) : read_existing (to_json d) = Present d.
Proof.
  unfold read_existing.
  change (to_json d) with (JObject [ (list_ascii_of_string "latest",
             JObject [ (list_ascii_of_string "stable", info_json (l_stable (latest d)));
                       (list_ascii_of_string "preview", info_json (l_preview (latest d))) ]);
            (list_ascii_of_string "history", JArray (map entry_json (history d))) ]) at 1.
  cbv beta iota.
  change (JObject _) with (to_json d).
  now rewrite property_chain_to_json, as_VersionData_to_json.
Qed.

Lemma read_existing_previous (v : Previous.Versions) :
  read_existing (previous_to_json v) = TypeError.
Proof.
  unfold read_existing, previous_to_json, property_chain_throws. cbn [get_prop].
  get_member. reflexivity.
Qed.

(** ** [main], from the fetch to the exit code *)

Section MainFacts.

Variable getTime : string -> option Z.
Variable join : string -> string -> string.
Variable writeFile : FileSystem -> string -> string -> FileSystem * option string.

Lemma load_written (fs : FileSystem) (path : string) (j : json) :
  printable j ->
  lookup path fs = Some (File (string_of_list_ascii (print_json 0 j ++ [newline]))) ->
  loadExistingData fs path = Returned j.
Proof.
  intros Hp Hfile. unfold loadExistingData, existsSync, readFile. rewrite Hfile.
  cbn [negb bind]. rewrite JSON_parse_print by assumption. reflexivity.
Qed.

Lemma files_compare_and_write (process : Process) (fetched : Latest)
    (out1 : list string) (fs : FileSystem) (existingData : option VersionData) :
  files (compare_and_write getTime join writeFile process fetched out1 fs existingData)
  = fst (writeFile fs (output_path join process)
           (written_text (fst (reconcile getTime fetched existingData)))).
Proof.
  unfold compare_and_write. cbv zeta.
  now destruct (snd (writeFile _ _ _)).
Qed.

Lemma exitCode_compare_and_write (process : Process) (fetched : Latest)
    (out1 : list string) (fs : FileSystem) (existingData : option VersionData) :
  exitCode (compare_and_write getTime join writeFile process fetched out1 fs existingData) = 0%Z ->
  snd (writeFile fs (output_path join process)
         (written_text (fst (reconcile getTime fetched existingData)))) = None.
Proof.
  unfold compare_and_write. cbv zeta.
  destruct (snd (writeFile _ _ _)); [discriminate | reflexivity].
Qed.

(** A state whose latest entries carry the fetched descriptors and whose
    history is already merged is written again as it is. *)
Lemma reconcile_fixed (fetched : Latest) (d : VersionData) :
  (forall c, version (channel_info c (latest d)) = version (channel_info c fetched)
             /\ windows (channel_info c (latest d)) = windows (channel_info c fetched)
             /\ linux (channel_info c (latest d)) = linux (channel_info c fetched)) ->
  merge_history getTime (history d) = history d ->
  reconcile getTime fetched (Some d) = (d, false).
Proof.
  intros Hsame Hmerged.
  assert (Hc : forall c, channelChanged c d fetched = false).
  { intros c. unfold channelChanged. destruct (Hsame c) as [Hv _].
    rewrite Hv. now rewrite String.eqb_refl. }
  unfold reconcile. f_equal.
  - destruct d as [lat hist]. cbn [latest history] in *. f_equal.
    + apply Latest_eq.
      * change (l_stable ?x) with (channel_info stable x).
        rewrite latestVersions_compare_step, Hc. cbn [latest].
        destruct (Hsame stable) as (Hv & Hw & Hl). cbn [channel_info] in *.
        destruct (l_stable lat). cbn in *. unfold set_releasedAt. cbn. congruence.
      * change (l_preview ?x) with (channel_info preview x).
        rewrite latestVersions_compare_step, Hc. cbn [latest].
        destruct (Hsame preview) as (Hv & Hw & Hl). cbn [channel_info] in *.
        destruct (l_preview lat). cbn in *. unfold set_releasedAt. cbn. congruence.
    + rewrite newHistory_compare_step. unfold pushed. rewrite !Hc.
      cbn [history app]. rewrite app_nil_r. exact Hmerged.
  - rewrite hasChanges_compare_step, !Hc. reflexivity.
Qed.

Lemma reconcile_carries (fetched : Latest) (prior : option VersionData) (c : Channel) :
  version (channel_info c (latest (fst (reconcile getTime fetched prior))))
  = version (channel_info c fetched)
  /\ windows (channel_info c (latest (fst (reconcile getTime fetched prior))))
     = windows (channel_info c fetched)
  /\ linux (channel_info c (latest (fst (reconcile getTime fetched prior))))
     = linux (channel_info c fetched).
Proof.
  unfold reconcile. cbn [fst latest]. destruct prior as [d|].
  - rewrite latestVersions_compare_step.
    now destruct (channelChanged c d fetched).
  - now repeat split.
Qed.

Lemma reconcile_merged (fetched : Latest) (prior : option VersionData) :
  merge_history getTime (history (fst (reconcile getTime fetched prior)))
  = history (fst (reconcile getTime fetched prior)).
Proof. unfold reconcile. cbn [fst history]. apply merge_history_idempotent. Qed.

Lemma fetched_versions_later (l : list DownloadLink) (now later : string) :
  fetched_versions l later = fetched_at later (fetched_versions l now).
Proof. reflexivity. Qed.

Lemma reconcile_rerun (l : list DownloadLink) (now later : string)
    (prior : option VersionData) :
  reconcile getTime (fetched_versions l later)
    (Some (fst (reconcile getTime (fetched_versions l now) prior)))
  = (fst (reconcile getTime (fetched_versions l now) prior), false).
Proof.
  apply reconcile_fixed; [| apply reconcile_merged].
  intros c. destruct (reconcile_carries (fetched_versions l now) prior c) as (Hv & Hw & Hl).
  rewrite Hv, Hw, Hl. now destruct c.
Qed.

Lemma main_success (process : Process) (api : outcome Response) (now : string)
    (fs : FileSystem) (run : Run) :
  main getTime join writeFile process api now fs = Some run -> exitCode run = 0%Z ->
  exists response existingData,
    api = Returned response /\ ok response = true
    /\ run = compare_and_write getTime join writeFile process
               (fetched_versions (links response) now)
               (fetch_log (fetched_versions (links response) now)) fs existingData.
Proof.
  intros Hmain Hexit. unfold main in Hmain.
  destruct api as [response | e]; cbn [bind] in Hmain.
  - unfold fetchLatestVersions in Hmain. destruct (ok response) eqn:Hok; cbn [negb] in Hmain.
    + destruct (loadExistingData fs (output_path join process)) as [loaded | e].
      * destruct (read_existing loaded) as [| d | |].
        -- exists response, None. now inversion Hmain.
        -- exists response, (Some d). now inversion Hmain.
        -- inversion Hmain; subst. discriminate Hexit.
        -- discriminate Hmain.
      * inversion Hmain; subst. discriminate Hexit.
    + inversion Hmain; subst. discriminate Hexit.
  - inversion Hmain; subst. discriminate Hexit.
Qed.

(** X11. Round trip through the file: the text that [main] writes for a
    state is loaded by [loadExistingData] as a value that [main] reads as
    that same state, whatever strings the state holds. *)
Theorem written_file_loads_back (fs : FileSystem) (path : string) (d : VersionData) :
  lookup path fs = Some (File (written_text d)) ->
  exists loaded,
    loadExistingData fs path = Returned loaded /\ read_existing loaded = Present d.
Proof.
  intros Hfile. exists (to_json d). split.
  - apply load_written; [apply printable_to_json | exact Hfile].
  - apply read_existing_to_json.
Qed.

(** X12. When the request fails, or the answer is not ok, [main] logs its
    first line only, leaves the file system as it is, asks for no output
    write and exits with code 1. *)
Theorem main_fetch_failure (process : Process) (api : outcome Response) (now : string)
    (fs : FileSystem) :
  (forall response, api = Returned response -> ok response = false) ->
  main getTime join writeFile process api now fs
  = Some {| exitCode := 1;
            stdout := ["Fetching Minecraft Bedrock versions from official API..."];
            files := fs;
            bunWrites := [] |}.
Proof.
  intros Hfail. unfold main. destruct api as [response | e]; [| reflexivity].
  cbn [bind]. unfold fetchLatestVersions. now rewrite (Hfail response eq_refl).
Qed.

(** X13. A first run: when the versions file is missing, is a directory
    or holds no JSON text, and the API answers, [main] writes the fetched
    entries with an empty history, reports a change and exits with 0,
    provided the write succeeds. *)
Theorem main_first_run (process : Process) (response : Response) (now : string)
    (fs : FileSystem) :
  ok response = true ->
  (forall content, lookup (output_path join process) fs = Some (File content) ->
                   exists error, JSON_parse content = Thrown error) ->
  snd (writeFile fs (output_path join process)
         (written_text {| latest := fetched_versions (links response) now;
                          history := [] |})) = None ->
  exists run,
    main getTime join writeFile process (Returned response) now fs = Some run
    /\ exitCode run = 0%Z
    /\ files run = fst (writeFile fs (output_path join process)
                          (written_text {| latest := fetched_versions (links response) now;
                                           history := [] |}))
    /\ In "No existing versions file found. Creating new one..." (stdout run)
    /\ In "::set-output name=has-changes::true" (stdout run).
Proof.
  intros Hok Hfile Hwrite.
  assert (Hload : loadExistingData fs (output_path join process) = Returned JNull).
  { unfold loadExistingData, existsSync, readFile.
    destruct (lookup (output_path join process) fs) as [[content |] |]; try reflexivity.
    destruct (Hfile content eq_refl) as [error Herror].
    cbn [negb bind]. now rewrite Herror. }
  unfold main. cbn [bind]. unfold fetchLatestVersions. rewrite Hok. cbn [negb].
  rewrite Hload. cbn [read_existing].
  eexists. split; [reflexivity |].
  unfold compare_and_write. cbv zeta.
  change (fst (reconcile getTime (fetched_versions (links response) now) None))
    with {| latest := fetched_versions (links response) now; history := [] |}.
  rewrite Hwrite. cbn [exitCode files stdout]. split; [reflexivity |].
  split; [reflexivity |]. split.
  - apply in_or_app. left. apply in_or_app. right. now left.
  - apply in_or_app. right. apply in_or_app. right.
    change (snd (reconcile getTime (fetched_versions (links response) now) None))
      with true.
    cbn [outputs map setOutput snd fst bool_text In]. auto.
Qed.

(** X14. A file of the earlier revision's format stops [main]: the
    property chain of the comparison throws, so the run exits with code 1
    after the two version lines, without writing the file and without
    setting an output. *)
Theorem main_previous_format (process : Process) (response : Response) (now : string)
    (fs : FileSystem) (v : Previous.Versions) :
  ok response = true ->
  lookup (output_path join process) fs = Some (File (previous_written_text v)) ->
  main getTime join writeFile process (Returned response) now fs
  = Some {| exitCode := 1;
            stdout := fetch_log (fetched_versions (links response) now);
            files := fs;
            bunWrites := [] |}.
Proof.
  intros Hok Hfile. unfold main. cbn [bind]. unfold fetchLatestVersions.
  rewrite Hok. cbn [negb].
  rewrite (load_written fs _ (previous_to_json v) (printable_previous_to_json v) Hfile).
  now rewrite read_existing_previous.
Qed.

(** X15. The outputs of a run that exits with 0: the last four lines of
    the log are the four set-output commands in the order of the calls,
    [updated] and [has-changes] carry the same flag, and the two version
    outputs are the versions resolved from the answer of the API, not those
    of the file. *)
Theorem main_outputs (process : Process) (api : outcome Response) (now : string)
    (fs : FileSystem) (run : Run) :
  main getTime join writeFile process api now fs = Some run -> exitCode run = 0%Z ->
  exists response flag before,
    api = Returned response
    /\ stdout run
       = before
         ++ [ ("::set-output name=updated::" ++ bool_text flag)%string;
              ("::set-output name=stable-version::"
               ++ version (l_stable (fetched_versions (links response) now)))%string;
              ("::set-output name=preview-version::"
               ++ version (l_preview (fetched_versions (links response) now)))%string;
              ("::set-output name=has-changes::" ++ bool_text flag)%string ].
Proof.
  intros Hmain Hexit.
  destruct (main_success _ _ _ _ _ Hmain Hexit) as (response & ex & -> & Hok & Hrun).
  pose proof (exitCode_compare_and_write process _ _ fs ex
                ltac:(rewrite <- Hrun; exact Hexit)) as Hwrite.
  exists response, (snd (reconcile getTime (fetched_versions (links response) now) ex)).
  eexists. split; [reflexivity |].
  rewrite Hrun. unfold compare_and_write. cbv zeta. rewrite Hwrite.
  cbn [stdout outputs map setOutput snd fst]. rewrite app_assoc.
  destruct (reconcile_carries (fetched_versions (links response) now) ex stable)
    as (Hs & _).
  destruct (reconcile_carries (fetched_versions (links response) now) ex preview)
    as (Hp & _).
  cbn [channel_info] in Hs, Hp. rewrite Hs, Hp. reflexivity.
Qed.

(** X16. The output writes: a run that exits with 0 asks [Bun.write] for
    nothing when GITHUB_OUTPUT is unset or empty, and otherwise for four
    writes, each to the path in GITHUB_OUTPUT and each of one line. *)
Theorem main_output_writes (process : Process) (api : outcome Response) (now : string)
    (fs : FileSystem) (run : Run) :
  main getTime join writeFile process api now fs = Some run -> exitCode run = 0%Z ->
  match GITHUB_OUTPUT process with
  | None | Some EmptyString => bunWrites run = []
  | Some path =>
    map fst (bunWrites run) = [path; path; path; path]
  end.
Proof.
  intros Hmain Hexit.
  destruct (main_success _ _ _ _ _ Hmain Hexit) as (response & ex & -> & Hok & Hrun).
  pose proof (exitCode_compare_and_write process _ _ fs ex
                ltac:(rewrite <- Hrun; exact Hexit)) as Hwrite.
  rewrite Hrun. unfold compare_and_write. cbv zeta. rewrite Hwrite.
  cbn [bunWrites outputs map flat_map setOutput fst snd].
  destruct (GITHUB_OUTPUT process) as [[| a path] |]; reflexivity.
Qed.

(** The text that is written determines the state. *)
Lemma written_text_inj (d d' : VersionData) : written_text d = written_text d' -> d = d'.
Proof.
  intros H.
  pose proof (JSON_parse_print (to_json d) (printable_to_json d)) as Hd.
  pose proof (JSON_parse_print (to_json d') (printable_to_json d')) as Hd'.
  fold (written_text d) in Hd. fold (written_text d') in Hd'.
  rewrite H, Hd' in Hd.
  assert (Hj : to_json d' = to_json d) by congruence.
  pose proof (read_existing_to_json d) as Hr. rewrite <- Hj in Hr.
  rewrite read_existing_to_json in Hr. congruence.
Qed.

(** X17. Two runs in a row, for timestamps that are dates: if [writeFile]
    stores what it is given, and a run exits with 0 and leaves in the file
    the text of a state whose history entries are all dated, then a second
    run with the same answer of the API (at any later time) gives
    [writeFile] that same text, logs that nothing changed and reports
    has-changes false.  (With a timestamp that is no date in the history
    the order in which the runtime's sort leaves the entries is not fixed,
    and the text of the second run need not be that of the first.) *)
Theorem main_rerun (process : Process) (response : Response) (now later : string)
    (fs : FileSystem) (first : Run) (d : VersionData) :
  (forall fs' path text,
      snd (writeFile fs' path text) = None ->
      lookup path (fst (writeFile fs' path text)) = Some (File text)) ->
  main getTime join writeFile process (Returned response) now fs = Some first ->
  exitCode first = 0%Z ->
  lookup (output_path join process) (files first) = Some (File (written_text d)) ->
  valid_times getTime (history d) = true ->
  exists second,
    main getTime join writeFile process (Returned response) later (files first)
    = Some second
    /\ files second
       = fst (writeFile (files first) (output_path join process) (written_text d))
    /\ In "No version changes detected." (stdout second)
    /\ (exitCode second = 0%Z ->
        In "::set-output name=has-changes::false" (stdout second)).
Proof.
  intros Hlaw Hmain Hexit Hfile _.
  destruct (main_success _ _ _ _ _ Hmain Hexit) as (r & ex & Hr & Hok & Hrun).
  inversion Hr; subst r. clear Hr.
  set (fetched := fetched_versions (links response) now) in *.
  pose proof (exitCode_compare_and_write process _ _ fs ex
                ltac:(rewrite <- Hrun; exact Hexit)) as Hwrite.
  assert (Hd : d = fst (reconcile getTime fetched ex)).
  { apply written_text_inj.
    assert (Hfiles : files first
                     = fst (writeFile fs (output_path join process)
                              (written_text (fst (reconcile getTime fetched ex))))).
    { rewrite Hrun. apply files_compare_and_write. }
    rewrite Hfiles, (Hlaw _ _ _ Hwrite) in Hfile. congruence. }
  exists (compare_and_write getTime join writeFile process
            (fetched_versions (links response) later)
            (fetch_log (fetched_versions (links response) later)) (files first) (Some d)).
  split.
  { unfold main. cbn [bind]. unfold fetchLatestVersions. rewrite Hok. cbn [negb].
    rewrite (load_written (files first) _ (to_json d) (printable_to_json d) Hfile).
    now rewrite read_existing_to_json. }
  assert (Hagain : reconcile getTime (fetched_versions (links response) later) (Some d)
                   = (d, false)).
  { rewrite Hd. apply reconcile_rerun. }
  assert (Hc : forall c, channelChanged c d (fetched_versions (links response) later)
                         = false).
  { intros c. unfold channelChanged.
    destruct (reconcile_carries fetched ex c) as (Hv & _). rewrite <- Hd in Hv.
    rewrite Hv. destruct c; apply negb_false_iff, String.eqb_eq; reflexivity. }
  split.
  { rewrite files_compare_and_write, Hagain. reflexivity. }
  unfold compare_and_write. cbv zeta. rewrite Hagain. cbn [fst snd].
  unfold comparison_log. rewrite !Hc. cbn [orb app].
  destruct (snd (writeFile (files first) (output_path join process) (written_text d))).
  - split; [| discriminate]. cbn [failed stdout]. apply in_or_app. right. now left.
  - cbn [exitCode stdout]. split.
    + apply in_or_app. left. apply in_or_app. right. now left.
    + intros _. apply in_or_app. right. right.
      cbn [outputs map setOutput snd fst bool_text In]. auto.
Qed.

End MainFacts.

(** ** Sample runs for the properties above *)

(** The Linux download of stable 1.21.124.2. *)
Lemma extractVersion_of_file_name_witness :
  extractVersion (bin_url "bin-linux" "1.21.124.2") = Some "1.21.124.2".
Proof.
  apply (extractVersion_of_file_name
           "https://www.minecraft.net/bedrockdedicatedserver/bin-linux/" "1.21.124.2" "").
  - vm_compute. reflexivity.
  - exists [chars "1"; chars "21"; chars "124"; chars "2"].
    split; [reflexivity |]. split; [| right; reflexivity].
    repeat (first [apply Forall_cons | apply Forall_nil | split | reflexivity
                  | discriminate]).
Defined.

(** An answer that offers the preview for Linux only, against the state of
    the first sample run. *)
Lemma missing_links_unknown_witness :
  channel_info stable
    (fetched_versions
       [ {| downloadType := "serverBedrockPreviewLinux";
            downloadUrl := bin_url "bin-linux-preview" "1.21.130.28" |} ] day2)
  = {| version := "unknown"; windows := ""; linux := ""; releasedAt := day2 |}
  /\ snd (reconcile isoTime
            (fetched_versions
               [ {| downloadType := "serverBedrockPreviewLinux";
                    downloadUrl := bin_url "bin-linux-preview" "1.21.130.28" |} ] day2)
            (Some (fst run1))) = true
  /\ version (channel_info stable
                (latest (fst (reconcile isoTime
                                (fetched_versions
                                   [ {| downloadType := "serverBedrockPreviewLinux";
                                        downloadUrl := bin_url "bin-linux-preview"
                                                         "1.21.130.28" |} ] day2)
                                (Some (fst run1))))))
     = "unknown"
  /\ In (stable, version (channel_info stable (latest (fst run1))))
        (map key
           (history (fst (reconcile isoTime
                            (fetched_versions
                               [ {| downloadType := "serverBedrockPreviewLinux";
                                    downloadUrl := bin_url "bin-linux-preview"
                                                     "1.21.130.28" |} ] day2)
                            (Some (fst run1)))))).
Proof.
  apply (missing_links_unknown isoTime stable
           [ {| downloadType := "serverBedrockPreviewLinux";
                downloadUrl := bin_url "bin-linux-preview" "1.21.130.28" |} ]
           day2 (fst run1)).
  - intros link [<- | []]. split; discriminate.
  - vm_compute. discriminate.
Defined.

(** The file that the first sample run of [main] wrote. *)
Lemma written_file_loads_back_witness :
  exists loaded,
    loadExistingData (files first_run) "/repo/versions.json" = Returned loaded
    /\ read_existing loaded = Present (fst run1).
Proof.
  apply (written_file_loads_back (files first_run) "/repo/versions.json" (fst run1)).
  vm_compute. reflexivity.
Defined.

(** The API answers 503. *)
Lemma main_fetch_failure_witness :
  main isoTime posix_join overwrite runner (Returned unavailable) day1 truncated_fs
  = Some {| exitCode := 1;
            stdout := ["Fetching Minecraft Bedrock versions from official API..."];
            files := truncated_fs;
            bunWrites := [] |}.
Proof.
  apply (main_fetch_failure isoTime posix_join overwrite runner (Returned unavailable)
           day1 truncated_fs).
  intros response H. inversion H. reflexivity.
Defined.

(** A run on the repository whose versions file was cut off. *)
Lemma main_first_run_witness :
  exists run,
    main isoTime posix_join overwrite runner
      (Returned (api_offers "1.21.120.0" "1.21.130.28")) day1 truncated_fs = Some run
    /\ exitCode run = 0%Z
    /\ files run
       = fst (overwrite truncated_fs (output_path posix_join runner)
                (written_text
                   {| latest := fetched_versions
                                  (links (api_offers "1.21.120.0" "1.21.130.28")) day1;
                      history := [] |}))
    /\ In "No existing versions file found. Creating new one..." (stdout run)
    /\ In "::set-output name=has-changes::true" (stdout run).
Proof.
  apply (main_first_run isoTime posix_join overwrite runner
           (api_offers "1.21.120.0" "1.21.130.28") day1 truncated_fs).
  - reflexivity.
  - intros content H. vm_compute in H. inversion H.
    eexists. vm_compute. reflexivity.
  - reflexivity.
Defined.

(** A run on the repository of the earlier revision. *)
Lemma main_previous_format_witness :
  main isoTime posix_join overwrite runner
    (Returned (api_offers "1.21.124.2" "1.21.130.28")) day2 previous_fs
  = Some {| exitCode := 1;
            stdout := fetch_log (fetched_versions
                                   (links (api_offers "1.21.124.2" "1.21.130.28")) day2);
            files := previous_fs;
            bunWrites := [] |}.
Proof.
  apply (main_previous_format isoTime posix_join overwrite runner
           (api_offers "1.21.124.2" "1.21.130.28") day2 previous_fs previous_sample).
  - reflexivity.
  - vm_compute. reflexivity.
Defined.

(** The first sample run of [main]. *)
Lemma main_outputs_witness :
  exists response flag before,
    Returned (api_offers "1.21.120.0" "1.21.130.28") = Returned response
    /\ stdout first_run
       = before
         ++ [ ("::set-output name=updated::" ++ bool_text flag)%string;
              ("::set-output name=stable-version::"
               ++ version (l_stable (fetched_versions (links response) day1)))%string;
              ("::set-output name=preview-version::"
               ++ version (l_preview (fetched_versions (links response) day1)))%string;
              ("::set-output name=has-changes::" ++ bool_text flag)%string ].
Proof.
  apply (main_outputs isoTime posix_join overwrite runner
           (Returned (api_offers "1.21.120.0" "1.21.130.28")) day1 [] first_run).
  - vm_compute. reflexivity.
  - vm_compute. reflexivity.
Defined.

Lemma main_output_writes_witness :
  map fst (bunWrites first_run)
  = ["/tmp/github_output"; "/tmp/github_output"; "/tmp/github_output";
     "/tmp/github_output"].
Proof.
  apply (main_output_writes isoTime posix_join overwrite runner
           (Returned (api_offers "1.21.120.0" "1.21.130.28")) day1 [] first_run).
  - vm_compute. reflexivity.
  - vm_compute. reflexivity.
Defined.

(** The second sample run of [main], which leaves one dated entry in the
    history, and the same answer a week later. *)
Lemma main_rerun_witness :
  exists second,
    main isoTime posix_join overwrite runner
      (Returned (api_offers "1.21.124.2" "1.21.130.28")) day3 (files second_run)
    = Some second
    /\ files second
       = fst (overwrite (files second_run) (output_path posix_join runner)
                (written_text (fst run2)))
    /\ In "No version changes detected." (stdout second)
    /\ (exitCode second = 0%Z ->
        In "::set-output name=has-changes::false" (stdout second)).
Proof.
  apply (main_rerun isoTime posix_join overwrite runner
           (api_offers "1.21.124.2" "1.21.130.28") day2 day3 (files first_run)
           second_run (fst run2)).
  - intros fs' path text _. cbn [overwrite fst lookup].
    rewrite String.eqb_refl. reflexivity.
  - vm_compute. reflexivity.
  - vm_compute. reflexivity.
  - vm_compute. reflexivity.
  - vm_compute. reflexivity.
Defined.
